(** * KatelyaTV: the multi-source aggregation routes

    A shallow embedding of [src/app/api/source/category/route.ts] and
    [src/app/api/source/hot/route.ts], and the properties of their
    normalisation, episode extraction, merge, shuffle and pagination steps.

    JavaScript strings are sequences of UTF-16 code units; a regular
    expression without the [u] flag works on code units, so a string is a
    [list N] here.  Exceptions are an explicit [Completion]; the network,
    the configuration collaborator and [Math.random] are a [World] that the
    routes read; what the routes take from the runtime and the engine (the
    sort, the limit on the arguments of a call) is an [Env]. *)

From Stdlib Require Import String Ascii DecimalString.
From Stdlib Require Import List NArith ZArith QArith Qround Qabs Bool Lia.
From Stdlib Require Import Lqa Btauto.
From Stdlib Require Import Permutation DecimalPos.
Import ListNotations.

Set Implicit Arguments.

(** ** Strings *)

Definition jsstring := list N.

(** An ASCII literal, one code unit per character. *)
Definition lit (s : string) : jsstring :=
  map N_of_ascii (list_ascii_of_string s).

Fixpoint str_eqb (a b : jsstring) : bool :=
  match a, b with
  | [], [] => true
  | x :: a', y :: b' => N.eqb x y && str_eqb a' b'
  | _, _ => false
  end.

(** A string is truthy when it is not empty. *)
Definition truthy (s : jsstring) : bool :=
  match s with [] => false | _ :: _ => true end.

(** [a || b] on strings. *)
Definition or_else (a b : jsstring) : jsstring :=
  if truthy a then a else b.

(** The class [\s], which is also the set [String.prototype.trim] strips:
    WhiteSpace and LineTerminator code units. *)
Definition is_space (c : N) : bool :=
  ((9 <=? c) && (c <=? 13) || (c =? 32) || (c =? 160) || (c =? 0x1680)
   || (0x2000 <=? c) && (c <=? 0x200a) || (c =? 0x2028) || (c =? 0x2029)
   || (c =? 0x202f) || (c =? 0x205f) || (c =? 0x3000) || (c =? 0xfeff))%N.

(** The class [\d]. *)
Definition is_digit (c : N) : bool := ((48 <=? c) && (c <=? 57))%N.

Fixpoint trim_start (s : jsstring) : jsstring :=
  match s with
  | c :: s' => if is_space c then trim_start s' else s
  | [] => []
  end.

Definition trim (s : jsstring) : jsstring :=
  rev (trim_start (rev (trim_start s))).

(** [s.replace(/\s+/g, ' ')]: every maximal run of white space becomes one
    space. *)
Fixpoint collapse_spaces (s : jsstring) : jsstring :=
  match s with
  | [] => []
  | c :: s' =>
      if is_space c then
        match s' with
        | d :: _ => if is_space d then collapse_spaces s'
                    else 32%N :: collapse_spaces s'
        | [] => [32%N]
        end
      else c :: collapse_spaces s'
  end.

(** [strip_prefix p s] is the rest of [s] after the literal [p]. *)
Fixpoint strip_prefix (p s : jsstring) : option jsstring :=
  match p, s with
  | [], _ => Some s
  | x :: p', y :: s' => if N.eqb x y then strip_prefix p' s' else None
  | _ :: _, [] => None
  end.

Definition starts_with (p s : jsstring) : bool :=
  match strip_prefix p s with Some _ => true | None => false end.

(** [s.includes(p)] *)
Fixpoint includes (s p : jsstring) : bool :=
  starts_with p s ||
  match s with
  | [] => false
  | _ :: s' => includes s' p
  end.

(** [s.indexOf(c)] for a one-unit needle; [-1] when absent. *)
Fixpoint indexOf (s : jsstring) (c : N) : Z :=
  match s with
  | [] => (-1)%Z
  | x :: s' =>
      if N.eqb x c then 0%Z
      else let i := indexOf s' c in
           if (i <? 0)%Z then (-1)%Z else (i + 1)%Z
  end.

(** [s.substring(1)] *)
Definition substring_from1 (s : jsstring) : jsstring := tl s.

(** [s.substring(0, n)] for [n >= 0] *)
Definition substring_to (s : jsstring) (n : Z) : jsstring :=
  firstn (Z.to_nat n) s.

(** [s.split('$$$')]: the pieces between the successive leftmost
    occurrences of the separator; [cur] is the piece being read, reversed. *)
Fixpoint split_aux (cur s : jsstring) : list jsstring :=
  match s with
  | [] => [rev cur]
  | c1 :: t =>
      match t with
      | c2 :: c3 :: rest =>
          if (c1 =? 36)%N && (c2 =? 36)%N && (c3 =? 36)%N
          then rev cur :: split_aux [] rest
          else split_aux (c1 :: cur) t
      | _ => split_aux (c1 :: cur) t
      end
  end.

Definition split3 (s : jsstring) : list jsstring := split_aux [] s.

(** ** The regular expressions *)

(** A code unit the character class of [m3u8Regex] accepts: anything but a
    double quote (34), a single quote (39) and white space. *)
Definition url_char (c : N) : bool :=
  negb ((c =? 34)%N || (c =? 39)%N || is_space c).

(** The tail of [m3u8Regex]: the lazy repetition of the class after its
    first code unit, then [\.m3u8].  The lazy quantifier stops at the first
    place where [.m3u8] follows. *)
Fixpoint lazy_body (s : jsstring) : option jsstring :=
  match strip_prefix (lit ".m3u8") s with
  | Some _ => Some (lit ".m3u8")
  | None =>
      match s with
      | c :: s' =>
          if url_char c then option_map (cons c) (lazy_body s') else None
      | [] => None
      end
  end.

(** [:\/\/], one or more code units of the class (lazy), [\.m3u8] *)
Definition after_scheme (s : jsstring) : option jsstring :=
  match strip_prefix (lit "://") s with
  | Some (c :: r) =>
      if url_char c
      then option_map (fun b => lit "://" ++ c :: b) (lazy_body r)
      else None
  | _ => None
  end.

(** [s?:\/\/] and what follows.  [s?] is greedy: it takes the [s] first
    and gives it back when the rest fails. *)
Definition optional_s (r : jsstring) : option jsstring :=
  match r with
  | c :: r' =>
      if (c =? 115)%N then
        match after_scheme r' with
        | Some b => Some (c :: b)
        | None => after_scheme r
        end
      else after_scheme r
  | [] => after_scheme r
  end.

(** [m3u8Regex], that is [\$] then [https?:\/\/], the lazy class
    repetition and [\.m3u8], anchored at the start of [s]: the matched
    text. *)
Definition match_at (s : jsstring) : option jsstring :=
  match strip_prefix (lit "$http") s with
  | None => None
  | Some r => option_map (app (lit "$http")) (optional_s r)
  end.

(** [s.match(m3u8Regex) || []] with the [g] flag: every match, left to
    right, each search resuming at [lastIndex], the end of the previous
    match.  [skip] counts the code units still before [lastIndex]. *)
Fixpoint match_all_from (skip : nat) (s : jsstring) : list jsstring :=
  match s with
  | [] => []
  | _ :: s' =>
      match skip with
      | S k => match_all_from k s'
      | O =>
          match match_at s with
          | Some m => m :: match_all_from (length m - 1) s'
          | None => match_all_from 0 s'
          end
      end
  end.

Definition match_all (s : jsstring) : list jsstring := match_all_from 0 s.

(** [s.match(/\d{4}/)?.[0]]: the leftmost four consecutive digits. *)
Fixpoint match_year (s : jsstring) : option jsstring :=
  match s with
  | a :: t =>
      match t with
      | b :: c :: d :: _ =>
          if is_digit a && is_digit b && is_digit c && is_digit d
          then Some [a; b; c; d]
          else match_year t
      | _ => None
      end
  | [] => None
  end.

(** ** [Set] and [Map], in insertion order *)

Fixpoint str_mem (x : jsstring) (l : list jsstring) : bool :=
  match l with
  | [] => false
  | y :: l' => str_eqb x y || str_mem x l'
  end.

(** [set.add(x)] *)
Definition set_add (s : list jsstring) (x : jsstring) : list jsstring :=
  if str_mem x s then s else s ++ [x].

(** [Array.from(new Set(l))] *)
Definition array_from_set (l : list jsstring) : list jsstring :=
  fold_left set_add l [].

(** [map.set(k, v)]: an existing key keeps its place and takes the new
    value; a new key goes last. *)
Fixpoint map_set (V : Type) (m : list (jsstring * V)) (k : jsstring) (v : V)
  : list (jsstring * V) :=
  match m with
  | [] => [(k, v)]
  | (k', v') :: m' =>
      if str_eqb k k' then (k', v) :: m' else (k', v') :: map_set m' k v
  end.

(** [new Map(entries)] *)
Definition new_map (V : Type) (entries : list (jsstring * V))
  : list (jsstring * V) :=
  fold_left (fun m kv => map_set m (fst kv) (snd kv)) entries [].

(** [Array.from(m.values())] *)
Definition map_values (V : Type) (m : list (jsstring * V)) : list V :=
  map snd m.

(** ** Episode extraction (both routes, the same text) *)

(** The [forEach] over the groups: a group replaces [episodes] when it has
    strictly more matches. *)
Definition pick_longer (episodes : list jsstring) (url : jsstring)
  : list jsstring :=
  let matches := match_all url in
  if (length episodes <? length matches)%nat then matches else episodes.

(** The [map] callback after [new Set]: drop the leading [$], cut at a
    parenthesis that is not the first code unit. *)
Definition clean_link (link : jsstring) : jsstring :=
  let link := substring_from1 link in
  let parenIndex := indexOf link 40%N in
  if (parenIndex >? 0)%Z then substring_to link parenIndex else link.

Definition extract_episodes (vod_play_url : option jsstring)
  : list jsstring :=
  let episodes :=
    match vod_play_url with
    | Some u =>
        if truthy u then fold_left pick_longer (split3 u) [] else []
    | None => []
    end in
  map clean_link (array_from_set episodes).

Definition scenario_field : jsstring :=
  lit "$https://a.com/1.m3u8(CDN1)$$$$https://a.com/1.m3u8(CDN1)$https://a.com/2.m3u8(CDN2)".

(** ** Numbers, arrays *)

(** *** Doubles

    A Number is an IEEE 754 double.  The value of a finite double is a
    rational, and an operation on doubles is the exact operation followed
    by the rounding to the nearest double, a tie going to the double with
    the even significand. *)

(** [2 ^ e <= x], for [x > 0] *)
Definition pow2_le (e : Z) (x : Q) : bool :=
  if (0 <=? e)%Z then (2 ^ e * Zpos (Qden x) <=? Qnum x)%Z
  else (Zpos (Qden x) <=? Qnum x * 2 ^ (- e))%Z.

(** The binary exponent of [x > 0]: the [e] with
    [2 ^ e <= x < 2 ^ (e + 1)]. *)
Definition exponent (x : Q) : Z :=
  let e := (Z.log2 (Qnum x) - Z.log2 (Zpos (Qden x)))%Z in
  if pow2_le e x then e else (e - 1)%Z.

(** [x * 2 ^ k] *)
Definition scale (x : Q) (k : Z) : Q :=
  if (0 <=? k)%Z then x * inject_Z (2 ^ k) else x / inject_Z (2 ^ (- k)).

(** The nearest integer, a tie going to the even one. *)
Definition round_half_even (x : Q) : Z :=
  let f := Qfloor x in
  match Qcompare (x - inject_Z f) (1 # 2) with
  | Lt => f
  | Gt => (f + 1)%Z
  | Eq => if Z.even f then f else (f + 1)%Z
  end.

(** The rounding of a real to a double, before the check for overflow:
    53 significant bits, and for an exponent below -1022 the multiples of
    [2 ^ -1074]. *)
Definition round_double (x : Q) : Q :=
  match Qnum x with
  | 0%Z => 0
  | _ =>
      let k := (Z.max (exponent (Qabs x)) (-1022) - 52)%Z in
      scale (inject_Z (round_half_even (scale x (- k)))) k
  end.

(** *** The numbers of the query

    What [parseInt] returns: [NaN], an infinity, or a Number whose value
    is an integer. *)
Inductive number := NaN | Int (z : Z) | Infinity (negative : bool).

(** The Number for the mathematical integer [v]: the double nearest to
    it, an infinity from [2 ^ 1024] on. *)
Definition number_of_integer (v : Z) : number :=
  let d := round_double (inject_Z v) in
  if Qle_bool (inject_Z (2 ^ 1024)) (Qabs d) then Infinity (v <? 0)%Z
  else Int (Qfloor d).

(** [a + b].  The sum of two integers is kept exact: where the engine
    rounds it, beyond [2 ^ 53], the exact and the rounded sum are both
    beyond the length of any array the engine holds (less than [2 ^ 32]),
    and [slice] below reads the same index from either. *)
Definition num_add (a b : number) : number :=
  match a, b with
  | Int x, Int y => Int (x + y)
  | Int _, Infinity s => Infinity s
  | Infinity s, Int _ => Infinity s
  | Infinity s, Infinity t => if Bool.eqb s t then Infinity s else NaN
  | _, _ => NaN
  end.

(** A relative index of [Array.prototype.slice]: ToIntegerOrInfinity of
    the argument, which is 0 for [NaN]; a negative index counts from the
    end; the result is clamped to [0 .. len]. *)
Definition relative_index (len : Z) (rel : number) : Z :=
  match rel with
  | NaN => 0%Z
  | Int z => if (z <? 0)%Z then Z.max (len + z) 0 else Z.min z len
  | Infinity true => 0%Z
  | Infinity false => len
  end.

(** [l.slice(start, end)] *)
Definition slice (A : Type) (l : list A) (start end_ : number) : list A :=
  let len := Z.of_nat (length l) in
  let k := relative_index len start in
  let final := relative_index len end_ in
  firstn (Z.to_nat (Z.max (final - k) 0)) (skipn (Z.to_nat k) l).

(** An integer Number in a template literal or under [toString()]: its
    decimal digits, after a minus sign when it is negative.  This is what
    the engine prints for a safe integer, one of size below [2 ^ 53]; the
    numbers printed here are page offsets, page sizes and HTTP statuses. *)
Definition number_to_string (n : Z) : jsstring :=
  lit (NilZero.string_of_int (Z.to_int n)).

(** [l.map((x, i) => f i x)] *)
Fixpoint mapi_from (A B : Type) (f : nat -> A -> B) (i : nat) (l : list A)
  : list B :=
  match l with
  | [] => []
  | x :: l' => f i x :: mapi_from f (S i) l'
  end.

Definition mapi (A B : Type) (f : nat -> A -> B) (l : list A) : list B :=
  mapi_from f 0 l.

(** ** Random draws

    [Rand A] is a computation that consumes draws of [Math.random]; the
    state is the number of draws consumed so far. *)

Definition Rand (A : Type) := nat -> A * nat.

Definition rand_ret (A : Type) (a : A) : Rand A := fun k => (a, k).

Definition rand_bind (A B : Type) (c : Rand A) (f : A -> Rand B) : Rand B :=
  fun k => let (a, k') := c k in f a k'.

(** ** Exceptions *)

Record Error := { err_name : jsstring; err_message : jsstring }.

Inductive Completion (A : Type) :=
| Return (a : A)
| Throw (e : Error).
Arguments Return {A} a.
Arguments Throw {A} e.

Definition bind (A B : Type) (c : Completion A) (f : A -> Completion B)
  : Completion B :=
  match c with
  | Return a => f a
  | Throw e => Throw e
  end.

Notation "x <- c ;; k" := (bind c (fun x => k))
  (at level 61, c at next level, right associativity).

(** [try { body } catch (error) { handler }] *)
Definition try_catch (A : Type) (body : Completion A)
  (handler : Error -> Completion A) : Completion A :=
  match body with
  | Return a => Return a
  | Throw e => handler e
  end.

(** The outcome [Promise.allSettled] records for one promise. *)
Inductive Settled (A : Type) :=
| Fulfilled (value : A)
| Rejected (reason : Error).
Arguments Fulfilled {A} value.
Arguments Rejected {A} reason.

Definition settle (A : Type) (c : Completion A) : Settled A :=
  match c with
  | Return a => Fulfilled a
  | Throw e => Rejected e
  end.

(** ** Data *)

(** [vod_id?: string | number].  The routes do one thing with an
    identifier, they call [toString()] on it, so that a number is given
    here by the text [Number.prototype.toString] prints for it. *)
Inductive RawId := IdString (s : jsstring) | IdNumber (printed : jsstring).

(** [interface ApiSearchItem]: every field is optional; [None] is a field
    that is absent, [undefined] or [null]. *)
Record ApiSearchItem := {
  vod_id : option RawId;
  vod_name : option jsstring;
  vod_pic : option jsstring;
  vod_play_url : option jsstring;
  vod_class : option jsstring;
  vod_year : option jsstring;
  vod_content : option jsstring;
  item_type_name : option jsstring
}.

(** [interface VideoResult] *)
Record VideoResult := {
  id : jsstring;
  title : jsstring;
  poster : jsstring;
  episodes : list jsstring;
  source : jsstring;
  source_name : jsstring;
  class : jsstring;
  year : jsstring;
  desc : jsstring;
  type_name : jsstring
}.

(** A site of [getAvailableApiSites]. *)
Record ApiSite := { key : jsstring; api : jsstring; name : jsstring }.

Definition Headers := list (jsstring * jsstring).

Record RequestInit := { headers : option Headers }.

(** The value [response.json()] resolves to, as far as the routes look at
    it: [NoList] is any value with [!data || !data.list ||
    !Array.isArray(data.list)]. *)
Inductive JsonData :=
| NoList
| ListOf (items : list ApiSearchItem).

Record HttpResponse := {
  status : Z;
  json : Completion JsonData
}.

(** [response.ok] *)
Definition ok (r : HttpResponse) : bool :=
  ((200 <=? status r) && (status r <=? 299))%Z.

(** What happens to one call of [fetch] under the 8000 ms timer: the
    request fails, the timer fires first and [controller.abort()] makes
    [fetch] reject, or a response arrives. *)
Inductive FetchEvent :=
| NetworkFailure (e : Error)
| TimedOut (e : Error)
| Responded (r : HttpResponse).

(** The JSON envelope of both routes. *)
Record Envelope := {
  code : Z;
  message : jsstring;
  list_ : list VideoResult
}.

(** What the routes take from elsewhere: [String.prototype.toLowerCase]
    and [encodeURIComponent] of the runtime, [cleanHtmlTags] of
    [@/lib/utils] and [API_CONFIG.search] of [@/lib/config], and two things
    of the engine.

    [array_sort] is [Array.prototype.sort] with a comparison function.  The
    comparison function of the routes is not consistent, and for that case
    ECMAScript leaves the order of the result to the engine; the algorithm
    is no part of the routes.  What is taken for granted of the engine is
    [array_sort_permutes]: sorting moves the elements of the array, it
    neither drops nor repeats one.

    [spread_limit] is the largest number of arguments the engine makes a
    call with, and [spread_error] the error it raises for a call with more
    (in V8 the limit comes from the size of the stack, some 120000
    arguments with the default one, and the error is a [RangeError]). *)
Record Env := {
  toLowerCase : jsstring -> jsstring;
  encodeURIComponent : jsstring -> jsstring;
  cleanHtmlTags : jsstring -> jsstring;
  search_path : jsstring;
  search_headers : Headers;
  array_sort : forall A : Type,
    (A -> A -> Rand Q) -> list A -> Rand (list A);
  array_sort_permutes :
    forall (A : Type) (comparefn : A -> A -> Rand Q) (l : list A) (k : nat),
      Permutation l (fst (array_sort comparefn l k));
  spread_limit : nat;
  spread_error : Error
}.

(** What one request meets: the configured sites, the outcome of the
    [n]-th call of [fetch], and the draws of [Math.random], one stream for
    each place that draws (the keyword of the [n]-th site, the token for
    item [j] of site [n], the comparisons of the shuffle).  A draw is the
    value of a double from 0 up to, and not including, 1. *)
Record World := {
  getAvailableApiSites : Completion (list ApiSite);
  fetch : nat -> jsstring -> Headers -> FetchEvent;
  keyword_draw : nat -> Q;
  id_token : nat -> nat -> jsstring;
  shuffle_draw : nat -> Q
}.

(** ** Constants *)

Definition ALL : jsstring := [0x5168; 0x90e8]%N.
Definition hotKeywords : list jsstring :=
  [[0x70ed; 0x95e8]; [0x6700; 0x65b0]; [0x63a8; 0x8350]]%N.
Definition UNKNOWN_TITLE : jsstring := [0x672a; 0x77e5; 0x6807; 0x9898]%N.
Definition MSG_NO_SOURCE : jsstring :=
  [0x6682; 0x65e0; 0x53ef; 0x7528; 0x89c6; 0x9891; 0x6e90]%N.
Definition MSG_OK : jsstring := [0x83b7; 0x53d6; 0x6210; 0x529f]%N.
Definition MSG_FAIL_CATEGORY : jsstring :=
  [0x83b7; 0x53d6; 0x89c6; 0x9891; 0x5931; 0x8d25; 0x3a; 0x20]%N.
Definition MSG_FAIL_HOT : jsstring :=
  [0x83b7; 0x53d6; 0x70ed; 0x95e8; 0x89c6; 0x9891; 0x5931; 0x8d25; 0x3a;
   0x20]%N.
Definition USER_AGENT : jsstring :=
  lit "Mozilla/5.0 (Windows NT 10.0; Win64; x64) AppleWebKit/537.36 (KHTML, like Gecko) Chrome/122.0.0.0 Safari/537.36".

(** ** What both routes share *)

(** [{ ...base, ...extra }] on header objects *)
Definition spread (base extra : Headers) : Headers :=
  fold_left (fun m kv => map_set m (fst kv) (snd kv)) extra base.

(** [item.f || d] for an optional string field *)
Definition field_or (f : option jsstring) (d : jsstring) : jsstring :=
  match f with
  | Some s => or_else s d
  | None => d
  end.

(** [vod_id.toString()] *)
Definition id_to_string (i : RawId) : jsstring :=
  match i with
  | IdString s => s
  | IdNumber printed => printed
  end.

(** [hotKeywords[Math.floor(Math.random() * hotKeywords.length)]], for the
    draw [r]: the product is a product of doubles, rounded, and an index
    past the last keyword reads [undefined]. *)
Definition random_keyword (r : Q) : jsstring :=
  nth (Z.to_nat (Qfloor (round_double (r * 3)))) hotKeywords
      (lit "undefined").

(** The [filter] both routes end the normalisation with:
    [video.title && video.poster]. *)
Definition keep (video : VideoResult) : bool :=
  truthy (title video) && truthy (poster video).

(** The comparison function of the shuffle, [() => 0.5 - Math.random()]:
    it reads no argument, and takes one draw. *)
Definition random_compare (w : World) (A : Type) (_ _ : A) : Rand Q :=
  fun k => (round_double (0.5 - shuffle_draw w k), S k).

(** [allVideos.push(...value)]: the elements of [value] are the arguments
    of one call of [push], and the engine raises its error in place of a
    call with more arguments than it has room for. *)
Definition push_spread (E : Env) (allVideos value : list VideoResult)
  : Completion (list VideoResult) :=
  if (length value <=? spread_limit E)%nat then Return (allVideos ++ value)
  else Throw (spread_error E).

(** [results.forEach] on the array [allVideos]: the value of each
    fulfilled promise is pushed, in order; an error of [push] ends the
    loop and leaves the callback. *)
Fixpoint collect (E : Env) (allVideos : list VideoResult)
  (results : list (Settled (list VideoResult)))
  : Completion (list VideoResult) :=
  match results with
  | [] => Return allVideos
  | Fulfilled value :: results' =>
      allVideos <- push_spread E allVideos value ;;
      collect E allVideos results'
  | Rejected _ :: results' => collect E allVideos results'
  end.

(** Every fulfilled value is short enough for one call of [push]. *)
Definition spreadable (E : Env)
  (results : list (Settled (list VideoResult))) : bool :=
  forallb (fun result =>
             match result with
             | Fulfilled value => (length value <=? spread_limit E)%nat
             | Rejected _ => true
             end) results.

(** The array a completion leaves: the value it returns, and nothing when
    it throws. *)
Definition value_of (A : Type) (c : Completion (list A)) : list A :=
  match c with
  | Return l => l
  | Throw _ => []
  end.

(** The headers of [fetchOptions]: the two defaults, then the caller's. *)
Definition fetchOptions (options : RequestInit) : Headers :=
  spread [(lit "User-Agent", USER_AGENT);
          (lit "Accept", lit "application/json")]
         (match headers options with Some h => h | None => [] end).

Section Fetch.
Variable E : Env.
Variable w : World.

(** [fetchWithTimeout], the same text in both routes; [n] numbers the
    calls of [fetch] within the request. *)
Definition fetchWithTimeout (n : nat) (url : jsstring)
  (options : RequestInit) : Completion HttpResponse :=
  match fetch w n url (fetchOptions options) with
  | Responded response => Return response
  | NetworkFailure error => Throw error
  | TimedOut error => Throw error
  end.

(** The object the [map] callback of both routes returns for [item], the
    [j]-th of the list of site [n]. *)
Definition normalize (n j : nat) (sourceKey sourceName : jsstring)
  (item : ApiSearchItem) : VideoResult :=
  {| id := field_or (option_map id_to_string (vod_id item))
                    (sourceKey ++ lit "-" ++ id_token w n j);
     title := field_or
                (option_map (fun s => collapse_spaces (trim s))
                            (vod_name item))
                UNKNOWN_TITLE;
     poster := field_or (vod_pic item) [];
     episodes := extract_episodes (vod_play_url item);
     source := sourceKey;
     source_name := sourceName;
     class := field_or (vod_class item) [];
     year := match vod_year item with
             | Some y =>
                 if truthy y then field_or (match_year y) []
                 else lit "unknown"
             | None => lit "unknown"
             end;
     desc := cleanHtmlTags E (field_or (vod_content item) []);
     type_name := field_or (item_type_name item) [] |}.

Definition searchUrl (apiUrl searchKeyword : jsstring) : jsstring :=
  apiUrl ++ search_path E ++ encodeURIComponent E searchKeyword.

(** The search request and the checks on its answer, up to the list of
    raw items; an answer without a usable list is the empty list. *)
Definition fetch_list (n : nat) (apiUrl searchKeyword : jsstring)
  : Completion (list ApiSearchItem) :=
  response <- fetchWithTimeout n (searchUrl apiUrl searchKeyword)
                {| headers := Some (search_headers E) |} ;;
  if negb (ok response) then Return []
  else
    data <- json response ;;
    match data with
    | NoList => Return []
    | ListOf items => Return items
    end.
End Fetch.

(** ** [src/app/api/source/category/route.ts] *)

Module Category.
Section Route.
Variable E : Env.
Variable w : World.

(** The filter of a category other than the all-category. *)
Definition matches_category (category : jsstring) (video : VideoResult)
  : bool :=
  let videoClass := toLowerCase E (or_else (class video) []) in
  let videoTypeName := toLowerCase E (or_else (type_name video) []) in
  let videoTitle := toLowerCase E (or_else (title video) []) in
  let categoryLower := toLowerCase E category in
  includes videoClass categoryLower
  || includes videoTypeName categoryLower
  || includes videoTitle categoryLower.

Definition searchKeyword (n : nat) (category : jsstring) : jsstring :=
  if str_eqb category ALL then random_keyword (keyword_draw w n)
  else category.

Definition fetchCategoryVideosFromApi (n : nat)
  (apiUrl sourceKey sourceName category : jsstring)
  : Completion (list VideoResult) :=
  try_catch
    (items <- fetch_list E w n apiUrl (searchKeyword n category) ;;
     match items with
     | [] => Return []
     | _ :: _ =>
         let videos :=
           filter keep (mapi (fun j => normalize E w n j sourceKey sourceName)
                             items) in
         if negb (str_eqb category ALL)
         then Return (filter (matches_category category) videos)
         else Return videos
     end)
    (fun error => Return []).

Definition dedup_key (video : VideoResult) : jsstring :=
  toLowerCase E (title video) ++ lit "-" ++ year video ++ lit "-"
  ++ source video.

Definition uniqueVideos (allVideos : list VideoResult)
  : list VideoResult :=
  map_values (new_map (map (fun video => (dedup_key video, video))
                           allVideos)).

(** [results], what [Promise.allSettled] resolves to. *)
Definition results_of (apiSites : list ApiSite) (category : jsstring)
  : list (Settled (list VideoResult)) :=
  map (@settle _)
    (mapi (fun n site =>
             fetchCategoryVideosFromApi n (api site) (key site) (name site)
               category) apiSites).

(** The merge of the results into [allVideos]. *)
Definition merged_of (apiSites : list ApiSite) (category : jsstring)
  : Completion (list VideoResult) :=
  collect E [] (results_of apiSites category).

(** [shuffled] as a function of [allVideos]. *)
Definition shuffle (allVideos : list VideoResult) : list VideoResult :=
  fst (array_sort E (@random_compare w _) (uniqueVideos allVideos) 0%nat).

(** [GET]: [category] is [searchParams.get('category')], [limit] and
    [start] are the two [parseInt] results. *)
Definition GET (category : option jsstring) (limit start : number)
  : Envelope :=
  let handler :=
    let category := field_or category ALL in
    let pageLimit := limit in
    let pageStart := start in
    apiSites <- getAvailableApiSites w ;;
    if (length apiSites =? 0)%nat then
      Return {| code := 200; message := MSG_NO_SOURCE; list_ := [] |}
    else
      allVideos <- merged_of apiSites category ;;
      let shuffled := shuffle allVideos in
      let paginatedVideos :=
        slice shuffled pageStart (num_add pageStart pageLimit) in
      Return {| code := 200; message := MSG_OK;
                list_ := paginatedVideos |} in
  match handler with
  | Return r => r
  | Throw error =>
      {| code := 500; message := MSG_FAIL_CATEGORY ++ err_message error;
         list_ := [] |}
  end.

(** The arrays [allVideos] and [shuffled] of a request; they are empty
    when the merge throws, and [GET] with it. *)
Definition allVideos_of (apiSites : list ApiSite) (category : jsstring)
  : list VideoResult :=
  value_of (merged_of apiSites category).

Definition shuffled_of (apiSites : list ApiSite) (category : jsstring)
  : list VideoResult :=
  shuffle (allVideos_of apiSites category).
End Route.
End Category.

(** ** [src/app/api/source/hot/route.ts] *)

Module Hot.
Section Route.
Variable E : Env.
Variable w : World.

Definition fetchHotVideosFromApi (n : nat)
  (apiUrl sourceKey sourceName : jsstring)
  : Completion (list VideoResult) :=
  try_catch
    (let randomKeyword := random_keyword (keyword_draw w n) in
     items <- fetch_list E w n apiUrl randomKeyword ;;
     match items with
     | [] => Return []
     | _ :: _ =>
         Return (filter keep
                   (mapi (fun j => normalize E w n j sourceKey sourceName)
                         items))
     end)
    (fun error => Return []).

Definition dedup_key (video : VideoResult) : jsstring :=
  toLowerCase E (title video) ++ lit "-" ++ year video ++ lit "-"
  ++ class video.

Definition uniqueVideos (allVideos : list VideoResult)
  : list VideoResult :=
  map_values (new_map (map (fun video => (dedup_key video, video))
                           allVideos)).

(** [results], what [Promise.allSettled] resolves to for the first three
    sites. *)
Definition results_of (apiSites : list ApiSite)
  : list (Settled (list VideoResult)) :=
  map (@settle _)
    (mapi (fun n site =>
             fetchHotVideosFromApi n (api site) (key site) (name site))
          (firstn 3 apiSites)).

(** The merge of the results into [allVideos]. *)
Definition merged_of (apiSites : list ApiSite)
  : Completion (list VideoResult) :=
  collect E [] (results_of apiSites).

(** [shuffled] as a function of [allVideos]. *)
Definition shuffle (allVideos : list VideoResult) : list VideoResult :=
  fst (array_sort E (@random_compare w _) (uniqueVideos allVideos) 0%nat).

Definition GET (limit start : number) : Envelope :=
  let handler :=
    let pageLimit := limit in
    let pageStart := start in
    apiSites <- getAvailableApiSites w ;;
    if (length apiSites =? 0)%nat then
      Return {| code := 200; message := MSG_NO_SOURCE; list_ := [] |}
    else
      allVideos <- merged_of apiSites ;;
      let shuffled := shuffle allVideos in
      let paginatedVideos :=
        slice shuffled pageStart (num_add pageStart pageLimit) in
      Return {| code := 200; message := MSG_OK;
                list_ := paginatedVideos |} in
  match handler with
  | Return r => r
  | Throw error =>
      {| code := 500; message := MSG_FAIL_HOT ++ err_message error;
         list_ := [] |}
  end.

(** The arrays [allVideos] and [shuffled] of a request; they are empty
    when the merge throws, and [GET] with it. *)
Definition allVideos_of (apiSites : list ApiSite) : list VideoResult :=
  value_of (merged_of apiSites).

Definition shuffled_of (apiSites : list ApiSite) : list VideoResult :=
  shuffle (allVideos_of apiSites).
End Route.
End Hot.

(** ** The episode extractor, in the words of the specification

    The five steps of the specification's algorithm, written on their own:
    nothing here uses a function of the extractor of the routes. *)

Module EpisodeSpec.

(** The code units of an ASCII text. *)
Fixpoint text (s : string) : jsstring :=
  match s with
  | EmptyString => []
  | String a s' => N_of_ascii a :: text s'
  end.

(** [s] begins with [p]. *)
Fixpoint begins (p s : jsstring) : bool :=
  match p, s with
  | [], _ => true
  | x :: p', y :: s' => (x =? y)%N && begins p' s'
  | _ :: _, [] => false
  end.

(** Step 1: split the field on the delimiter into candidate groups.  A
    group is the text before the next delimiter, and the other groups are
    those of the text after it; [n] bounds the number of delimiters. *)
Definition delimiter : jsstring := text "$$$".

Fixpoint before_delimiter (s : jsstring) : jsstring :=
  if begins delimiter s then []
  else match s with
       | [] => []
       | c :: s' => c :: before_delimiter s'
       end.

Fixpoint after_delimiter (s : jsstring) : option jsstring :=
  if begins delimiter s then Some (skipn 3 s)
  else match s with
       | [] => None
       | _ :: s' => after_delimiter s'
       end.

Fixpoint groups_upto (n : nat) (s : jsstring) : list jsstring :=
  match after_delimiter s, n with
  | Some rest, S n' => before_delimiter s :: groups_upto n' rest
  | _, _ => [before_delimiter s]
  end.

Definition groups (field : jsstring) : list jsstring :=
  groups_upto (length field) field.

(** Step 2: the substrings of a group that match the pattern, a dollar
    sign followed by an http or https URL ending in [.m3u8], non-greedy
    and holding no quote and no space. *)
Definition quote_or_space (c : N) : bool :=
  existsb (fun range => (fst range <=? c) && (c <=? snd range))%N
    [(34, 34); (39, 39); (9, 13); (32, 32); (160, 160); (5760, 5760);
     (8192, 8202); (8232, 8232); (8233, 8233); (8239, 8239); (8287, 8287);
     (12288, 12288); (65279, 65279)]%N.

(** The rest of a URL after its scheme: the shortest run of one or more
    units that are no quote and no space and that [.m3u8] follows, and
    that ending. *)
Fixpoint url_rest (s : jsstring) : option jsstring :=
  match s with
  | [] => None
  | c :: s' =>
      if quote_or_space c then None
      else if begins (text ".m3u8") s' then Some (c :: text ".m3u8")
      else option_map (cons c) (url_rest s')
  end.

(** The match that [s] begins with, if any. *)
Definition url_match (s : jsstring) : option jsstring :=
  if begins (text "$https://") s then
    option_map (app (text "$https://")) (url_rest (skipn 9 s))
  else if begins (text "$http://") s then
    option_map (app (text "$http://")) (url_rest (skipn 8 s))
  else None.

(** All the matches, from the left, the search going on after each
    match; [n] bounds the number of places to look at. *)
Fixpoint matches_upto (n : nat) (s : jsstring) : list jsstring :=
  match n, s with
  | S n', _ :: s' =>
      match url_match s with
      | Some m => m :: matches_upto n' (skipn (length m) s)
      | None => matches_upto n' s'
      end
  | _, _ => []
  end.

Definition matches (group : jsstring) : list jsstring :=
  matches_upto (length group) group.

(** Step 3: the group with the largest number of matches, the first such
    group when several have that number; the other groups are left out. *)
Definition most (groups : list jsstring) : nat :=
  list_max (map (fun g => length (matches g)) groups).

Definition canonical (groups : list jsstring) : list jsstring :=
  match find (fun g => (length (matches g) =? most groups)%nat) groups with
  | Some g => matches g
  | None => []
  end.

(** Step 4: every URL once, in first-seen order. *)
Fixpoint first_seen (seen l : list jsstring) : list jsstring :=
  match l with
  | [] => []
  | x :: l' =>
      if in_dec (list_eq_dec N.eq_dec) x seen then first_seen seen l'
      else x :: first_seen (x :: seen) l'
  end.

(** Step 5: strip the leading dollar sign, then truncate at an opening
    parenthesis at a position above 0. *)
Fixpoint before_paren (s : jsstring) : jsstring :=
  match s with
  | [] => []
  | c :: s' => if (c =? 40)%N then [] else c :: before_paren s'
  end.

Definition canonical_url (link : jsstring) : jsstring :=
  match tl link with
  | [] => []
  | c :: u => c :: before_paren u
  end.

Definition EpisodeExtractor (field : jsstring) : list jsstring :=
  map canonical_url (first_seen [] (canonical (groups field))).

End EpisodeSpec.

(** ** The group the extractor of the routes keeps *)

Definition count_matches (group : jsstring) : nat :=
  length (match_all group).

Definition largest_count (groups : list jsstring) : nat :=
  list_max (map count_matches groups).

Definition canonical_group (groups : list jsstring) : list jsstring :=
  match find (fun g => (count_matches g =? largest_count groups)%nat)
             groups with
  | Some g => match_all g
  | None => []
  end.

Fixpoint dedup_first (l : list jsstring) : list jsstring :=
  match l with
  | [] => []
  | x :: l' => x :: filter (fun y => negb (str_eqb x y)) (dedup_first l')
  end.

(** The matches of the first group with [n] matches. *)
Definition first_with (n : nat) (groups : list jsstring) : list jsstring :=
  match find (fun g => (count_matches g =? n)%nat) groups with
  | Some g => match_all g
  | None => []
  end.

(** A record that a source returns is the normalisation of one of its raw
    items, and that item has a poster. *)
Definition emitted (E : Env) (w : World) (v : VideoResult) : Prop :=
  exists n j sourceKey sourceName item,
    v = normalize E w n j sourceKey sourceName item
    /\ truthy (field_or (vod_pic item) []) = true.

(** The delimiter of the playback groups. *)
Definition DELIMITER : jsstring := [36; 36; 36]%N.

(** [s] holds no occurrence of the delimiter. *)
Definition no_delimiter (s : jsstring) : Prop :=
  forall pre post, s <> pre ++ DELIMITER ++ post.

(** The re-encoding of an output: every URL prefixed with a dollar sign,
    the results joined with the delimiter. *)
Fixpoint join3 (l : list jsstring) : jsstring :=
  match l with
  | [] => []
  | [x] => x
  | x :: l' => x ++ lit "$$$" ++ join3 l'
  end.

Definition reencode (urls : list jsstring) : jsstring :=
  join3 (map (fun u => lit "$" ++ u) urls).

(** The texts the extractor keeps before it cleans them: the matches of
    the chosen group, each once. *)
Definition selected (field : jsstring) : list jsstring :=
  array_from_set (fold_left pick_longer (split3 field) []).

(** ** Pagination, in the words of the specification: the indices [i] with
    [start <= i < start + limit] that lie within the sequence. *)
Definition clipped_slice (A : Type) (l : list A) (start limit : Z)
  : list A :=
  let lo := Z.max start 0 in
  let hi := Z.min (start + limit) (Z.of_nat (length l)) in
  firstn (Z.to_nat (hi - lo)) (skipn (Z.to_nat lo) l).

(** First-seen deduplication by a key, in the words of the specification:
    a record is kept when no earlier record has its key. *)
Fixpoint keep_first_seen (A : Type) (key_of : A -> jsstring)
  (seen : list jsstring) (l : list A) : list A :=
  match l with
  | [] => []
  | x :: l' =>
      if str_mem (key_of x) seen then keep_first_seen key_of seen l'
      else x :: keep_first_seen key_of (key_of x :: seen) l'
  end.

(** The year, in the words of the specification: [d] is a run of four
    digits of [raw] after [pre], and the first such run. *)
Definition four_digits_at (raw pre d : jsstring) : Prop :=
  exists post, raw = pre ++ d ++ post /\ length d = 4%nat
               /\ forallb is_digit d = true.

Definition first_four_digits (raw d : jsstring) : Prop :=
  exists pre, four_digits_at raw pre d
              /\ forall pre' d', four_digits_at raw pre' d' ->
                                 (length pre <= length pre')%nat.

Definition no_four_digits (raw : jsstring) : Prop :=
  forall pre d, ~ four_digits_at raw pre d.

(** ** Failing sources *)

(** What the search request of the [n]-th site meets. *)
Definition search_event (E : Env) (w : World) (n : nat)
  (apiUrl keyword : jsstring) : FetchEvent :=
  fetch w n (searchUrl E apiUrl keyword)
        (fetchOptions {| headers := Some (search_headers E) |}).

(** A source fails on a time-out, a network error, a status outside
    200..299, a body that is not JSON, or a JSON value without a list. *)
Definition failed (event : FetchEvent) : bool :=
  match event with
  | NetworkFailure _ => true
  | TimedOut _ => true
  | Responded r =>
      negb (ok r) ||
      match json r with
      | Return (ListOf _) => false
      | _ => true
      end
  end.

(** The sites with their position in the configured list. *)
Definition indexed (A : Type) (l : list A) : list (nat * A) :=
  combine (seq 0 (length l)) l.

(** ** Sample requests

    Concrete environments and worlds on which the routes are run below.
    The sample worlds answer a call of [fetch] by its number alone. *)

(** [toLowerCase] on strings of ASCII code units. *)
Definition ascii_lower (s : jsstring) : jsstring :=
  map (fun c => if ((65 <=? c) && (c <=? 90))%N then (c + 32)%N else c) s.

(** The sort of the sample engine, which is how V8 sorts an array of
    fewer than 64 elements: it finds the run the array starts with,
    reverses it when it descends, and puts the other elements into it one
    by one, each at the place a binary search gives. *)
Definition negative (order : Q) : bool :=
  match Qcompare order 0 with Lt => true | _ => false end.

(** How many elements of [l] continue the run that [previous] ends. *)
Fixpoint run_length (A : Type) (comparefn : A -> A -> Rand Q)
  (descending : bool) (previous : A) (l : list A) : Rand nat :=
  match l with
  | [] => rand_ret 0%nat
  | current :: l' =>
      rand_bind (comparefn current previous) (fun order =>
        if Bool.eqb (negative order) descending
        then rand_bind (run_length comparefn descending current l')
               (fun n => rand_ret (S n))
        else rand_ret 0%nat)
  end.

(** The first run, in ascending order, and the elements after it. *)
Definition count_and_make_run (A : Type) (comparefn : A -> A -> Rand Q)
  (l : list A) : Rand (list A * list A) :=
  match l with
  | first :: second :: l' =>
      rand_bind (comparefn second first) (fun order =>
        let descending := negative order in
        rand_bind (run_length comparefn descending second l') (fun n =>
          let run := first :: second :: firstn n l' in
          rand_ret (if descending then rev run else run, skipn n l')))
  | _ => rand_ret (l, [])
  end.

(** The place of [pivot] in [sorted] between [left] and [right]; the gap
    shrinks at every step, so that [fuel] above the length is never used
    up. *)
Fixpoint binary_search (A : Type) (fuel : nat)
  (comparefn : A -> A -> Rand Q) (pivot : A) (sorted : list A)
  (left right : nat) : Rand nat :=
  match fuel with
  | O => rand_ret left
  | S fuel' =>
      if (left <? right)%nat then
        let mid := (left + (right - left) / 2)%nat in
        rand_bind (comparefn pivot (nth mid sorted pivot)) (fun order =>
          if negative order
          then binary_search fuel' comparefn pivot sorted left mid
          else binary_search fuel' comparefn pivot sorted (S mid) right)
      else rand_ret left
  end.

Fixpoint binary_insertion (A : Type) (comparefn : A -> A -> Rand Q)
  (sorted rest : list A) : Rand (list A) :=
  match rest with
  | [] => rand_ret sorted
  | pivot :: rest' =>
      rand_bind (binary_search (S (length sorted)) comparefn pivot sorted
                               0 (length sorted)) (fun left =>
        binary_insertion comparefn
          (firstn left sorted ++ pivot :: skipn left sorted) rest')
  end.

Definition short_array_sort (A : Type) (comparefn : A -> A -> Rand Q)
  (l : list A) : Rand (list A) :=
  rand_bind (count_and_make_run comparefn l) (fun runs =>
    binary_insertion comparefn (fst runs) (snd runs)).

(** The sample environment: lower case for ASCII, no escaping, the sort
    above, which moves the elements and so keeps the law of [array_sort],
    and a limit of 120000 arguments with the error V8 raises. *)
Program Definition sampleEnv : Env :=
  {| toLowerCase := ascii_lower;
     encodeURIComponent := fun s => s;
     cleanHtmlTags := fun s => s;
     search_path := lit "?ac=videolist&wd=";
     search_headers := [(lit "Accept", lit "application/json")];
     array_sort := short_array_sort;
     array_sort_permutes := _;
     spread_limit := 120 * 1000;
     spread_error :=
       {| err_name := lit "RangeError";
          err_message := lit "Maximum call stack size exceeded" |} |}.
Next Obligation.
  assert (Hinsert : forall (rest sorted : list A) (k0 : nat),
            Permutation (sorted ++ rest)
              (fst (binary_insertion comparefn sorted rest k0))).
  { induction rest as [|pivot rest IH]; intros sorted k0.
    - simpl. rewrite app_nil_r. apply Permutation_refl.
    - cbn [binary_insertion]. unfold rand_bind at 1.
      destruct (binary_search (S (length sorted)) comparefn pivot sorted 0
                              (length sorted) k0) as [left k1].
      eapply Permutation_trans; [|apply IH].
      rewrite <- (firstn_skipn left sorted) at 1.
      rewrite <- !app_assoc. apply Permutation_app_head.
      apply Permutation_sym, Permutation_middle. }
  unfold short_array_sort, rand_bind.
  assert (H : Permutation l (fst (fst (count_and_make_run comparefn l k))
                             ++ snd (fst (count_and_make_run comparefn l k)))).
  { destruct l as [|first [|second l]];
      try (simpl; rewrite ?app_nil_r; apply Permutation_refl).
    simpl. unfold rand_bind.
    destruct (comparefn second first k) as [order k1].
    destruct (run_length comparefn (negative order) second l k1) as [n k2].
    cbn [fst snd rand_ret].
    rewrite <- (firstn_skipn n l) at 1.
    change (first :: second :: firstn n l ++ skipn n l)
      with ((first :: second :: firstn n l) ++ skipn n l).
    apply Permutation_app_tail.
    destruct (negative order);
      [apply Permutation_rev | apply Permutation_refl]. }
  destruct (count_and_make_run comparefn l k) as [runs k1].
  eapply Permutation_trans; [exact H|]. apply Hinsert.
Qed.

Definition site1 : ApiSite :=
  {| key := lit "s1"; api := lit "https://s1.example/api.php";
     name := lit "S1" |}.
Definition site2 : ApiSite :=
  {| key := lit "s2"; api := lit "https://s2.example/api.php";
     name := lit "S2" |}.
Definition site3 : ApiSite :=
  {| key := lit "s3"; api := lit "https://s3.example/api.php";
     name := lit "S3" |}.

(** A world whose draws make the comparison function answer [-0.25] every
    time; its keyword draw is 0. *)
Definition sampleWorld (sites : Completion (list ApiSite))
  (events : nat -> FetchEvent) : World :=
  {| getAvailableApiSites := sites;
     fetch := fun n _ _ => events n;
     keyword_draw := fun _ => 0;
     id_token := fun _ _ => lit "k3j9x0q2z";
     shuffle_draw := fun _ => 3 # 4 |}.

Definition answer (items : list ApiSearchItem) : FetchEvent :=
  Responded {| status := 200; json := Return (ListOf items) |}.

Definition sample_item (i : Z) (nm pic yr : option string) : ApiSearchItem :=
  {| vod_id := Some (IdNumber (number_to_string i));
     vod_name := option_map lit nm;
     vod_pic := option_map lit pic;
     vod_play_url := None;
     vod_class := None;
     vod_year := option_map lit yr;
     vod_content := None;
     item_type_name := None |}.

Definition sample_video (i nm pic yr src srcname : jsstring) : VideoResult :=
  {| id := i; title := nm; poster := pic; episodes := [];
     source := src; source_name := srcname; class := []; year := yr;
     desc := []; type_name := [] |}.

Definition abort_error : Error :=
  {| err_name := lit "AbortError";
     err_message := lit "This operation was aborted" |}.

(** One site, one item without a title. *)
Definition item_untitled : ApiSearchItem :=
  sample_item 7 None (Some "p.jpg"%string) None.
Definition world_untitled : World :=
  sampleWorld (Return [site1]) (fun _ => answer [item_untitled]).

(** One site that lists the same title and year twice. *)
Definition world_repeat : World :=
  sampleWorld (Return [site1])
    (fun _ => answer [sample_item 1 (Some "Dune"%string) (Some "a.jpg"%string)
                                  (Some "2021"%string);
                      sample_item 2 (Some "Dune"%string) (Some "b.jpg"%string)
                                  (Some "2021"%string)]).

(** One site with three titles. *)
Definition world_three : World :=
  sampleWorld (Return [site1])
    (fun _ => answer [sample_item 1 (Some "A"%string) (Some "a.jpg"%string)
                                  (Some "2001"%string);
                      sample_item 2 (Some "B"%string) (Some "b.jpg"%string)
                                  (Some "2002"%string);
                      sample_item 3 (Some "C"%string) (Some "c.jpg"%string)
                                  (Some "2003"%string)]).

(** Two sites: the first answers with a list of 150000 titles, the second
    with one title. *)
Definition world_long : World :=
  sampleWorld (Return [site1; site2])
    (fun n =>
       match n with
       | 0%nat => answer (repeat (sample_item 1 (Some "A"%string)
                                              (Some "a.jpg"%string)
                                              (Some "2001"%string))
                                 (150 * 1000))
       | _ => answer [sample_item 2 (Some "B"%string) (Some "b.jpg"%string)
                                  (Some "2002"%string)]
       end).

(** An item whose year field holds no four digits. *)
Definition item_no_year : ApiSearchItem :=
  sample_item 9 (Some "Solaris"%string) (Some "s.jpg"%string)
              (Some "n/a"%string).

(** A world whose only request runs into the timer. *)
Definition world_timeout : World :=
  sampleWorld (Return [site1]) (fun _ => TimedOut abort_error).

(** Three sites: the first runs into the timer, the second answers 503,
    the third answers with one title. *)
Definition world_partial : World :=
  sampleWorld (Return [site1; site2; site3])
    (fun n =>
       match n with
       | 0%nat => TimedOut abort_error
       | 1%nat => Responded {| status := 503; json := Return NoList |}
       | _ => answer [sample_item 5 (Some "Stalker"%string)
                                  (Some "k.jpg"%string) (Some "1979"%string)]
       end).

(** ** Reading the answers *)

(** [p] occurs in [s]. *)
Definition substring_of (p s : jsstring) : Prop :=
  exists pre post, s = pre ++ p ++ post.

(** [h[k]] on a header object given by its entries in order. *)
Fixpoint header_get (h : Headers) (k : jsstring) : option jsstring :=
  match h with
  | [] => None
  | (k', v) :: h' => if str_eqb k k' then Some v else header_get h' k
  end.

(** The property [k] of the object a list of entries builds: a later entry
    of the same key replaces an earlier one. *)
Definition entries_get (entries : Headers) (k : jsstring)
  : option jsstring :=
  header_get (rev entries) k.

(** One site whose two records carry the category in their title. *)
Definition category_dune : option jsstring := Some (lit "dune").

(** ** Titles in normal form *)

(** Every white-space code unit of [s] is a plain space with a code unit
    that is no white space after it. *)
Fixpoint spaces_inside (s : jsstring) : bool :=
  match s with
  | [] => true
  | c :: s' =>
      (if is_space c
       then (c =? 32)%N
            && match s' with d :: _ => negb (is_space d) | [] => false end
       else true)
      && spaces_inside s'
  end.

(** [s] does not start with white space, and its white space is single
    plain spaces inside it. *)
Definition title_normal (s : jsstring) : bool :=
  match s with c :: _ => negb (is_space c) | [] => true end
  && spaces_inside s.

(** [s] does not end with white space. *)
Fixpoint no_trailing (s : jsstring) : bool :=
  match s with
  | [] => true
  | c :: s' =>
      match s' with
      | [] => negb (is_space c)
      | _ :: _ => no_trailing s'
      end
  end.

(** ** [parseInt] and the query parameters *)

(** The value of a code unit as a digit: [0-9], [a-z], [A-Z]. *)
Definition digit_value (c : N) : option Z :=
  if ((48 <=? c) && (c <=? 57))%N then Some (Z.of_N c - 48)%Z
  else if ((97 <=? c) && (c <=? 122))%N then Some (Z.of_N c - 87)%Z
  else if ((65 <=? c) && (c <=? 90))%N then Some (Z.of_N c - 55)%Z
  else None.

Definition radix_digit (radix : Z) (c : N) : option Z :=
  match digit_value c with
  | Some v => if (v <? radix)%Z then Some v else None
  | None => None
  end.

(** The longest prefix of digits of the radix, as a number; [None] when
    [s] starts with no digit and [acc] is [None]. *)
Fixpoint parse_digits (radix : Z) (acc : option Z) (s : jsstring)
  : option Z :=
  match s with
  | [] => acc
  | c :: s' =>
      match radix_digit radix c with
      | Some d =>
          parse_digits radix
            (Some (match acc with
                   | Some a => a * radix + d
                   | None => d
                   end)%Z) s'
      | None => acc
      end
  end.

Definition strip_sign (s : jsstring) : Z * jsstring :=
  match s with
  | c :: r =>
      if (c =? 45)%N then ((-1)%Z, r)
      else if (c =? 43)%N then (1%Z, r)
      else (1%Z, s)
  | [] => (1%Z, s)
  end.

Definition strip_hex_prefix (s : jsstring) : Z * jsstring :=
  match s with
  | c :: x :: r =>
      if (c =? 48)%N && ((x =? 120)%N || (x =? 88)%N) then (16%Z, r)
      else (10%Z, s)
  | _ => (10%Z, s)
  end.

(** [parseInt(s)] without a radix: white space is skipped, then a sign,
    then after [0x] or [0X] hexadecimal and otherwise decimal digits are
    read as far as they go; [NaN] when there is none, and otherwise the
    Number for the integer that was read. *)
Definition parseInt (s : jsstring) : number :=
  let (sign, s1) := strip_sign (trim_start s) in
  let (radix, s2) := strip_hex_prefix s1 in
  match parse_digits radix None s2 with
  | Some v => number_of_integer (sign * v)
  | None => NaN
  end.

(** The first lines of [GET] in the category route: the three query
    parameters as [searchParams.get] returns them, [None] for [null]. *)
Definition category_request (E : Env) (w : World)
  (category limit start : option jsstring) : Envelope :=
  Category.GET E w category
    (parseInt (field_or limit (lit "25")))
    (parseInt (field_or start (lit "0"))).

(** The first lines of [GET] in the hot route. *)
Definition hot_request (E : Env) (w : World)
  (limit start : option jsstring) : Envelope :=
  Hot.GET E w
    (parseInt (field_or limit (lit "20")))
    (parseInt (field_or start (lit "0"))).

(** ** [src/app/source/page.tsx] *)

(** What the page's call of [fetch] meets: it rejects, or a response
    arrives whose body parses, or does not, as the envelope of the
    routes. *)
Record ClientResponse := {
  client_status : Z;
  client_json : Completion Envelope
}.

Inductive ClientEvent :=
| ClientFailure (e : Error)
| ClientAnswer (r : ClientResponse).

Definition client_ok (r : ClientResponse) : bool :=
  ((200 <=? client_status r) && (client_status r <=? 299))%Z.

Definition MSG_FETCH_FAILED : jsstring :=
  [0x83b7; 0x53d6; 0x5931; 0x8d25]%N.
Definition MSG_REQUEST_FAILED : jsstring :=
  [0x41; 0x50; 0x49; 0x8bf7; 0x6c42; 0x5931; 0x8d25; 0x3a; 0x20]%N.

(** The envelope [fetchSourceVideos] returns from its [catch]. *)
Definition FALLBACK : Envelope :=
  {| code := 500; message := MSG_FETCH_FAILED; list_ := [] |}.

Section Page.
Variable E : Env.
(** The answer of the network to a request, by its URL. *)
Variable net : jsstring -> ClientEvent.

Definition source_url (category : jsstring) (pageStart pageLimit : Z)
  : jsstring :=
  lit "/api/source/category?category=" ++ encodeURIComponent E category
  ++ lit "&start=" ++ number_to_string pageStart
  ++ lit "&limit=" ++ number_to_string pageLimit.

(** [fetchSourceVideos]; an argument that is not given is [None]. *)
Definition fetchSourceVideos (category : option jsstring)
  (pageStart pageLimit : option Z) : Completion Envelope :=
  let category := match category with Some c => c | None => ALL end in
  let pageStart := match pageStart with Some n => n | None => 0%Z end in
  let pageLimit := match pageLimit with Some n => n | None => 25%Z end in
  try_catch
    (response <- match net (source_url category pageStart pageLimit) with
                 | ClientFailure e => Throw e
                 | ClientAnswer r => Return r
                 end ;;
     if negb (client_ok response) then
       Throw {| err_name := lit "Error";
                err_message := MSG_REQUEST_FAILED
                               ++ number_to_string (client_status response) |}
     else
       data <- client_json response ;;
       Return data)
    (fun error => Return FALLBACK).

(** The state of [SourcePageClient] that the loading of videos reads and
    writes. *)
Record PageState := {
  videos : list VideoResult;
  loading : bool;
  currentPage : Z;
  hasMore : bool;
  isLoadingMore : bool;
  categorySelection : jsstring
}.

(** The body of [fetchMoreData], from [setIsLoadingMore(true)] to the
    [finally]: the answer is appended when its code is 200, and the state
    of the list is left alone otherwise. *)
Definition fetchMoreData (st : PageState) : PageState :=
  match fetchSourceVideos (Some (categorySelection st))
                          (Some (currentPage st * 25)%Z) None with
  | Return data =>
      if (code data =? 200)%Z then
        {| videos := videos st ++ list_ data;
           loading := loading st;
           currentPage := currentPage st;
           hasMore := (length (list_ data) =? 25)%nat;
           isLoadingMore := false;
           categorySelection := categorySelection st |}
      else
        {| videos := videos st; loading := loading st;
           currentPage := currentPage st; hasMore := hasMore st;
           isLoadingMore := false;
           categorySelection := categorySelection st |}
  | Throw _ =>
      {| videos := videos st; loading := loading st;
         currentPage := currentPage st; hasMore := hasMore st;
         isLoadingMore := false;
         categorySelection := categorySelection st |}
  end.

(** The effect on [currentPage]: it loads more when the page is past the
    first. *)
Definition page_effect (st : PageState) : PageState :=
  if (currentPage st >? 0)%Z then fetchMoreData st else st.

(** The body of [loadInitialData]. *)
Definition loadInitialData (st : PageState) : PageState :=
  match fetchSourceVideos (Some (categorySelection st)) (Some 0%Z) None with
  | Return data =>
      if (code data =? 200)%Z then
        {| videos := list_ data; loading := false;
           currentPage := currentPage st;
           hasMore := (length (list_ data) =? 25)%nat;
           isLoadingMore := isLoadingMore st;
           categorySelection := categorySelection st |}
      else
        {| videos := videos st; loading := false;
           currentPage := currentPage st; hasMore := hasMore st;
           isLoadingMore := isLoadingMore st;
           categorySelection := categorySelection st |}
  | Throw _ =>
      {| videos := videos st; loading := false;
         currentPage := currentPage st; hasMore := hasMore st;
         isLoadingMore := isLoadingMore st;
         categorySelection := categorySelection st |}
  end.

(** The observer is set up when there is more to load and nothing is
    being loaded. *)
Definition observing (st : PageState) : bool :=
  hasMore st && negb (isLoadingMore st) && negb (loading st).

(** The callback of the observer. *)
Definition on_intersect (isIntersecting : bool) (st : PageState)
  : PageState :=
  if isIntersecting && hasMore st && negb (isLoadingMore st) then
    {| videos := videos st; loading := loading st;
       currentPage := (currentPage st + 1)%Z; hasMore := hasMore st;
       isLoadingMore := isLoadingMore st;
       categorySelection := categorySelection st |}
  else st.

(** The reader reaches the end of the list: when the observer is set up
    its callback runs, and the effect on the new page loads more. *)
Definition scroll_to_end (st : PageState) : PageState :=
  if observing st then page_effect (on_intersect true st) else st.

Fixpoint scroll_times (k : nat) (st : PageState) : PageState :=
  match k with
  | O => st
  | S k' => scroll_times k' (scroll_to_end st)
  end.

(** [handleCategoryChange] *)
Definition handleCategoryChange (value : jsstring) (st : PageState)
  : PageState :=
  if negb (str_eqb value (categorySelection st)) then
    {| videos := videos st; loading := true;
       currentPage := currentPage st; hasMore := hasMore st;
       isLoadingMore := isLoadingMore st; categorySelection := value |}
  else st.

(** The effect on the category once the selectors are ready: the list is
    emptied and the page goes back to the first, then, when the debounce
    timer fires, the first page is loaded. *)
Definition category_effect (st : PageState) : PageState :=
  loadInitialData
    {| videos := []; loading := loading st; currentPage := 0%Z;
       hasMore := true; isLoadingMore := false;
       categorySelection := categorySelection st |}.
End Page.

(** A full page of 25 records, and a network that answers every request
    with it. *)
Definition full_page : list VideoResult :=
  map (fun i => sample_video (number_to_string (Z.of_nat i)) (lit "T")
                             (lit "p.jpg") (lit "2020") (lit "s1")
                             (lit "S1"))
      (seq 0 25).
Definition net_full (url : jsstring) : ClientEvent :=
  ClientAnswer {| client_status := 200;
                  client_json := Return {| code := 200; message := MSG_OK;
                                           list_ := full_page |} |}.
(** A network whose server answers 502. *)
Definition net_down (url : jsstring) : ClientEvent :=
  ClientAnswer {| client_status := 502;
                  client_json := Throw abort_error |}.
Definition page_after_first : PageState :=
  {| videos := full_page; loading := false; currentPage := 0;
     hasMore := true; isLoadingMore := false; categorySelection := ALL |}.

(** * Properties *)

(** ** Strings, sets and maps *)

Lemma str_eqb_eq (a b : jsstring) : str_eqb a b = true <-> a = b.
Proof.
  revert b. induction a as [|x a IH]; intros [|y b]; simpl;
    try (split; [discriminate | congruence]); try tauto.
  rewrite andb_true_iff, N.eqb_eq, IH. split.
  - intros [-> ->]. reflexivity.
  - intros H. injection H as -> ->. auto.
Qed.

Lemma str_eqb_refl (a : jsstring) : str_eqb a a = true.
Proof. apply str_eqb_eq. reflexivity. Qed.

Lemma str_eqb_neq (a b : jsstring) : str_eqb a b = false <-> a <> b.
Proof.
  rewrite <- str_eqb_eq. destruct (str_eqb a b); split; congruence.
Qed.

Lemma str_mem_In (x : jsstring) (l : list jsstring) :
  str_mem x l = true <-> In x l.
Proof.
  induction l as [|y l IH]; simpl.
  - split; [discriminate | tauto].
  - rewrite orb_true_iff, str_eqb_eq, IH. split; intros [H|H]; auto.
Qed.

Lemma str_mem_not_In (x : jsstring) (l : list jsstring) :
  str_mem x l = false <-> ~ In x l.
Proof.
  rewrite <- str_mem_In. destruct (str_mem x l); split; congruence.
Qed.

Lemma str_mem_app (x : jsstring) (l1 l2 : list jsstring) :
  str_mem x (l1 ++ l2) = str_mem x l1 || str_mem x l2.
Proof.
  induction l1 as [|y l1 IH]; simpl; [reflexivity|].
  rewrite IH, orb_assoc. reflexivity.
Qed.

(** The keys of a map after [set] are the set of keys after [add]. *)
Lemma map_set_keys (V : Type) (m : list (jsstring * V)) k v :
  map fst (map_set m k v) = set_add (map fst m) k.
Proof.
  unfold set_add. induction m as [|[k' v'] m IH]; simpl; [reflexivity|].
  destruct (str_eqb k k') eqn:Ek; simpl; [reflexivity|].
  rewrite IH. destruct (str_mem k (map fst m)); reflexivity.
Qed.

Lemma new_map_keys_from (V : Type) (es m : list (jsstring * V)) :
  map fst (fold_left (fun m kv => map_set m (fst kv) (snd kv)) es m)
  = fold_left set_add (map fst es) (map fst m).
Proof.
  revert m. induction es as [|[k v] es IH]; intros m; simpl; [reflexivity|].
  rewrite IH, map_set_keys. reflexivity.
Qed.

Lemma new_map_keys (V : Type) (es : list (jsstring * V)) :
  map fst (new_map es) = array_from_set (map fst es).
Proof. apply new_map_keys_from. Qed.

Lemma new_map_snoc (V : Type) (es : list (jsstring * V)) k v :
  new_map (es ++ [(k, v)]) = map_set (new_map es) k v.
Proof. unfold new_map. rewrite fold_left_app. reflexivity. Qed.

Lemma str_eqb_sym (a b : jsstring) : str_eqb a b = str_eqb b a.
Proof.
  destruct (str_eqb b a) eqn:E.
  - apply str_eqb_eq in E. subst. apply str_eqb_refl.
  - apply str_eqb_neq. apply str_eqb_neq in E. congruence.
Qed.

Lemma filter_seen_drop (x : jsstring) (acc d : list jsstring) :
  str_mem x acc = true ->
  filter (fun y => negb (str_mem y acc))
         (filter (fun y => negb (str_eqb x y)) d)
  = filter (fun y => negb (str_mem y acc)) d.
Proof.
  intros Hx. induction d as [|y d IHd]; simpl; [reflexivity|].
  destruct (str_eqb x y) eqn:Exy; simpl.
  - apply str_eqb_eq in Exy. subst y. rewrite Hx. simpl. exact IHd.
  - destruct (str_mem y acc); simpl; rewrite IHd; reflexivity.
Qed.

Lemma filter_seen_snoc (x : jsstring) (acc d : list jsstring) :
  filter (fun y => negb (str_mem y (acc ++ [x]))) d
  = filter (fun y => negb (str_mem y acc))
           (filter (fun y => negb (str_eqb x y)) d).
Proof.
  induction d as [|y d IHd]; simpl; [reflexivity|].
  rewrite str_mem_app. simpl. rewrite orb_false_r, negb_orb.
  rewrite (str_eqb_sym y x).
  destruct (str_eqb x y); simpl.
  - rewrite andb_false_r. exact IHd.
  - rewrite andb_true_r. destruct (str_mem y acc); simpl;
      rewrite IHd; reflexivity.
Qed.

(** [Array.from(new Set(l))] keeps the first occurrence of each string. *)
Lemma set_add_fold (l acc : list jsstring) :
  fold_left set_add l acc
  = acc ++ filter (fun y => negb (str_mem y acc)) (dedup_first l).
Proof.
  revert acc. induction l as [|x l IH]; intros acc; simpl.
  - rewrite app_nil_r. reflexivity.
  - rewrite IH. unfold set_add. destruct (str_mem x acc) eqn:Hx; simpl.
    + rewrite filter_seen_drop by exact Hx. reflexivity.
    + rewrite <- app_assoc, filter_seen_snoc. reflexivity.
Qed.

Lemma array_from_set_dedup (l : list jsstring) :
  array_from_set l = dedup_first l.
Proof.
  unfold array_from_set. rewrite set_add_fold. simpl.
  induction (dedup_first l) as [|y d IH]; simpl; congruence.
Qed.

Lemma dedup_first_In (x : jsstring) (l : list jsstring) :
  In x (dedup_first l) <-> In x l.
Proof.
  induction l as [|y l IH]; simpl; [tauto|].
  rewrite filter_In, IH, negb_true_iff, str_eqb_neq.
  destruct (list_eq_dec N.eq_dec y x); intuition congruence.
Qed.

Lemma dedup_first_NoDup (l : list jsstring) : NoDup (dedup_first l).
Proof.
  induction l as [|x l IH]; simpl; constructor.
  - rewrite filter_In, str_eqb_refl. simpl. intros [_ H]. discriminate.
  - apply NoDup_filter. exact IH.
Qed.

(** Every binding of [new Map(entries)] is the last one of its key among
    the entries. *)
Lemma map_set_In (V : Type) (m : list (jsstring * V)) k v k' v' :
  NoDup (map fst m) ->
  In (k', v') (map_set m k v) ->
  (k' = k /\ v' = v) \/ (k' <> k /\ In (k', v') m).
Proof.
  induction m as [|[k0 v0] m IH]; simpl; intros Hnd Hin.
  - destruct Hin as [H|[]]. injection H as <- <-. auto.
  - inversion_clear Hnd as [|? ? Hk0 Hnd'].
    destruct (str_eqb k k0) eqn:Ek.
    + apply str_eqb_eq in Ek. subst k0.
      destruct Hin as [H|H].
      * injection H as <- <-. auto.
      * right. split; [|auto]. intros ->. apply Hk0.
        apply in_map_iff. exists (k, v'). auto.
    + apply str_eqb_neq in Ek. destruct Hin as [H|H].
      * injection H as <- <-. right. split; auto.
      * destruct (IH Hnd' H) as [?|[? ?]]; auto.
Qed.

Lemma new_map_NoDup (V : Type) (es : list (jsstring * V)) :
  NoDup (map fst (new_map es)).
Proof.
  rewrite new_map_keys, array_from_set_dedup. apply dedup_first_NoDup.
Qed.

Lemma new_map_last (V : Type) (es : list (jsstring * V)) k v :
  In (k, v) (new_map es) ->
  exists l1 l2, es = l1 ++ (k, v) :: l2 /\ ~ In k (map fst l2).
Proof.
  revert k v. induction es as [|[k0 v0] es IH] using rev_ind; intros k v Hin.
  - destruct Hin.
  - rewrite new_map_snoc in Hin.
    apply map_set_In in Hin; [|apply new_map_NoDup].
    destruct Hin as [[-> ->]|[Hne Hin]].
    + exists es, []. split; [reflexivity | simpl; tauto].
    + destruct (IH _ _ Hin) as (l1 & l2 & -> & Hl2).
      exists l1, (l2 ++ [(k0, v0)]). split.
      * rewrite <- app_assoc. reflexivity.
      * rewrite map_app, in_app_iff. simpl. intuition congruence.
Qed.

(** Deduplication by a key function, as both routes do it. *)
Section Dedup.
Variable key_of : VideoResult -> jsstring.

Local Abbreviation unique_by l :=
  (map_values (new_map (map (fun video => (key_of video, video)) l))).

Lemma unique_by_keys (l : list VideoResult) :
  map key_of (unique_by l) = dedup_first (map key_of l).
Proof.
  unfold map_values.
  set (es := map (fun video => (key_of video, video)) l).
  assert (Hk : map key_of (map snd (new_map es)) = map fst (new_map es)).
  { rewrite map_map. apply map_ext_in. intros [k v] Hin.
    destruct (new_map_last _ _ _ Hin) as (l1 & l2 & Hes & _).
    assert (Hi : In (k, v) es) by (rewrite Hes; apply in_elt).
    apply in_map_iff in Hi. destruct Hi as (v1 & H1 & _).
    injection H1 as <- <-. reflexivity. }
  rewrite Hk, new_map_keys, array_from_set_dedup. unfold es.
  rewrite map_map. reflexivity.
Qed.

Lemma unique_by_NoDup (l : list VideoResult) :
  NoDup (map key_of (unique_by l)).
Proof. rewrite unique_by_keys. apply dedup_first_NoDup. Qed.

Lemma unique_by_last (l : list VideoResult) (v : VideoResult) :
  In v (unique_by l) ->
  exists l1 l2, l = l1 ++ v :: l2 /\ ~ In (key_of v) (map key_of l2).
Proof.
  unfold map_values. intros Hin.
  apply in_map_iff in Hin. destruct Hin as ([k v'] & Hv & Hin).
  simpl in Hv. subst v'.
  destruct (new_map_last _ _ _ Hin) as (e1 & e2 & Hes & Hk).
  apply map_eq_app in Hes. destruct Hes as (l1 & l2' & -> & <- & Hes).
  apply map_eq_cons in Hes. destruct Hes as (v1 & l2 & -> & H1 & <-).
  injection H1 as <- <-. exists l1, l2. split; [reflexivity|].
  rewrite map_map in Hk. exact Hk.
Qed.

Lemma unique_by_incl (l : list VideoResult) (v : VideoResult) :
  In v (unique_by l) -> In v l.
Proof.
  intros H. destruct (unique_by_last _ _ H) as (l1 & l2 & -> & _).
  apply in_elt.
Qed.
End Dedup.

(** ** The shuffle and the slice *)

(** Sorting the empty array gives the empty array. *)
Lemma array_sort_nil (E : Env) (A : Type) (comparefn : A -> A -> Rand Q)
  (k : nat) :
  fst (array_sort E comparefn [] k) = [].
Proof. apply Permutation_nil, array_sort_permutes. Qed.

Lemma NoDup_firstn (A : Type) (n : nat) (l : list A) :
  NoDup l -> NoDup (firstn n l).
Proof.
  intros H. rewrite <- (firstn_skipn n l) in H.
  apply NoDup_app_remove_r in H. exact H.
Qed.

Lemma NoDup_skipn (A : Type) (n : nat) (l : list A) :
  NoDup l -> NoDup (skipn n l).
Proof.
  intros H. rewrite <- (firstn_skipn n l) in H.
  apply NoDup_app_remove_l in H. exact H.
Qed.

Lemma slice_map (A B : Type) (f : A -> B) (l : list A) (a b : number) :
  map f (slice l a b) = slice (map f l) a b.
Proof.
  unfold slice. rewrite <- firstn_map, <- skipn_map, length_map. reflexivity.
Qed.

Lemma slice_NoDup (A : Type) (l : list A) (a b : number) :
  NoDup l -> NoDup (slice l a b).
Proof. intros H. unfold slice. apply NoDup_firstn, NoDup_skipn, H. Qed.

Lemma slice_incl (A : Type) (l : list A) (a b : number) (x : A) :
  In x (slice l a b) -> In x l.
Proof.
  unfold slice. intros H.
  set (rest := skipn _ l) in H.
  rewrite <- (firstn_skipn (Z.to_nat (relative_index (Z.of_nat (length l))
                                        a)) l).
  apply in_or_app. right. fold rest.
  rewrite <- (firstn_skipn (Z.to_nat (Z.max (relative_index
              (Z.of_nat (length l)) b - relative_index
              (Z.of_nat (length l)) a) 0)) rest).
  apply in_or_app. left. exact H.
Qed.

(** From index [start >= 0], [limit >= 0] elements, as many as there are. *)
Lemma slice_nonneg (A : Type) (l : list A) (start limit : Z) :
  (0 <= start)%Z -> (0 <= limit)%Z ->
  slice l (Int start) (num_add (Int start) (Int limit))
  = firstn (Z.to_nat limit) (skipn (Z.to_nat start) l).
Proof.
  intros Hs Hl. unfold slice, relative_index. simpl.
  destruct (start <? 0)%Z eqn:E1; [apply Z.ltb_lt in E1; lia|].
  destruct (start + limit <? 0)%Z eqn:E2; [apply Z.ltb_lt in E2; lia|].
  destruct (Z_le_gt_dec (Z.of_nat (length l)) start) as [Hge|Hlt].
  - rewrite (skipn_all2 (n := Z.to_nat (Z.min start _))) by lia.
    rewrite (skipn_all2 (n := Z.to_nat start)) by lia.
    rewrite !firstn_nil. reflexivity.
  - replace (Z.min start (Z.of_nat (length l))) with start by lia.
    set (rest := skipn (Z.to_nat start) l).
    assert (Hlen : length rest = (length l - Z.to_nat start)%nat)
      by apply length_skipn.
    replace (Z.to_nat (Z.max (Z.min (start + limit) (Z.of_nat (length l))
                              - start) 0))
      with (Nat.min (Z.to_nat limit) (length rest)) by lia.
    rewrite <- firstn_firstn, firstn_all. reflexivity.
Qed.

Lemma clipped_slice_nonneg (A : Type) (l : list A) (start limit : Z) :
  (0 <= start)%Z -> (0 <= limit)%Z ->
  clipped_slice l start limit
  = firstn (Z.to_nat limit) (skipn (Z.to_nat start) l).
Proof.
  intros Hs Hl. unfold clipped_slice.
  replace (Z.max start 0) with start by lia.
  destruct (Z_le_gt_dec (Z.of_nat (length l)) start) as [Hge|Hlt].
  - rewrite skipn_all2 by lia. rewrite !firstn_nil. reflexivity.
  - set (rest := skipn (Z.to_nat start) l).
    assert (Hlen : length rest = (length l - Z.to_nat start)%nat)
      by apply length_skipn.
    replace (Z.to_nat (Z.min (start + limit) (Z.of_nat (length l)) - start))
      with (Nat.min (Z.to_nat limit) (length rest)) by lia.
    rewrite <- firstn_firstn, firstn_all. reflexivity.
Qed.

(** ** What [GET] returns *)

Lemma slice_nil (A : Type) (a b : number) : slice (@nil A) a b = [].
Proof. unfold slice. rewrite skipn_nil, firstn_nil. reflexivity. Qed.

Lemma category_list (E : Env) (w : World) (category : option jsstring)
  (limit start : number) :
  list_ (Category.GET E w category limit start)
  = match getAvailableApiSites w with
    | Return sites =>
        slice (Category.shuffled_of E w sites (field_or category ALL))
              start (num_add start limit)
    | Throw _ => []
    end.
Proof.
  unfold Category.GET, Category.shuffled_of, Category.allVideos_of.
  destruct (getAvailableApiSites w) as [sites|e]; simpl; [|reflexivity].
  destruct sites as [|s sites]; simpl.
  - unfold Category.shuffle. cbn. rewrite array_sort_nil, slice_nil.
    reflexivity.
  - destruct (Category.merged_of E w (s :: sites) (field_or category ALL))
      as [allVideos|e]; simpl; [reflexivity|].
    unfold Category.shuffle. cbn. rewrite array_sort_nil, slice_nil.
    reflexivity.
Qed.

Lemma hot_list (E : Env) (w : World) (limit start : number) :
  list_ (Hot.GET E w limit start)
  = match getAvailableApiSites w with
    | Return sites =>
        slice (Hot.shuffled_of E w sites) start (num_add start limit)
    | Throw _ => []
    end.
Proof.
  unfold Hot.GET, Hot.shuffled_of, Hot.allVideos_of.
  destruct (getAvailableApiSites w) as [sites|e]; simpl; [|reflexivity].
  destruct sites as [|s sites]; simpl.
  - unfold Hot.shuffle. cbn. rewrite array_sort_nil, slice_nil.
    reflexivity.
  - destruct (Hot.merged_of E w (s :: sites)) as [allVideos|e]; simpl;
      [reflexivity|].
    unfold Hot.shuffle. cbn. rewrite array_sort_nil, slice_nil.
    reflexivity.
Qed.

(** The merge throws the error of the engine when a list is too long
    for one call of [push], and is the concatenation of the lists
    otherwise. *)
Lemma collect_spec (E : Env) (results : list (Settled (list VideoResult)))
  (allVideos : list VideoResult) :
  collect E allVideos results
  = if spreadable E results
    then Return (allVideos
                 ++ flat_map (fun result =>
                                match result with
                                | Fulfilled value => value
                                | Rejected _ => []
                                end) results)
    else Throw (spread_error E).
Proof.
  revert allVideos.
  induction results as [|[value|reason] results IH]; intros allVideos.
  - simpl. rewrite app_nil_r. reflexivity.
  - cbn [collect spreadable forallb flat_map]. unfold push_spread.
    destruct (length value <=? spread_limit E)%nat; [|reflexivity].
    cbn [bind andb]. rewrite IH. fold (spreadable E results).
    destruct (spreadable E results); [|reflexivity].
    rewrite app_assoc. reflexivity.
  - cbn [collect spreadable forallb flat_map andb app]. apply IH.
Qed.

Lemma category_code (E : Env) (w : World) (category : option jsstring)
  (limit start : number) :
  code (Category.GET E w category limit start)
  = match getAvailableApiSites w with
    | Return sites =>
        if spreadable E (Category.results_of E w sites
                           (field_or category ALL))
        then 200%Z else 500%Z
    | Throw _ => 500%Z
    end.
Proof.
  unfold Category.GET, Category.merged_of.
  destruct (getAvailableApiSites w) as [sites|e]; simpl; [|reflexivity].
  destruct sites as [|s sites]; [reflexivity|]. cbn [length Nat.eqb].
  rewrite collect_spec.
  destruct (spreadable E _); reflexivity.
Qed.

Lemma hot_code (E : Env) (w : World) (limit start : number) :
  code (Hot.GET E w limit start)
  = match getAvailableApiSites w with
    | Return sites =>
        if spreadable E (Hot.results_of E w sites) then 200%Z else 500%Z
    | Throw _ => 500%Z
    end.
Proof.
  unfold Hot.GET, Hot.merged_of.
  destruct (getAvailableApiSites w) as [sites|e]; simpl; [|reflexivity].
  destruct sites as [|s sites]; [reflexivity|]. cbn [length Nat.eqb].
  rewrite collect_spec.
  destruct (spreadable E _); reflexivity.
Qed.

(** The keys of a page are distinct when the keys of the deduplicated set
    are. *)
(** The answer of either route, case by case. *)
Lemma category_answer (E : Env) (w : World) (category : option jsstring)
  (limit start : number) :
  Category.GET E w category limit start
  = match getAvailableApiSites w with
    | Return sites =>
        if (length sites =? 0)%nat then
          {| code := 200; message := MSG_NO_SOURCE; list_ := [] |}
        else if spreadable E (Category.results_of E w sites
                                (field_or category ALL)) then
          {| code := 200; message := MSG_OK;
             list_ := slice (Category.shuffled_of E w sites
                               (field_or category ALL))
                            start (num_add start limit) |}
        else
          {| code := 500;
             message := MSG_FAIL_CATEGORY ++ err_message (spread_error E);
             list_ := [] |}
    | Throw e =>
        {| code := 500; message := MSG_FAIL_CATEGORY ++ err_message e;
           list_ := [] |}
    end.
Proof.
  unfold Category.GET, Category.shuffled_of, Category.allVideos_of,
    Category.merged_of.
  destruct (getAvailableApiSites w) as [sites|e]; [|reflexivity].
  cbn [bind]. destruct (length sites =? 0)%nat; [reflexivity|].
  rewrite collect_spec. destruct (spreadable E _); reflexivity.
Qed.

Lemma hot_answer (E : Env) (w : World) (limit start : number) :
  Hot.GET E w limit start
  = match getAvailableApiSites w with
    | Return sites =>
        if (length sites =? 0)%nat then
          {| code := 200; message := MSG_NO_SOURCE; list_ := [] |}
        else if spreadable E (Hot.results_of E w sites) then
          {| code := 200; message := MSG_OK;
             list_ := slice (Hot.shuffled_of E w sites)
                            start (num_add start limit) |}
        else
          {| code := 500;
             message := MSG_FAIL_HOT ++ err_message (spread_error E);
             list_ := [] |}
    | Throw e =>
        {| code := 500; message := MSG_FAIL_HOT ++ err_message e;
           list_ := [] |}
    end.
Proof.
  unfold Hot.GET, Hot.shuffled_of, Hot.allVideos_of, Hot.merged_of.
  destruct (getAvailableApiSites w) as [sites|e]; [|reflexivity].
  cbn [bind]. destruct (length sites =? 0)%nat; [reflexivity|].
  rewrite collect_spec. destruct (spreadable E _); reflexivity.
Qed.

Lemma page_keys_NoDup (K : Type) (E : Env) (w : World)
  (key_of : VideoResult -> K) (unique : list VideoResult) (a b : number) :
  NoDup (map key_of unique) ->
  NoDup (map key_of
           (slice (fst (array_sort E (@random_compare w _) unique 0%nat))
                  a b)).
Proof.
  intros H. rewrite slice_map. apply slice_NoDup.
  eapply Permutation_NoDup; [|exact H].
  apply Permutation_map, array_sort_permutes.
Qed.

Lemma NoDup_map_factor (A B C : Type) (g : A -> B) (f : B -> C)
  (l : list A) :
  NoDup (map (fun x => f (g x)) l) -> NoDup (map g l).
Proof.
  intros H. rewrite <- (map_map g f) in H.
  eapply NoDup_map_inv. exact H.
Qed.

(** C3: in the list either route returns, no two records share the
    route's dedup key: [(lower(title), year, sourceKey)] for the category
    route and [(lower(title), year, class)] for the hot route, as triples
    and as the concatenated key strings. *)
Theorem C3_dedup_keys_distinct (E : Env) (w : World)
  (category : option jsstring) (limit start : number) :
  NoDup (map (fun v => (toLowerCase E (title v), year v, source v))
             (list_ (Category.GET E w category limit start)))
  /\ NoDup (map (Category.dedup_key E)
                (list_ (Category.GET E w category limit start)))
  /\ NoDup (map (fun v => (toLowerCase E (title v), year v, class v))
                (list_ (Hot.GET E w limit start)))
  /\ NoDup (map (Hot.dedup_key E) (list_ (Hot.GET E w limit start))).
Proof.
  assert (Hc : NoDup (map (Category.dedup_key E)
                        (list_ (Category.GET E w category limit start)))).
  { rewrite category_list. destruct (getAvailableApiSites w) as [sites|e];
      [|constructor].
    apply page_keys_NoDup. apply unique_by_NoDup. }
  assert (Hh : NoDup (map (Hot.dedup_key E)
                        (list_ (Hot.GET E w limit start)))).
  { rewrite hot_list. destruct (getAvailableApiSites w) as [sites|e];
      [|constructor].
    apply page_keys_NoDup. apply unique_by_NoDup. }
  repeat split; try assumption.
  - apply (NoDup_map_factor
             (fun v => (toLowerCase E (title v), year v, source v))
             (fun t => fst (fst t) ++ lit "-" ++ snd (fst t) ++ lit "-"
                       ++ snd t)).
    exact Hc.
  - apply (NoDup_map_factor
             (fun v => (toLowerCase E (title v), year v, class v))
             (fun t => fst (fst t) ++ lit "-" ++ snd (fst t) ++ lit "-"
                       ++ snd t)).
    exact Hh.
Qed.

(** C2 (as the code has it): among the records that share a dedup key the
    category route keeps one, the last in concatenation order, at the place
    where the key was first seen; the keys of the result are the keys of
    the input in first-seen order; and two records with the same title and
    year from different sources have different keys, so neither removes
    the other. *)
Theorem C2_dedup_keeps_last_seen (E : Env) (allVideos : list VideoResult) :
  map (Category.dedup_key E) (Category.uniqueVideos E allVideos)
  = dedup_first (map (Category.dedup_key E) allVideos)
  /\ (forall v, In v (Category.uniqueVideos E allVideos) ->
        exists before after,
          allVideos = before ++ v :: after
          /\ forall v', In v' after ->
               Category.dedup_key E v' <> Category.dedup_key E v)
  /\ (forall v1 v2, title v1 = title v2 -> year v1 = year v2 ->
        source v1 <> source v2 ->
        Category.dedup_key E v1 <> Category.dedup_key E v2).
Proof.
  split; [apply unique_by_keys|]. split.
  - intros v Hin.
    destruct (unique_by_last _ _ _ Hin) as (l1 & l2 & Hl & Hk).
    exists l1, l2. split; [exact Hl|].
    intros v' Hv' Heq. apply Hk. rewrite <- Heq. apply in_map. exact Hv'.
  - intros v1 v2 Ht Hy Hs Hk. unfold Category.dedup_key in Hk.
    rewrite Ht, Hy in Hk. repeat apply app_inv_head in Hk. auto.
Qed.

(** C2, the claim as stated, fails: a site that lists the same title and
    year twice has its second record returned, where keeping the first-seen
    record would return the first. *)
Lemma C2_first_seen_counterexample :
  let allVideos :=
    Category.allVideos_of sampleEnv world_repeat [site1] ALL in
  map id allVideos = [lit "1"; lit "2"]
  /\ map (Category.dedup_key sampleEnv) allVideos
     = [lit "dune-2021-s1"; lit "dune-2021-s1"]
  /\ map id (keep_first_seen (Category.dedup_key sampleEnv) [] allVideos)
     = [lit "1"]
  /\ map id (Category.uniqueVideos sampleEnv allVideos) = [lit "2"]
  /\ map id (list_ (Category.GET sampleEnv world_repeat None (Int 25)
                                 (Int 0)))
     = [lit "2"].
Proof. vm_compute. repeat split; reflexivity. Qed.

(** C4 (as the code has it): for a start and a limit that are not
    negative, both routes return the records of the shuffled sequence from
    index [start] on, at most [limit] of them, which is the slice
    [[start, start + limit)] clipped to the sequence; a start at or beyond
    the number of records gives the empty list.  The start and the limit,
    whatever numbers they are, have no part in the code of the answer: it
    is the same for any two pairs of them, and it is 200 when the sites are
    known and the merge of their lists does not raise.  (The shuffled
    sequence of a request whose merge raises has no record.) *)
Theorem C4_pagination_nonnegative (E : Env) (w : World)
  (sites : list ApiSite) (category : option jsstring) (start limit : Z) :
  getAvailableApiSites w = Return sites ->
  (0 <= start)%Z -> (0 <= limit)%Z ->
  let shuffled := Category.shuffled_of E w sites (field_or category ALL) in
  let hot := Hot.shuffled_of E w sites in
  list_ (Category.GET E w category (Int limit) (Int start))
  = clipped_slice shuffled start limit
  /\ list_ (Category.GET E w category (Int limit) (Int start))
     = firstn (Z.to_nat limit) (skipn (Z.to_nat start) shuffled)
  /\ list_ (Hot.GET E w (Int limit) (Int start))
     = clipped_slice hot start limit
  /\ ((Z.of_nat (length shuffled) <= start)%Z ->
      list_ (Category.GET E w category (Int limit) (Int start)) = [])
  /\ ((Z.of_nat (length hot) <= start)%Z ->
      list_ (Hot.GET E w (Int limit) (Int start)) = [])
  /\ (forall a b a' b' : number,
        code (Category.GET E w category a b)
        = code (Category.GET E w category a' b')
        /\ code (Hot.GET E w a b) = code (Hot.GET E w a' b'))
  /\ (spreadable E (Category.results_of E w sites (field_or category ALL))
      = true ->
      forall a b : number, code (Category.GET E w category a b) = 200%Z)
  /\ (spreadable E (Hot.results_of E w sites) = true ->
      forall a b : number, code (Hot.GET E w a b) = 200%Z).
Proof.
  intros Hsites Hs Hl shuffled hot.
  rewrite category_list, hot_list, Hsites.
  fold shuffled hot. rewrite !slice_nonneg, !clipped_slice_nonneg by lia.
  split; [reflexivity|]. split; [reflexivity|]. split; [reflexivity|].
  split; [intros Hlen; rewrite skipn_all2 by lia; apply firstn_nil|].
  split; [intros Hlen; rewrite skipn_all2 by lia; apply firstn_nil|].
  split; [|split].
  - intros a b a' b'. rewrite !category_code, !hot_code. split; reflexivity.
  - intros Hfit a b. rewrite category_code, Hsites, Hfit. reflexivity.
  - intros Hfit a b. rewrite hot_code, Hsites, Hfit. reflexivity.
Qed.

(** C4 on three records: from index 1 with a limit of 2, two records. *)
Lemma C4_pagination_witness :
  length (list_ (Category.GET sampleEnv world_three None (Int 2) (Int 1)))
  = 2%nat
  /\ code (Category.GET sampleEnv world_three None (Int 2) (Int 1)) = 200%Z.
Proof.
  destruct (@C4_pagination_nonnegative sampleEnv world_three [site1] None
              1%Z 2%Z eq_refl) as (_ & H & _ & _ & _ & _ & Hcode & _);
    [lia | lia |].
  split; [rewrite H; vm_compute; reflexivity|].
  apply Hcode. vm_compute. reflexivity.
Defined.

(** C4, the claim as stated, fails for a negative start or limit:
    [slice] counts a negative index from the end of the array.  With three
    records, [start = -1] and [limit = 2] give the empty list where the
    clipped slice holds one record, and [start = 0], [limit = -1] give two
    records where the clipped slice is empty. *)
Lemma C4_negative_start_counterexample :
  let shuffled := Category.shuffled_of sampleEnv world_three [site1] ALL in
  length shuffled = 3%nat
  /\ list_ (Category.GET sampleEnv world_three None (Int 2) (Int (-1))) = []
  /\ length (clipped_slice shuffled (-1) 2) = 1%nat
  /\ length (list_ (Category.GET sampleEnv world_three None (Int (-1))
                                 (Int 0))) = 2%nat
  /\ clipped_slice shuffled 0 (-1) = [].
Proof. vm_compute. repeat split; reflexivity. Qed.

(** ** The group the [forEach] keeps *)

(** The [forEach] ends with the matches of the first group that has the
    largest count, when that count is larger than what it started with. *)
Lemma pick_longer_fold (groups : list jsstring) (acc : list jsstring) :
  fold_left pick_longer groups acc
  = if (length acc <? largest_count groups)%nat
    then first_with (largest_count groups) groups
    else acc.
Proof.
  revert acc. induction groups as [|g groups IH]; intros acc.
  - reflexivity.
  - simpl fold_left. rewrite IH. unfold pick_longer, first_with.
    unfold largest_count in *. simpl map. simpl list_max. simpl find.
    fold (count_matches g).
    set (c := count_matches g). set (M := list_max _).
    destruct (Nat.ltb_spec (length acc) c) as [E1|E1].
    + fold (count_matches g). fold c.
      destruct (Nat.ltb_spec (length acc) (Nat.max c M)) as [_|E3]; [|lia].
      destruct (Nat.ltb_spec c M) as [E2|E2].
      * replace (Nat.max c M) with M by lia.
        destruct (Nat.eqb_spec c M) as [E4|_]; [lia | reflexivity].
      * replace (Nat.max c M) with c by lia.
        rewrite Nat.eqb_refl. reflexivity.
    + destruct (Nat.ltb_spec (length acc) M) as [E2|E2].
      * replace (Nat.max c M) with M by lia.
        destruct (Nat.ltb_spec (length acc) M) as [_|E3]; [|lia].
        destruct (Nat.eqb_spec c M) as [E4|_]; [lia | reflexivity].
      * destruct (Nat.ltb_spec (length acc) (Nat.max c M)) as [E3|_];
          [lia | reflexivity].
Qed.

Lemma pick_longer_canonical (groups : list jsstring) :
  fold_left pick_longer groups [] = canonical_group groups.
Proof.
  rewrite pick_longer_fold. unfold canonical_group, first_with. simpl length.
  destruct (0 <? largest_count groups)%nat eqn:E; [reflexivity|].
  apply Nat.ltb_ge in E.
  destruct (find _ groups) as [g|] eqn:F; [|reflexivity].
  apply find_some in F. destruct F as [_ F]. apply Nat.eqb_eq in F.
  unfold count_matches in F.
  destruct (match_all g); [reflexivity | simpl in F; lia].
Qed.

(** ** The year *)

Lemma length4 (d : jsstring) :
  length d = 4%nat -> exists a b c e, d = [a; b; c; e].
Proof.
  destruct d as [|a [|b [|c [|e [|f d]]]]]; simpl; try discriminate.
  intros _. exists a, b, c, e. reflexivity.
Qed.

Lemma four_digits_at_head (a : N) (t d : jsstring) :
  four_digits_at (a :: t) [] d ->
  exists b c e r, t = b :: c :: e :: r /\ d = [a; b; c; e]
                  /\ is_digit a && is_digit b && is_digit c && is_digit e
                     = true.
Proof.
  intros (post & Heq & Hlen & Hdig).
  destruct (length4 _ Hlen) as (a' & b & c & e & ->).
  simpl in Heq. injection Heq as <- ->.
  exists b, c, e, post. repeat split; try reflexivity.
  simpl in Hdig. rewrite andb_true_r in Hdig.
  rewrite <- !andb_assoc. exact Hdig.
Qed.

Lemma four_digits_at_tail (a : N) (t pre d : jsstring) :
  four_digits_at (a :: t) (a :: pre) d <-> four_digits_at t pre d.
Proof.
  split; intros (post & Heq & H); exists post; split; auto.
  - simpl in Heq. injection Heq as ->. reflexivity.
  - simpl. rewrite Heq. reflexivity.
Qed.

Lemma four_digits_at_cons (a : N) (t pre d : jsstring) :
  four_digits_at (a :: t) pre d ->
  (pre = [] /\ four_digits_at (a :: t) [] d)
  \/ exists pre', pre = a :: pre' /\ four_digits_at t pre' d.
Proof.
  destruct pre as [|x pre]; [auto|]. intros H. right.
  assert (x = a) as ->.
  { destruct H as (post & Heq & _). simpl in Heq. congruence. }
  exists pre. split; [reflexivity|]. apply four_digits_at_tail in H. exact H.
Qed.

Lemma four_digits_at_long (raw pre d : jsstring) :
  four_digits_at raw pre d -> (4 <= length raw)%nat.
Proof.
  intros (post & -> & Hlen & _). rewrite !length_app. lia.
Qed.

(** [match_year] finds the first run of four digits, and finds none only
    when there is none. *)
Lemma match_year_spec (raw : jsstring) :
  match match_year raw with
  | Some d => first_four_digits raw d
  | None => no_four_digits raw
  end.
Proof.
  induction raw as [|a t IH].
  - simpl. intros pre d H. apply four_digits_at_long in H. simpl in H. lia.
  - simpl match_year.
    destruct t as [|b [|c [|e r]]];
      try (intros pre d H; apply four_digits_at_long in H; simpl in H; lia).
    destruct (is_digit a && is_digit b && is_digit c && is_digit e) eqn:Hd.
    + exists []. split.
      * exists r. repeat split. simpl. rewrite andb_true_r.
        rewrite <- !andb_assoc in Hd. exact Hd.
      * intros. simpl. lia.
    + set (t := b :: c :: e :: r) in *.
      assert (Hhead : forall d', ~ four_digits_at (a :: t) [] d').
      { intros d' H0. apply four_digits_at_head in H0.
        destruct H0 as (b' & c' & e' & r' & Ht & _ & Hd').
        unfold t in Ht. injection Ht as <- <- <- <-. congruence. }
      destruct (match_year t) as [d|].
      * destruct IH as (pre & Hat & Hmin). exists (a :: pre). split.
        -- apply four_digits_at_tail. exact Hat.
        -- intros pre' d' H'. apply four_digits_at_cons in H'.
           destruct H' as [[_ H'] | (p & -> & H')].
           ++ exfalso. exact (Hhead _ H').
           ++ simpl. apply le_n_S, Hmin with (d' := d'). exact H'.
      * intros pre d H. apply four_digits_at_cons in H.
        destruct H as [[_ H] | (p & -> & H)].
        -- exact (Hhead _ H).
        -- exact (IH _ _ H).
Qed.

Lemma first_four_digits_unique (raw d1 d2 : jsstring) :
  first_four_digits raw d1 -> first_four_digits raw d2 -> d1 = d2.
Proof.
  intros (p1 & H1 & M1) (p2 & H2 & M2).
  assert (Hlen : length p1 = length p2).
  { apply Nat.le_antisymm; [eapply M1 | eapply M2]; eassumption. }
  destruct H1 as (q1 & E1 & L1 & _). destruct H2 as (q2 & E2 & L2 & _).
  destruct (length4 _ L1) as (a1 & b1 & c1 & e1 & ->).
  destruct (length4 _ L2) as (a2 & b2 & c2 & e2 & ->).
  rewrite E1 in E2. apply app_eq_app in E2.
  destruct E2 as (l & [[-> E2] | [-> E2]]);
    rewrite length_app in Hlen;
    (destruct l; [|simpl in Hlen; lia]); simpl in E2; congruence.
Qed.

Lemma first_four_digits_shape (raw d : jsstring) :
  first_four_digits raw d ->
  length d = 4%nat /\ forallb is_digit d = true.
Proof. intros (pre & (post & _ & H) & _). exact H. Qed.

(** C7 (as the code has it): the normalized year is the first run of four
    digits of the raw year field when there is one; it is the sentinel
    [unknown] when the field is absent or empty; and it is the empty string
    when the field is not empty and holds no run of four digits.  So the
    year of a record is four digits, the empty string or [unknown]. *)
Theorem C7_year_normalization (E : Env) (w : World) (n j : nat)
  (sourceKey sourceName : jsstring) (item : ApiSearchItem) :
  let y := year (normalize E w n j sourceKey sourceName item) in
  (vod_year item = None \/ vod_year item = Some [] -> y = lit "unknown")
  /\ (forall raw d, vod_year item = Some raw ->
                    first_four_digits raw d -> y = d)
  /\ (forall raw, vod_year item = Some raw -> raw <> [] ->
                  no_four_digits raw -> y = [])
  /\ (y = lit "unknown" \/ y = []
      \/ (length y = 4%nat /\ forallb is_digit y = true)).
Proof.
  simpl. destruct (vod_year item) as [raw|].
  2: { split; [reflexivity|]. split; [discriminate|].
       split; [discriminate | auto]. }
  split; [|split; [|split]].
  - intros [H|H]; [discriminate|]. injection H as ->. reflexivity.
  - intros raw' d H Hd. injection H as <-.
    assert (Hne : truthy raw = true).
    { destruct raw; [|reflexivity]. destruct Hd as (p & H & _).
      apply four_digits_at_long in H. simpl in H. lia. }
    rewrite Hne. pose proof (match_year_spec raw) as Hs.
    destruct (match_year raw) as [d0|].
    + assert (d0 = d) as -> by (eapply first_four_digits_unique; eauto).
      unfold field_or, or_else.
      destruct (first_four_digits_shape Hd) as [Hl _].
      destruct d; [discriminate | reflexivity].
    + exfalso. destruct Hd as (p & H & _). exact (Hs _ _ H).
  - intros raw' H Hne Hno. injection H as <-.
    destruct raw as [|c raw]; [congruence|]. simpl truthy. cbv iota.
    pose proof (match_year_spec (c :: raw)) as Hs.
    destruct (match_year (c :: raw)) as [d0|]; [|reflexivity].
    exfalso. destruct Hs as (p & H & _). exact (Hno _ _ H).
  - destruct (truthy raw); [|auto].
    pose proof (match_year_spec raw) as Hs.
    destruct (match_year raw) as [d0|]; [|auto].
    right. right. apply first_four_digits_shape in Hs.
    unfold field_or, or_else. destruct d0; [destruct Hs; discriminate|].
    exact Hs.
Qed.

(** C7, the claim as stated, fails: a year field that is present and holds
    no run of four digits gives the empty string, not [unknown]. *)
Lemma C7_no_digits_counterexample :
  vod_year item_no_year = Some (lit "n/a")
  /\ year (normalize sampleEnv world_partial 0 0 (lit "s1") (lit "S1")
                     item_no_year) = []
  /\ map year
       (list_ (Hot.GET sampleEnv
                       (sampleWorld (Return [site1])
                                    (fun _ => answer [item_no_year]))
                       (Int 20) (Int 0)))
     = [[]].
Proof. vm_compute. repeat split; reflexivity. Qed.

(** ** One source *)

Lemma fetch_list_event (E : Env) (w : World) (n : nat)
  (apiUrl keyword : jsstring) :
  fetch_list E w n apiUrl keyword
  = match search_event E w n apiUrl keyword with
    | NetworkFailure e => Throw e
    | TimedOut e => Throw e
    | Responded r =>
        if ok r then
          match json r with
          | Return (ListOf items) => Return items
          | Return NoList => Return []
          | Throw e => Throw e
          end
        else Return []
    end.
Proof.
  unfold fetch_list, fetchWithTimeout, search_event.
  destruct (fetch w n _ _) as [e|e|r]; simpl; try reflexivity.
  destruct (ok r); simpl; [|reflexivity].
  destruct (json r) as [[|items]|e]; reflexivity.
Qed.

Lemma fetch_list_failed (E : Env) (w : World) (n : nat)
  (apiUrl keyword : jsstring) :
  failed (search_event E w n apiUrl keyword) = true ->
  fetch_list E w n apiUrl keyword = Return []
  \/ exists e, fetch_list E w n apiUrl keyword = Throw e.
Proof.
  rewrite fetch_list_event.
  destruct (search_event E w n apiUrl keyword) as [e|e|r]; simpl;
    try (right; eexists; reflexivity).
  destruct (ok r); simpl; [|auto].
  destruct (json r) as [[|items]|e]; try discriminate; eauto.
Qed.

Lemma category_source_total (E : Env) (w : World) (n : nat)
  (apiUrl sourceKey sourceName category : jsstring) :
  exists videos,
    Category.fetchCategoryVideosFromApi E w n apiUrl sourceKey sourceName
      category = Return videos.
Proof.
  unfold Category.fetchCategoryVideosFromApi, try_catch.
  destruct (fetch_list E w n apiUrl _) as [[|i items]|e]; simpl;
    try (eexists; reflexivity).
  destruct (negb (str_eqb category ALL)); eexists; reflexivity.
Qed.

Lemma hot_source_total (E : Env) (w : World) (n : nat)
  (apiUrl sourceKey sourceName : jsstring) :
  exists videos,
    Hot.fetchHotVideosFromApi E w n apiUrl sourceKey sourceName
    = Return videos.
Proof.
  unfold Hot.fetchHotVideosFromApi, try_catch.
  destruct (fetch_list E w n apiUrl _) as [[|i items]|e]; simpl;
    eexists; reflexivity.
Qed.

Lemma category_source_failed (E : Env) (w : World) (n : nat)
  (apiUrl sourceKey sourceName category : jsstring) :
  failed (search_event E w n apiUrl (Category.searchKeyword w n category))
  = true ->
  Category.fetchCategoryVideosFromApi E w n apiUrl sourceKey sourceName
    category = Return [].
Proof.
  intros H. apply fetch_list_failed in H.
  unfold Category.fetchCategoryVideosFromApi, try_catch.
  destruct H as [-> | [e ->]]; reflexivity.
Qed.

Lemma hot_source_failed (E : Env) (w : World) (n : nat)
  (apiUrl sourceKey sourceName : jsstring) :
  failed (search_event E w n apiUrl (random_keyword (keyword_draw w n)))
  = true ->
  Hot.fetchHotVideosFromApi E w n apiUrl sourceKey sourceName = Return [].
Proof.
  intros H. apply fetch_list_failed in H.
  unfold Hot.fetchHotVideosFromApi, try_catch.
  destruct H as [-> | [e ->]]; reflexivity.
Qed.

(** C8 (as the code has it): [fetchWithTimeout] hands a network error or a
    time-out to its caller as the exception [fetch] rejected with, and a
    response of any status, 2xx or not, as an ordinary response.  It is its
    callers, [fetchCategoryVideosFromApi] and [fetchHotVideosFromApi], that
    never raise: they always return a list, the empty one when the request
    failed. *)
Theorem C8_fetch_rethrows_callers_absorb (E : Env) (w : World) (n : nat)
  (url : jsstring) (options : RequestInit)
  (apiUrl sourceKey sourceName category : jsstring) :
  (forall e,
     fetch w n url (fetchOptions options) = TimedOut e
     \/ fetch w n url (fetchOptions options) = NetworkFailure e ->
     fetchWithTimeout w n url options = Throw e)
  /\ (forall r,
        fetch w n url (fetchOptions options) = Responded r ->
        fetchWithTimeout w n url options = Return r)
  /\ (exists videos,
        Category.fetchCategoryVideosFromApi E w n apiUrl sourceKey
          sourceName category = Return videos)
  /\ (exists videos,
        Hot.fetchHotVideosFromApi E w n apiUrl sourceKey sourceName
        = Return videos)
  /\ (failed (search_event E w n apiUrl
                (Category.searchKeyword w n category)) = true ->
      Category.fetchCategoryVideosFromApi E w n apiUrl sourceKey sourceName
        category = Return [])
  /\ (failed (search_event E w n apiUrl
                (random_keyword (keyword_draw w n))) = true ->
      Hot.fetchHotVideosFromApi E w n apiUrl sourceKey sourceName
      = Return []).
Proof.
  split; [|split; [|split; [|split; [|split]]]].
  - intros e [H|H]; unfold fetchWithTimeout; rewrite H; reflexivity.
  - intros r H. unfold fetchWithTimeout. rewrite H. reflexivity.
  - apply category_source_total.
  - apply hot_source_total.
  - apply category_source_failed.
  - apply hot_source_failed.
Qed.

(** C8, the claim as stated, fails: when the timer fires,
    [fetchWithTimeout] throws the abort error, and it returns a 503
    response as a response. *)
Lemma C8_rethrow_counterexample :
  fetchWithTimeout world_timeout 0 (lit "https://s1.example/api.php")
                   {| headers := None |}
  = Throw abort_error
  /\ fetchWithTimeout world_partial 1 (lit "https://s2.example/api.php")
                      {| headers := None |}
     = Return {| status := 503; json := Return NoList |}
  /\ ok {| status := 503; json := Return NoList |} = false.
Proof. vm_compute. repeat split; reflexivity. Qed.

(** ** Many sources *)

Lemma mapi_from_indexed (A B : Type) (f : nat -> A -> B) (i : nat)
  (l : list A) :
  mapi_from f i l
  = map (fun p => f (fst p) (snd p)) (combine (seq i (length l)) l).
Proof.
  revert i. induction l as [|x l IH]; intros i; simpl; [reflexivity|].
  rewrite IH. reflexivity.
Qed.

Lemma collect_settled (E : Env) (A : Type)
  (f : A -> Completion (list VideoResult)) (l : list A) :
  (forall x, exists videos, f x = Return videos) ->
  collect E [] (map (@settle _) (map f l))
  = if forallb (fun x => (length (value_of (f x)) <=? spread_limit E)%nat) l
    then Return (flat_map (fun x => value_of (f x)) l)
    else Throw (spread_error E).
Proof.
  intros Htotal. rewrite collect_spec. cbn [app].
  assert (Hfit : spreadable E (map (@settle _) (map f l))
                 = forallb (fun x => (length (value_of (f x))
                                      <=? spread_limit E)%nat) l).
  { unfold spreadable. induction l as [|x l IH]; [reflexivity|].
    cbn [map forallb]. rewrite IH.
    destruct (Htotal x) as [videos ->]. reflexivity. }
  assert (Hvalues : flat_map (fun result : Settled (list VideoResult) =>
                                match result with
                                | Fulfilled value => value
                                | Rejected _ => []
                                end) (map (@settle _) (map f l))
                    = flat_map (fun x => value_of (f x)) l).
  { clear Hfit. induction l as [|x l IH]; [reflexivity|].
    cbn [map flat_map]. rewrite IH.
    destruct (Htotal x) as [videos ->]. reflexivity. }
  rewrite Hfit, Hvalues. reflexivity.
Qed.

Lemma flat_map_survivors (A B : Type) (produce : A -> list B)
  (fails : A -> bool) (l : list A) :
  (forall x, In x l -> fails x = true -> produce x = []) ->
  flat_map produce l = flat_map produce (filter (fun x => negb (fails x)) l).
Proof.
  induction l as [|x l IH]; intros H; simpl; [reflexivity|].
  rewrite IH by (intros; apply H; simpl; auto).
  destruct (fails x) eqn:F; simpl; [|reflexivity].
  rewrite (H x); simpl; auto.
Qed.

(** The merge of the category route: every list has to fit one call of
    [push]. *)
Lemma category_merged (E : Env) (w : World) (sites : list ApiSite)
  (category : jsstring) :
  let produce := fun p : nat * ApiSite =>
    value_of (Category.fetchCategoryVideosFromApi E w (fst p)
                (api (snd p)) (key (snd p)) (name (snd p)) category) in
  Category.merged_of E w sites category
  = if forallb (fun p => (length (produce p) <=? spread_limit E)%nat)
               (indexed sites)
    then Return (flat_map produce (indexed sites))
    else Throw (spread_error E).
Proof.
  intros produce. unfold Category.merged_of, Category.results_of, mapi.
  rewrite mapi_from_indexed. fold (indexed sites).
  apply (collect_settled E
           (fun p : nat * ApiSite =>
              Category.fetchCategoryVideosFromApi E w (fst p)
                (api (snd p)) (key (snd p)) (name (snd p)) category)).
  intros p. apply category_source_total.
Qed.

Lemma hot_merged (E : Env) (w : World) (sites : list ApiSite) :
  let produce := fun p : nat * ApiSite =>
    value_of (Hot.fetchHotVideosFromApi E w (fst p)
                (api (snd p)) (key (snd p)) (name (snd p))) in
  Hot.merged_of E w sites
  = if forallb (fun p => (length (produce p) <=? spread_limit E)%nat)
               (indexed (firstn 3 sites))
    then Return (flat_map produce (indexed (firstn 3 sites)))
    else Throw (spread_error E).
Proof.
  intros produce. unfold Hot.merged_of, Hot.results_of, mapi.
  rewrite mapi_from_indexed. fold (indexed (firstn 3 sites)).
  apply (collect_settled E
           (fun p : nat * ApiSite =>
              Hot.fetchHotVideosFromApi E w (fst p)
                (api (snd p)) (key (snd p)) (name (snd p)))).
  intros p. apply hot_source_total.
Qed.

(** The records of [allVideos] are records of the sources. *)
Lemma category_allVideos (E : Env) (w : World) (sites : list ApiSite)
  (category : jsstring) (v : VideoResult) :
  In v (Category.allVideos_of E w sites category) ->
  In v (flat_map (fun p =>
                    value_of (Category.fetchCategoryVideosFromApi E w (fst p)
                                (api (snd p)) (key (snd p)) (name (snd p))
                                category))
                 (indexed sites)).
Proof.
  unfold Category.allVideos_of. rewrite category_merged.
  destruct (forallb _ (indexed sites)); [auto | intros []].
Qed.

Lemma hot_allVideos (E : Env) (w : World) (sites : list ApiSite)
  (v : VideoResult) :
  In v (Hot.allVideos_of E w sites) ->
  In v (flat_map (fun p =>
                    value_of (Hot.fetchHotVideosFromApi E w (fst p)
                                (api (snd p)) (key (snd p)) (name (snd p))))
                 (indexed (firstn 3 sites))).
Proof.
  unfold Hot.allVideos_of. rewrite hot_merged.
  destruct (forallb _ (indexed (firstn 3 sites))); [auto | intros []].
Qed.

(** The answer when the merge raises: the code 500, the message of the
    engine's error after the prefix of the route, and no record. *)
Lemma category_overflow (E : Env) (w : World) (sites : list ApiSite)
  (category : option jsstring) (limit start : number) (p : nat * ApiSite) :
  getAvailableApiSites w = Return sites ->
  In p (indexed sites) ->
  (length (value_of (Category.fetchCategoryVideosFromApi E w (fst p)
                       (api (snd p)) (key (snd p)) (name (snd p))
                       (field_or category ALL)))
   <=? spread_limit E)%nat = false ->
  Category.GET E w category limit start
  = {| code := 500;
       message := MSG_FAIL_CATEGORY ++ err_message (spread_error E);
       list_ := [] |}.
Proof.
  intros Hsites Hin Hlong. unfold Category.GET. rewrite Hsites.
  cbn [bind]. destruct sites as [|s sites]; [destruct Hin|].
  cbn [length Nat.eqb]. rewrite category_merged.
  set (fits := forallb _ _).
  assert (Hfits : fits = false).
  { destruct fits eqn:F; [|reflexivity]. unfold fits in F.
    rewrite forallb_forall in F. rewrite (F p Hin) in Hlong.
    discriminate Hlong. }
  rewrite Hfits. reflexivity.
Qed.

Lemma hot_overflow (E : Env) (w : World) (sites : list ApiSite)
  (limit start : number) (p : nat * ApiSite) :
  getAvailableApiSites w = Return sites ->
  In p (indexed (firstn 3 sites)) ->
  (length (value_of (Hot.fetchHotVideosFromApi E w (fst p)
                       (api (snd p)) (key (snd p)) (name (snd p))))
   <=? spread_limit E)%nat = false ->
  Hot.GET E w limit start
  = {| code := 500;
       message := MSG_FAIL_HOT ++ err_message (spread_error E);
       list_ := [] |}.
Proof.
  intros Hsites Hin Hlong. unfold Hot.GET. rewrite Hsites.
  cbn [bind]. destruct sites as [|s sites]; [destruct Hin|].
  cbn [length Nat.eqb]. rewrite hot_merged.
  set (fits := forallb _ _).
  assert (Hfits : fits = false).
  { destruct fits eqn:F; [|reflexivity]. unfold fits in F.
    rewrite forallb_forall in F. rewrite (F p Hin) in Hlong.
    discriminate Hlong. }
  rewrite Hfits. reflexivity.
Qed.

(** C9: what the category route does when sources fail, once the
    configured sites are known.  A source that fails (a time-out, a
    network error, a status outside 2xx, a body that is not JSON or has no
    list) contributes the empty list, and with no site configured the
    answer has code 200, no record and the message that no source is
    available.  When the list of every source is short enough to be the
    arguments of one call of [push], the answer has code 200, the merged
    records are exactly those of the sources that did not fail, in the
    order of the sites, and the list is the page of their deduplicated
    shuffle.  But the tolerance ends with the merge: when one source that
    did not fail returns more records than the engine takes as arguments,
    [push] raises, and the answer is the code 500 with the message of that
    error and no record, whatever the other sources produced. *)
Theorem C9_long_list_defeats_tolerance (E : Env) (w : World)
  (sites : list ApiSite) (category : option jsstring)
  (limit start : number) :
  getAvailableApiSites w = Return sites ->
  let cat := field_or category ALL in
  let fails := fun p : nat * ApiSite =>
    failed (search_event E w (fst p) (api (snd p))
              (Category.searchKeyword w (fst p) cat)) in
  let produce := fun p : nat * ApiSite =>
    value_of (Category.fetchCategoryVideosFromApi E w (fst p)
                (api (snd p)) (key (snd p)) (name (snd p)) cat) in
  let surviving :=
    flat_map produce (filter (fun p => negb (fails p)) (indexed sites)) in
  (forall p, In p (indexed sites) -> fails p = true -> produce p = [])
  /\ (sites = [] ->
      Category.GET E w category limit start
      = {| code := 200; message := MSG_NO_SOURCE; list_ := [] |})
  /\ ((forall p, In p (indexed sites) ->
         (length (produce p) <=? spread_limit E)%nat = true) ->
      code (Category.GET E w category limit start) = 200%Z
      /\ Category.allVideos_of E w sites cat = surviving
      /\ list_ (Category.GET E w category limit start)
         = slice (Category.shuffle E w surviving)
                 start (num_add start limit))
  /\ (forall p, In p (indexed sites) ->
        (length (produce p) <=? spread_limit E)%nat = false ->
        fails p = false
        /\ Category.GET E w category limit start
           = {| code := 500;
                message := MSG_FAIL_CATEGORY
                           ++ err_message (spread_error E);
                list_ := [] |}).
Proof.
  intros Hsites cat fails produce surviving.
  assert (Hfail : forall p, In p (indexed sites) -> fails p = true ->
                            produce p = []).
  { intros p _ Hp. unfold produce, fails in *.
    rewrite category_source_failed by exact Hp. reflexivity. }
  split; [exact Hfail|]. split; [|split].
  - intros ->. unfold Category.GET. rewrite Hsites. reflexivity.
  - intros Hfit.
    assert (Hall : forallb (fun p => (length (produce p)
                                      <=? spread_limit E)%nat)
                           (indexed sites) = true)
      by (apply forallb_forall; exact Hfit).
    assert (Hmerged : Category.merged_of E w sites cat = Return surviving).
    { pose proof (category_merged E w sites cat) as Hm.
      change (Category.merged_of E w sites cat
              = if forallb (fun p => (length (produce p)
                                      <=? spread_limit E)%nat)
                           (indexed sites)
                then Return (flat_map produce (indexed sites))
                else Throw (spread_error E)) in Hm.
      rewrite Hall in Hm. rewrite Hm.
      unfold surviving. f_equal. apply flat_map_survivors. exact Hfail. }
    assert (Hvideos : Category.allVideos_of E w sites cat = surviving)
      by (unfold Category.allVideos_of; rewrite Hmerged; reflexivity).
    split; [|split; [exact Hvideos|]].
    + unfold Category.GET. rewrite Hsites. cbn [bind].
      destruct (length sites =? 0)%nat; [reflexivity|].
      fold cat. rewrite Hmerged. reflexivity.
    + rewrite category_list, Hsites. unfold Category.shuffled_of.
      fold cat. rewrite Hvideos. reflexivity.
  - intros p Hin Hlong. split.
    + destruct (fails p) eqn:F; [|reflexivity].
      rewrite (Hfail p Hin F) in Hlong. discriminate Hlong.
    + exact (@category_overflow E w sites category limit start p Hsites
                                Hin Hlong).
Qed.

(** C9 on two sites of which the first answers with 150000 titles and the
    second with one: the answer has the code 500 and no record.  And on
    three sites of which the first times out and the second answers 503:
    the answer has the code 200 and the record of the third. *)
Lemma C9_long_list_witness :
  Category.GET sampleEnv world_long None (Int 25) (Int 0)
  = {| code := 500;
       message := MSG_FAIL_CATEGORY
                  ++ lit "Maximum call stack size exceeded";
       list_ := [] |}
  /\ code (Category.GET sampleEnv world_partial None (Int 25) (Int 0))
     = 200%Z
  /\ map id (Category.allVideos_of sampleEnv world_partial
               [site1; site2; site3] ALL) = [lit "5"].
Proof.
  split.
  - destruct (@C9_long_list_defeats_tolerance sampleEnv world_long
                [site1; site2] None (Int 25) (Int 0) eq_refl)
      as (_ & _ & _ & H).
    apply (H (0%nat, site1)); [left; reflexivity|].
    vm_compute. reflexivity.
  - destruct (@C9_long_list_defeats_tolerance sampleEnv world_partial
                [site1; site2; site3] None (Int 25) (Int 0) eq_refl)
      as (_ & _ & H & _).
    destruct H as (Hcode & Hall & _).
    { intros p Hin. cbn in Hin.
      destruct Hin as [<-|[<-|[<-|[]]]]; vm_compute; reflexivity. }
    split; [exact Hcode|].
    etransitivity; [exact (f_equal (map id) Hall)|].
    vm_compute. reflexivity.
Defined.

(** ** The rejection rule *)

Lemma mapi_from_In (A B : Type) (f : nat -> A -> B) (i : nat) (l : list A)
  (y : B) :
  In y (mapi_from f i l) -> exists j x, In x l /\ y = f j x.
Proof.
  revert i. induction l as [|x l IH]; intros i; simpl; [tauto|].
  intros [<-|H]; [exists i, x; auto|].
  destruct (IH _ H) as (j & x' & Hx & ->). exists j, x'. auto.
Qed.

Lemma title_truthy (E : Env) (w : World) (n j : nat)
  (sourceKey sourceName : jsstring) (item : ApiSearchItem) :
  truthy (title (normalize E w n j sourceKey sourceName item)) = true.
Proof.
  simpl. unfold field_or, or_else.
  destruct (vod_name item) as [raw|]; simpl; [|reflexivity].
  destruct (truthy (collapse_spaces (trim raw))) eqn:H; [exact H|].
  reflexivity.
Qed.

Lemma keep_normalize (E : Env) (w : World) (n j : nat)
  (sourceKey sourceName : jsstring) (item : ApiSearchItem) :
  keep (normalize E w n j sourceKey sourceName item)
  = truthy (field_or (vod_pic item) []).
Proof.
  unfold keep. rewrite title_truthy. simpl. reflexivity.
Qed.

Lemma normalized_kept_In (E : Env) (w : World) (n : nat)
  (sourceKey sourceName : jsstring) (items : list ApiSearchItem)
  (v : VideoResult) :
  In v (filter keep
          (mapi (fun j => normalize E w n j sourceKey sourceName) items)) ->
  emitted E w v.
Proof.
  intros H. apply filter_In in H. destruct H as [H Hk].
  apply mapi_from_In in H. destruct H as (j & item & _ & ->).
  exists n, j, sourceKey, sourceName, item. split; [reflexivity|].
  rewrite keep_normalize in Hk. exact Hk.
Qed.

Lemma category_source_emitted (E : Env) (w : World) (n : nat)
  (apiUrl sourceKey sourceName category : jsstring) (v : VideoResult) :
  In v (value_of (Category.fetchCategoryVideosFromApi E w n apiUrl
                    sourceKey sourceName category)) ->
  emitted E w v.
Proof.
  unfold Category.fetchCategoryVideosFromApi, try_catch.
  destruct (fetch_list E w n apiUrl _) as [[|i items]|e];
    cbn [bind value_of In]; try tauto.
  destruct (negb (str_eqb category ALL)); cbn [value_of]; intros H.
  - apply filter_In in H. destruct H as [H _].
    eapply normalized_kept_In. exact H.
  - eapply normalized_kept_In. exact H.
Qed.

Lemma hot_source_emitted (E : Env) (w : World) (n : nat)
  (apiUrl sourceKey sourceName : jsstring) (v : VideoResult) :
  In v (value_of (Hot.fetchHotVideosFromApi E w n apiUrl sourceKey
                    sourceName)) ->
  emitted E w v.
Proof.
  unfold Hot.fetchHotVideosFromApi, try_catch.
  destruct (fetch_list E w n apiUrl _) as [[|i items]|e];
    cbn [bind value_of In]; try tauto.
  intros H. eapply normalized_kept_In. exact H.
Qed.

Lemma page_incl (E : Env) (w : World) (unique : list VideoResult)
  (a b : number) (v : VideoResult) :
  In v (slice (fst (array_sort E (@random_compare w _) unique 0%nat)) a b) ->
  In v unique.
Proof.
  intros H. apply slice_incl in H.
  eapply Permutation_in;
    [apply Permutation_sym, array_sort_permutes | exact H].
Qed.

Lemma category_page_emitted (E : Env) (w : World)
  (category : option jsstring) (limit start : number) (v : VideoResult) :
  In v (list_ (Category.GET E w category limit start)) -> emitted E w v.
Proof.
  rewrite category_list. destruct (getAvailableApiSites w) as [sites|e];
    [|intros []].
  intros H. apply page_incl in H. apply unique_by_incl in H.
  apply category_allVideos in H. apply in_flat_map in H.
  destruct H as (p & _ & H). eapply category_source_emitted. exact H.
Qed.

Lemma hot_page_emitted (E : Env) (w : World) (limit start : number)
  (v : VideoResult) :
  In v (list_ (Hot.GET E w limit start)) -> emitted E w v.
Proof.
  rewrite hot_list. destruct (getAvailableApiSites w) as [sites|e];
    [|intros []].
  intros H. apply page_incl in H. apply unique_by_incl in H.
  apply hot_allVideos in H. apply in_flat_map in H.
  destruct H as (p & _ & H). eapply hot_source_emitted. exact H.
Qed.

(** C1 (as the code has it): the normaliser keeps a record exactly when
    its raw poster is present and not empty.  A raw title that is missing,
    empty or blank does not reject the record: the title becomes the
    sentinel, so the title of a normalised record is never empty.  Every
    record in the list of either route is the normalisation of a raw item
    with a poster, and has a title and a poster that are not empty. *)
Theorem C1_rejection_by_poster (E : Env) (w : World) (n j : nat)
  (sourceKey sourceName : jsstring) (item : ApiSearchItem)
  (category : option jsstring) (limit start : number) :
  let video := normalize E w n j sourceKey sourceName item in
  keep video = truthy (field_or (vod_pic item) [])
  /\ truthy (title video) = true
  /\ (vod_name item = None
      \/ (exists raw, vod_name item = Some raw
                      /\ collapse_spaces (trim raw) = []) ->
      title video = UNKNOWN_TITLE)
  /\ (forall v,
        In v (list_ (Category.GET E w category limit start))
        \/ In v (list_ (Hot.GET E w limit start)) ->
        emitted E w v
        /\ truthy (title v) = true /\ truthy (poster v) = true).
Proof.
  intros video. split; [apply keep_normalize|].
  split; [apply title_truthy|]. split.
  - unfold video. simpl. intros [->|(raw & -> & Hraw)]; simpl.
    + reflexivity.
    + rewrite Hraw. reflexivity.
  - intros v Hv.
    assert (He : emitted E w v).
    { destruct Hv as [Hv|Hv];
        [eapply category_page_emitted | eapply hot_page_emitted];
        exact Hv. }
    split; [exact He|].
    destruct He as (n' & j' & k' & nm' & item' & -> & Hp).
    split; [apply title_truthy | exact Hp].
Qed.

(** C1, the claim as stated, fails: a raw record without a title and with
    a poster is emitted, under the sentinel title. *)
Lemma C1_untitled_counterexample :
  vod_name item_untitled = None
  /\ keep (normalize sampleEnv world_untitled 0 0 (lit "s1") (lit "S1")
                     item_untitled) = true
  /\ list_ (Hot.GET sampleEnv world_untitled (Int 20) (Int 0))
     = [sample_video (lit "7") UNKNOWN_TITLE (lit "p.jpg") (lit "unknown")
                     (lit "s1") (lit "S1")]
  /\ list_ (Category.GET sampleEnv world_untitled None (Int 25) (Int 0))
     = [sample_video (lit "7") UNKNOWN_TITLE (lit "p.jpg") (lit "unknown")
                     (lit "s1") (lit "S1")].
Proof. vm_compute. repeat split; reflexivity. Qed.

(** ** Running the extractor on its own output *)

Lemma no_delimiter_middle (pre m post : jsstring) :
  no_delimiter (pre ++ m ++ post) -> no_delimiter m.
Proof.
  intros H a b ->. apply (H (pre ++ a) (b ++ post)).
  rewrite <- !app_assoc. reflexivity.
Qed.

Lemma no_delimiter_tail (c : N) (s : jsstring) :
  no_delimiter (c :: s) -> no_delimiter s.
Proof. intros H a b ->. apply (H (c :: a) b). reflexivity. Qed.

Lemma split_aux_whole (s cur : jsstring) :
  no_delimiter s -> split_aux cur s = [rev cur ++ s].
Proof.
  revert cur. induction s as [|c1 t IH]; intros cur H; simpl.
  - rewrite app_nil_r. reflexivity.
  - assert (Hrec : split_aux (c1 :: cur) t = [rev cur ++ c1 :: t]).
    { rewrite IH by (eapply no_delimiter_tail; exact H).
      simpl. rewrite <- app_assoc. reflexivity. }
    destruct t as [|c2 [|c3 rest]]; try exact Hrec.
    destruct ((c1 =? 36)%N && (c2 =? 36)%N && (c3 =? 36)%N) eqn:E;
      [|exact Hrec].
    apply andb_true_iff in E. destruct E as [E E3].
    apply andb_true_iff in E. destruct E as [E1 E2].
    apply N.eqb_eq in E1, E2, E3. subst.
    exfalso. apply (H [] rest). reflexivity.
Qed.

Lemma app_same_length (A : Type) (a b x y : list A) :
  length a = length b -> a ++ x = b ++ y -> a = b /\ x = y.
Proof.
  revert b. induction a as [|h a IH]; intros [|h' b] Hl He;
    simpl in *; try discriminate; [auto|].
  injection He as -> He. destruct (IH b) as [-> ->]; auto.
Qed.

(** Every piece of the split is free of the delimiter.  [cur] is a piece
    under construction: no delimiter starts inside it. *)
Lemma split_aux_pieces (n : nat) (s cur g : jsstring) :
  (length s <= n)%nat ->
  (forall pre post, rev cur ++ s = pre ++ DELIMITER ++ post ->
                    (length cur <= length pre)%nat) ->
  In g (split_aux cur s) -> no_delimiter g.
Proof.
  revert s cur. induction n as [|n IH]; intros s cur Hn Hinv Hin.
  - destruct s; [|simpl in Hn; lia].
    simpl in Hin. destruct Hin as [<-|[]]. intros pre post Heq.
    specialize (Hinv pre post). rewrite app_nil_r in Hinv.
    specialize (Hinv Heq). apply (f_equal (@length _)) in Heq.
    rewrite !length_app, length_rev in Heq. simpl in Heq. lia.
  - assert (Hhead : forall pre post, rev cur <> pre ++ DELIMITER ++ post).
    { intros pre post Heq.
      specialize (Hinv pre (post ++ s)).
      rewrite Heq, <- !app_assoc in Hinv. specialize (Hinv eq_refl).
      apply (f_equal (@length _)) in Heq.
      rewrite !length_app, length_rev in Heq. simpl in Heq. lia. }
    destruct s as [|c1 t].
    { simpl in Hin. destruct Hin as [<-|[]]. exact Hhead. }
    simpl in Hn.
    assert (Hrec : (forall post, c1 :: t <> DELIMITER ++ post) ->
                   In g (split_aux (c1 :: cur) t) -> no_delimiter g).
    { intros Hno. apply IH; [lia|]. intros pre post Heq. simpl in Heq.
      rewrite <- app_assoc in Heq. simpl in Heq.
      pose proof (Hinv _ _ Heq) as Hle. simpl.
      destruct (Nat.eq_dec (length cur) (length pre)) as [Hl|Hl]; [|lia].
      exfalso. rewrite <- length_rev in Hl.
      destruct (app_same_length _ _ _ _ Hl Heq) as [_ Hs].
      exact (Hno _ Hs). }
    simpl in Hin. destruct t as [|c2 [|c3 rest]].
    + apply Hrec; [|exact Hin]. intros post Hp. discriminate.
    + apply Hrec; [|exact Hin]. intros post Hp. discriminate.
    + destruct ((c1 =? 36)%N && (c2 =? 36)%N && (c3 =? 36)%N) eqn:E.
      * destruct Hin as [<-|Hin]; [exact Hhead|].
        eapply (IH rest []); [simpl in Hn; lia | | exact Hin].
        intros. simpl. lia.
      * apply Hrec; [|exact Hin]. intros post Hp.
        injection Hp as -> -> -> _. discriminate.
Qed.

Lemma split3_pieces (s g : jsstring) : In g (split3 s) -> no_delimiter g.
Proof.
  apply (split_aux_pieces (n := length s)); [lia|]. intros. simpl. lia.
Qed.

(** What the regular expression matches is a prefix of what it reads, and
    matches itself whole. *)
Lemma strip_prefix_app (p s r : jsstring) :
  strip_prefix p s = Some r -> s = p ++ r.
Proof.
  revert s. induction p as [|x p IH]; intros s H; simpl in *.
  - congruence.
  - destruct s as [|y s]; [discriminate|].
    destruct (N.eqb_spec x y) as [->|]; [|discriminate].
    rewrite (IH _ H). reflexivity.
Qed.

Lemma strip_prefix_self (p r : jsstring) : strip_prefix p (p ++ r) = Some r.
Proof.
  induction p as [|x p IH]; simpl; [reflexivity|].
  rewrite N.eqb_refl. exact IH.
Qed.

Lemma strip_prefix_extend (p s r post : jsstring) :
  strip_prefix p s = Some r -> strip_prefix p (s ++ post) = Some (r ++ post).
Proof.
  intros H. apply strip_prefix_app in H. subst s.
  rewrite <- app_assoc. apply strip_prefix_self.
Qed.

Lemma lazy_body_prefix (s b : jsstring) :
  lazy_body s = Some b ->
  (exists post, s = b ++ post) /\ lazy_body b = Some b.
Proof.
  revert b. induction s as [|c s IH]; intros b H.
  - simpl in H. discriminate.
  - cbn [lazy_body] in H.
    destruct (strip_prefix (lit ".m3u8") (c :: s)) as [r|] eqn:Hp.
    + injection H as <-. split.
      * exists r. apply strip_prefix_app. exact Hp.
      * reflexivity.
    + destruct (url_char c) eqn:Hc; [|discriminate].
      destruct (lazy_body s) as [b'|] eqn:Hb; [|discriminate].
      injection H as <-. destruct (IH _ eq_refl) as [[post Hs] Hself].
      split.
      * exists post. simpl. rewrite Hs at 1. reflexivity.
      * cbn [lazy_body]. rewrite Hc, Hself.
        destruct (strip_prefix (lit ".m3u8") (c :: b')) as [r'|] eqn:Hp';
          [|reflexivity].
        exfalso. apply strip_prefix_extend with (post := post) in Hp'.
        simpl app in Hp'. rewrite <- Hs in Hp'. congruence.
Qed.

Lemma after_scheme_prefix (s b : jsstring) :
  after_scheme s = Some b ->
  (exists post, s = b ++ post) /\ after_scheme b = Some b
  /\ exists r, b = 58%N :: r.
Proof.
  unfold after_scheme. intros H.
  destruct (strip_prefix (lit "://") s) as [[|c r]|] eqn:Hp;
    try discriminate.
  destruct (url_char c) eqn:Hc; [|discriminate].
  destruct (lazy_body r) as [b0|] eqn:Hb; [|discriminate].
  injection H as <-.
  destruct (lazy_body_prefix _ Hb) as [[post Hr] Hself].
  apply strip_prefix_app in Hp. split; [|split].
  - exists post. rewrite Hp, Hr. simpl. reflexivity.
  - change (58 :: 47 :: 47 :: c :: b0)%N with (lit "://" ++ c :: b0).
    rewrite strip_prefix_self, Hc, Hself. reflexivity.
  - eexists. reflexivity.
Qed.

Lemma optional_s_prefix (r b : jsstring) :
  optional_s r = Some b ->
  (exists post, r = b ++ post) /\ optional_s b = Some b.
Proof.
  assert (Hcolon : forall r0 b0, after_scheme r0 = Some b0 ->
            (exists post, r0 = b0 ++ post) /\ optional_s b0 = Some b0).
  { intros r0 b0 Hb.
    destruct (after_scheme_prefix _ Hb) as (Hpre & Hself & r1 & ->).
    split; [exact Hpre|]. unfold optional_s.
    change (58 =? 115)%N with false. cbv iota. exact Hself. }
  unfold optional_s at 1. intros H.
  destruct r as [|c r']; [apply Hcolon; exact H|].
  destruct (c =? 115)%N eqn:Ec; [|apply Hcolon; exact H].
  destruct (after_scheme r') as [b'|] eqn:Hb; [|apply Hcolon; exact H].
  injection H as <-.
  destruct (after_scheme_prefix _ Hb) as ((post & ->) & Hself & _).
  split; [exists post; reflexivity|].
  unfold optional_s. rewrite Ec, Hself. reflexivity.
Qed.

Lemma match_at_prefix (s m : jsstring) :
  match_at s = Some m ->
  (exists post, s = m ++ post) /\ match_at m = Some m
  /\ exists m', m = 36%N :: m'.
Proof.
  unfold match_at at 1. intros H.
  destruct (strip_prefix (lit "$http") s) as [r|] eqn:Hp; [|discriminate].
  apply strip_prefix_app in Hp. subst s.
  destruct (optional_s r) as [b|] eqn:Hb; [|discriminate].
  assert (Hm : m = lit "$http" ++ b)
    by (unfold option_map in H; congruence).
  clear H. subst m.
  destruct (optional_s_prefix _ Hb) as ((post & ->) & Hself).
  split; [|split].
  - exists post. apply app_assoc.
  - unfold match_at. rewrite strip_prefix_self, Hself. reflexivity.
  - eexists. reflexivity.
Qed.

Lemma match_all_from_past (s : jsstring) (k : nat) :
  (length s <= k)%nat -> match_all_from k s = [].
Proof.
  revert k. induction s as [|c s IH]; intros k H; simpl; [reflexivity|].
  destruct k as [|k]; [simpl in H; lia|].
  apply IH. simpl in H. lia.
Qed.

Lemma match_all_self (m : jsstring) :
  match_at m = Some m -> match_all m = [m].
Proof.
  intros H. destruct (match_at_prefix _ H) as (_ & _ & m' & ->).
  unfold match_all. cbn [match_all_from]. rewrite H.
  rewrite match_all_from_past; [reflexivity|]. simpl. lia.
Qed.

Lemma match_all_from_In (s : jsstring) (k : nat) (m : jsstring) :
  In m (match_all_from k s) ->
  (exists pre post, s = pre ++ m ++ post) /\ match_at m = Some m.
Proof.
  revert k. induction s as [|c s IH]; intros k H; [destruct H|].
  cbn [match_all_from] in H.
  assert (Hlater : forall k', In m (match_all_from k' s) ->
            (exists pre post, c :: s = pre ++ m ++ post)
            /\ match_at m = Some m).
  { intros k' H'. destruct (IH _ H') as [(pre & post & ->) Hm].
    split; [|exact Hm]. exists (c :: pre), post. reflexivity. }
  destruct k as [|k]; [|eapply Hlater; exact H].
  destruct (match_at (c :: s)) as [m0|] eqn:Hm0;
    [|eapply Hlater; exact H].
  destruct H as [<-|H]; [|eapply Hlater; exact H].
  destruct (match_at_prefix _ Hm0) as ((post & Hs) & Hself & _).
  split; [|exact Hself]. exists [], post. exact Hs.
Qed.

Lemma selected_spec (field : jsstring) :
  selected field = dedup_first (canonical_group (split3 field)).
Proof.
  unfold selected. rewrite pick_longer_canonical.
  apply array_from_set_dedup.
Qed.

Lemma extract_selected (field : jsstring) :
  extract_episodes (Some field) = map clean_link (selected field).
Proof.
  unfold extract_episodes, selected.
  destruct field as [|c field]; reflexivity.
Qed.

Lemma selected_In (field m : jsstring) :
  In m (selected field) -> no_delimiter m /\ match_at m = Some m.
Proof.
  rewrite selected_spec, dedup_first_In. unfold canonical_group.
  destruct (find _ (split3 field)) as [g|] eqn:F; [|intros []].
  apply find_some in F. destruct F as [Hg _]. intros Hm.
  apply match_all_from_In in Hm. destruct Hm as [(pre & post & Hs) Hself].
  split; [|exact Hself].
  apply split3_pieces in Hg. rewrite Hs in Hg.
  eapply no_delimiter_middle. exact Hg.
Qed.

Lemma indexOf_absent (s : jsstring) (c : N) :
  ~ In c s -> indexOf s c = (-1)%Z.
Proof.
  induction s as [|x s IH]; simpl; [reflexivity|]. intros H.
  destruct (N.eqb_spec x c) as [->|_]; [tauto|].
  rewrite IH by tauto. reflexivity.
Qed.

Lemma rerun_single (m : jsstring) :
  no_delimiter m -> match_at m = Some m -> ~ In 40%N m ->
  extract_episodes (Some (lit "$" ++ clean_link m)) = [clean_link m].
Proof.
  intros Hnd Hself Hparen.
  destruct (match_at_prefix _ Hself) as (_ & _ & m' & ->).
  assert (Hclean : clean_link (36%N :: m') = m').
  { unfold clean_link, substring_from1. simpl tl.
    rewrite indexOf_absent by (simpl in Hparen; tauto). reflexivity. }
  rewrite Hclean. change (lit "$" ++ m') with (36%N :: m').
  unfold extract_episodes. cbn [truthy]. unfold split3.
  rewrite split_aux_whole by exact Hnd.
  cbn [rev app fold_left]. unfold pick_longer.
  rewrite (match_all_self Hself). cbn [length Nat.ltb Nat.leb].
  unfold array_from_set. cbn [fold_left]. unfold set_add. cbn [str_mem app map].
  rewrite Hclean. reflexivity.
Qed.

(** C6 (as the code has it): running the extractor on the re-encoding of
    its own output reproduces that output when the first run kept at most
    one matched text and that text holds no parenthesis.  (With two or
    more URLs the re-encoding puts every URL in a group of its own, and
    the second run keeps one group.) *)
Theorem C6_rerun_of_single_url (field : jsstring) :
  (length (selected field) <= 1)%nat ->
  (forall m, In m (selected field) -> ~ In 40%N m) ->
  extract_episodes (Some (reencode (extract_episodes (Some field))))
  = extract_episodes (Some field).
Proof.
  intros Hone Hparen. rewrite !(extract_selected field).
  destruct (selected field) as [|m [|m2 rest]] eqn:Hsel.
  - reflexivity.
  - assert (Hin : In m (selected field)) by (rewrite Hsel; simpl; auto).
    destruct (selected_In _ _ Hin) as [Hnd Hself].
    cbn [map]. unfold reencode. cbn [map join3].
    apply rerun_single; try assumption.
    apply Hparen. simpl. auto.
  - simpl in Hone. lia.
Qed.

(** C6 on a field with one URL and its annotation. *)
Lemma C6_rerun_witness :
  extract_episodes
    (Some (reencode (extract_episodes
                       (Some (lit "$https://a.com/1.m3u8(CDN1)")))))
  = [lit "https://a.com/1.m3u8"].
Proof.
  rewrite (@C6_rerun_of_single_url (lit "$https://a.com/1.m3u8(CDN1)")).
  - vm_compute. reflexivity.
  - vm_compute. lia.
  - intros m Hm.
    assert (Hsel : selected (lit "$https://a.com/1.m3u8(CDN1)")
                   = [lit "$https://a.com/1.m3u8"])
      by (vm_compute; reflexivity).
    rewrite Hsel in Hm. destruct Hm as [<-|[]].
    vm_compute. intuition discriminate.
Defined.

(** C6, the claim as stated, fails: the two URLs of the scenario are
    re-encoded as two groups of one URL, and the second run returns the
    first URL alone. *)
Lemma C6_idempotence_counterexample :
  extract_episodes (Some scenario_field)
  = [lit "https://a.com/1.m3u8"; lit "https://a.com/2.m3u8"]
  /\ reencode (extract_episodes (Some scenario_field))
     = lit "$https://a.com/1.m3u8$$$$https://a.com/2.m3u8"
  /\ extract_episodes
       (Some (reencode (extract_episodes (Some scenario_field))))
     = [lit "https://a.com/1.m3u8"].
Proof. vm_compute. repeat split; reflexivity. Qed.

(** ** The episode extractor against the specification's algorithm *)

(** *** Step 1: the split *)

(** [g] in front of the first group. *)
Definition onto_first (g : jsstring) (groups : list jsstring)
  : list jsstring :=
  match groups with
  | [] => []
  | g0 :: groups' => (g ++ g0) :: groups'
  end.

Lemma begins_delimiter (s : jsstring) :
  EpisodeSpec.begins EpisodeSpec.delimiter s
  = match s with
    | c1 :: c2 :: c3 :: _ => (c1 =? 36)%N && (c2 =? 36)%N && (c3 =? 36)%N
    | _ => false
    end.
Proof.
  destruct s as [|c1 [|c2 [|c3 rest]]]; unfold EpisodeSpec.delimiter;
    cbn -[N.eqb];
    rewrite ?andb_false_r, ?andb_true_r, ?andb_assoc, ?(N.eqb_sym 36);
    reflexivity.
Qed.

Lemma groups_upto_cons (n : nat) (c : N) (s : jsstring) :
  EpisodeSpec.begins EpisodeSpec.delimiter (c :: s) = false ->
  EpisodeSpec.groups_upto n (c :: s)
  = onto_first [c] (EpisodeSpec.groups_upto n s).
Proof.
  intros Hb. destruct n as [|n];
    cbn [EpisodeSpec.groups_upto EpisodeSpec.after_delimiter
         EpisodeSpec.before_delimiter]; rewrite Hb;
    destruct (EpisodeSpec.after_delimiter s); reflexivity.
Qed.

Lemma split_aux_groups (m : nat) :
  forall (s cur : jsstring) (n : nat),
    (length s <= m)%nat -> (length s <= n)%nat ->
    split_aux cur s = onto_first (rev cur) (EpisodeSpec.groups_upto n s).
Proof.
  induction m as [|m IH]; intros s cur n Hm Hn.
  - destruct s; [|simpl in Hm; lia].
    destruct n; simpl; rewrite app_nil_r; reflexivity.
  - destruct s as [|c1 t].
    { destruct n; simpl; rewrite app_nil_r; reflexivity. }
    simpl in Hm, Hn.
    destruct (EpisodeSpec.begins EpisodeSpec.delimiter (c1 :: t)) eqn:Hb.
    + pose proof Hb as Hd. rewrite begins_delimiter in Hd.
      destruct t as [|c2 [|c3 rest]]; try discriminate Hd.
      destruct n as [|n]; [lia|].
      cbn [split_aux]. rewrite Hd.
      cbn [EpisodeSpec.groups_upto EpisodeSpec.after_delimiter
           EpisodeSpec.before_delimiter]. rewrite Hb.
      cbn [skipn onto_first]. rewrite app_nil_r. f_equal.
      rewrite (IH rest [] n) by (simpl in *; lia).
      destruct n; cbn [EpisodeSpec.groups_upto];
        destruct (EpisodeSpec.after_delimiter rest); reflexivity.
    + rewrite (groups_upto_cons n _ _ Hb).
      assert (Hstep : split_aux cur (c1 :: t) = split_aux (c1 :: cur) t).
      { rewrite begins_delimiter in Hb.
        destruct t as [|c2 [|c3 rest]]; try reflexivity.
        cbn [split_aux]. rewrite Hb. reflexivity. }
      rewrite Hstep, (IH t (c1 :: cur) n) by lia.
      destruct (EpisodeSpec.groups_upto n t) as [|g0 gs]; [reflexivity|].
      cbn [onto_first rev]. rewrite <- !app_assoc. reflexivity.
Qed.

Lemma split3_groups (field : jsstring) :
  split3 field = EpisodeSpec.groups field.
Proof.
  unfold split3, EpisodeSpec.groups.
  rewrite (@split_aux_groups (length field) field [] (length field))
    by lia.
  destruct (length field); cbn [EpisodeSpec.groups_upto];
    destruct (EpisodeSpec.after_delimiter field); reflexivity.
Qed.

(** *** Step 2: the matches *)

Lemma text_lit (t : string) : EpisodeSpec.text t = lit t.
Proof. induction t as [|a t IH]; [reflexivity|]. simpl. rewrite IH. reflexivity. Qed.

Lemma strip_prefix_begins (p s : jsstring) :
  strip_prefix p s
  = if EpisodeSpec.begins p s then Some (skipn (length p) s) else None.
Proof.
  revert s. induction p as [|x p IH]; intros s; [reflexivity|].
  destruct s as [|y s]; [reflexivity|]. simpl.
  destruct (x =? y)%N; [apply IH | reflexivity].
Qed.

Lemma between_eq (k c : N) : ((k <=? c) && (c <=? k))%N = (c =? k)%N.
Proof.
  destruct (N.eqb_spec c k) as [->|Hne].
  - rewrite N.leb_refl. reflexivity.
  - destruct (N.leb_spec k c), (N.leb_spec c k); try reflexivity. lia.
Qed.

(** The class of the pattern is the complement of the quotes and the
    spaces. *)
Lemma url_char_spec (c : N) :
  url_char c = negb (EpisodeSpec.quote_or_space c).
Proof.
  unfold url_char, is_space, EpisodeSpec.quote_or_space.
  cbn [existsb fst snd]. rewrite !between_eq. btauto.
Qed.

Lemma url_rest_cons (c : N) (s : jsstring) :
  EpisodeSpec.url_rest (c :: s)
  = if EpisodeSpec.quote_or_space c then None
    else if EpisodeSpec.begins (lit ".m3u8") s
         then Some (c :: lit ".m3u8")
         else option_map (cons c) (EpisodeSpec.url_rest s).
Proof. cbn [EpisodeSpec.url_rest]. rewrite text_lit. reflexivity. Qed.

Lemma url_rest_lazy (r : jsstring) (c : N) :
  EpisodeSpec.url_rest (c :: r)
  = if url_char c then option_map (cons c) (lazy_body r) else None.
Proof.
  revert c. induction r as [|c' r IH]; intros c;
    rewrite (url_rest_cons c), url_char_spec;
    destruct (EpisodeSpec.quote_or_space c); cbn [negb]; try reflexivity.
  cbn [lazy_body]. rewrite strip_prefix_begins.
  destruct (EpisodeSpec.begins (lit ".m3u8") (c' :: r)); [reflexivity|].
  rewrite IH. destruct (url_char c'); reflexivity.
Qed.

Lemma after_scheme_spec (s : jsstring) :
  after_scheme s
  = if EpisodeSpec.begins (lit "://") s
    then option_map (app (lit "://")) (EpisodeSpec.url_rest (skipn 3 s))
    else None.
Proof.
  unfold after_scheme. rewrite strip_prefix_begins.
  destruct (EpisodeSpec.begins (lit "://") s); [|reflexivity].
  change (length (lit "://")) with 3%nat.
  destruct (skipn 3 s) as [|c r]; [reflexivity|].
  rewrite url_rest_lazy. destruct (url_char c); [|reflexivity].
  destruct (lazy_body r); reflexivity.
Qed.

Lemma begins_app (p q s : jsstring) :
  EpisodeSpec.begins (p ++ q) s
  = EpisodeSpec.begins p s && EpisodeSpec.begins q (skipn (length p) s).
Proof.
  revert s. induction p as [|x p IH]; intros s; [reflexivity|].
  destruct s as [|y s]; [reflexivity|]. simpl.
  rewrite IH. apply andb_assoc.
Qed.

Lemma begins_cons (x y : N) (p s : jsstring) :
  EpisodeSpec.begins (x :: p) (y :: s)
  = (x =? y)%N && EpisodeSpec.begins p s.
Proof. reflexivity. Qed.

Lemma optional_s_spec (r : jsstring) :
  option_map (app (lit "$http")) (optional_s r)
  = if EpisodeSpec.begins (lit "s://") r then
      option_map (app (lit "$https://")) (EpisodeSpec.url_rest (skipn 4 r))
    else if EpisodeSpec.begins (lit "://") r then
      option_map (app (lit "$http://")) (EpisodeSpec.url_rest (skipn 3 r))
    else None.
Proof.
  unfold optional_s. destruct r as [|c r'].
  - rewrite after_scheme_spec. reflexivity.
  - change (lit "s://") with (115%N :: lit "://").
    rewrite begins_cons, (N.eqb_sym 115 c).
    destruct (N.eqb_spec c 115) as [->|Hc]; cbn [andb].
    + rewrite !after_scheme_spec.
      change (EpisodeSpec.begins (lit "://") (115%N :: r')) with false.
      change (skipn 4 (115%N :: r')) with (skipn 3 r').
      destruct (EpisodeSpec.begins (lit "://") r'); [|reflexivity].
      destruct (EpisodeSpec.url_rest (skipn 3 r')); reflexivity.
    + rewrite after_scheme_spec.
      destruct (EpisodeSpec.begins (lit "://") (c :: r')); [|reflexivity].
      destruct (EpisodeSpec.url_rest (skipn 3 (c :: r'))); reflexivity.
Qed.

(** The regular expression of the routes matches what the pattern of the
    specification matches. *)
Lemma match_at_spec (s : jsstring) : match_at s = EpisodeSpec.url_match s.
Proof.
  unfold match_at, EpisodeSpec.url_match.
  rewrite strip_prefix_begins, !text_lit.
  change (lit "$https://") with (lit "$http" ++ lit "s://").
  change (lit "$http://") with (lit "$http" ++ lit "://").
  rewrite !begins_app.
  change (length (lit "$http")) with 5%nat.
  destruct (EpisodeSpec.begins (lit "$http") s); [|reflexivity].
  cbn [andb]. rewrite optional_s_spec, !skipn_skipn. reflexivity.
Qed.

(** A match begins with the dollar sign and the [h] of the scheme. *)
Lemma url_match_head (s m : jsstring) :
  EpisodeSpec.url_match s = Some m -> exists u, m = 36%N :: 104%N :: u.
Proof.
  unfold EpisodeSpec.url_match. intros H.
  destruct (EpisodeSpec.begins _ s).
  - destruct (EpisodeSpec.url_rest _) as [u|]; [|discriminate H].
    injection H as <-. eexists. reflexivity.
  - destruct (EpisodeSpec.begins _ s); [|discriminate H].
    destruct (EpisodeSpec.url_rest _) as [u|]; [|discriminate H].
    injection H as <-. eexists. reflexivity.
Qed.

Lemma match_all_from_matches (s : jsstring) :
  forall k n : nat,
    (length (skipn k s) <= n)%nat ->
    match_all_from k s = EpisodeSpec.matches_upto n (skipn k s).
Proof.
  induction s as [|c s IH]; intros k n Hn.
  - rewrite skipn_nil. destruct k, n; reflexivity.
  - destruct k as [|k]; [|exact (IH k n Hn)].
    cbn [skipn] in *. destruct n as [|n]; [simpl in Hn; lia|].
    cbn [match_all_from EpisodeSpec.matches_upto]. rewrite match_at_spec.
    destruct (EpisodeSpec.url_match (c :: s)) as [m|] eqn:Hm.
    + destruct (url_match_head _ Hm) as [u ->].
      replace (length (36%N :: 104%N :: u) - 1)%nat with (S (length u))
        by (simpl; lia).
      change (skipn (length (36%N :: 104%N :: u)) (c :: s))
        with (skipn (S (length u)) s).
      f_equal. apply IH.
      rewrite length_skipn. simpl in Hn. lia.
    + apply (IH 0%nat n). simpl in Hn. simpl. lia.
Qed.

Lemma match_all_matches (group : jsstring) :
  match_all group = EpisodeSpec.matches group.
Proof.
  unfold match_all, EpisodeSpec.matches.
  apply (@match_all_from_matches group 0%nat (length group)). simpl. lia.
Qed.

(** *** Step 3: the group that is kept *)

Lemma canonical_group_spec (groups : list jsstring) :
  canonical_group groups = EpisodeSpec.canonical groups.
Proof.
  unfold canonical_group, EpisodeSpec.canonical, largest_count,
    EpisodeSpec.most, count_matches.
  assert (Hmax : map (fun g => length (match_all g)) groups
                 = map (fun g => length (EpisodeSpec.matches g)) groups)
    by (apply map_ext; intros g; rewrite match_all_matches; reflexivity).
  rewrite Hmax. generalize (list_max (map (fun g => length
                                             (EpisodeSpec.matches g))
                                          groups)).
  clear Hmax. intros M.
  induction groups as [|g groups IH]; [reflexivity|].
  cbn [find]. rewrite match_all_matches.
  destruct (length (EpisodeSpec.matches g) =? M)%nat;
    [apply match_all_matches|].
  exact IH.
Qed.

(** *** Step 4: every URL once *)

Lemma filter_known (x : jsstring) (seen d : list jsstring) :
  str_mem x seen = true ->
  filter (fun y => negb (str_mem y seen))
         (filter (fun y => negb (str_eqb x y)) d)
  = filter (fun y => negb (str_mem y seen)) d.
Proof.
  intros Hin. induction d as [|y d IH]; [reflexivity|].
  cbn [filter]. destruct (str_eqb x y) eqn:Hxy; cbn [negb].
  - apply str_eqb_eq in Hxy. subst y. rewrite Hin. cbn [negb]. exact IH.
  - cbn [filter]. rewrite IH. reflexivity.
Qed.

Lemma filter_new (x : jsstring) (seen d : list jsstring) :
  filter (fun y => negb (str_mem y seen))
         (filter (fun y => negb (str_eqb x y)) d)
  = filter (fun y => negb (str_mem y (x :: seen))) d.
Proof.
  induction d as [|y d IH]; [reflexivity|].
  cbn [filter str_mem]. rewrite (str_eqb_sym y x).
  destruct (str_eqb x y); cbn [negb orb]; [exact IH|].
  cbn [filter]. rewrite IH. reflexivity.
Qed.

Lemma first_seen_filter (l seen : list jsstring) :
  EpisodeSpec.first_seen seen l
  = filter (fun y => negb (str_mem y seen)) (dedup_first l).
Proof.
  revert seen. induction l as [|x l IH]; intros seen; [reflexivity|].
  cbn [EpisodeSpec.first_seen dedup_first filter].
  destruct (in_dec (list_eq_dec N.eq_dec) x seen) as [Hin|Hout].
  - apply str_mem_In in Hin. rewrite Hin. cbn [negb].
    rewrite IH. symmetry. apply filter_known. exact Hin.
  - assert (Hmem : str_mem x seen = false).
    { destruct (str_mem x seen) eqn:Hm; [|reflexivity].
      apply str_mem_In in Hm. contradiction. }
    rewrite Hmem. cbn [negb]. f_equal. rewrite IH.
    symmetry. apply filter_new.
Qed.

Lemma array_from_set_first_seen (l : list jsstring) :
  array_from_set l = EpisodeSpec.first_seen [] l.
Proof.
  rewrite array_from_set_dedup, first_seen_filter.
  induction (dedup_first l) as [|y d IH]; [reflexivity|].
  cbn [filter str_mem negb]. f_equal. exact IH.
Qed.

(** *** Step 5: the dollar sign and the parenthesis *)

Lemma before_paren_indexOf (u : jsstring) :
  EpisodeSpec.before_paren u
  = if (indexOf u 40 <? 0)%Z then u
    else firstn (Z.to_nat (indexOf u 40)) u.
Proof.
  induction u as [|c u IH]; [reflexivity|].
  cbn [EpisodeSpec.before_paren indexOf].
  destruct (c =? 40)%N; [reflexivity|]. rewrite IH.
  destruct (indexOf u 40 <? 0)%Z eqn:Hi; [reflexivity|].
  apply Z.ltb_ge in Hi.
  replace (indexOf u 40 + 1 <? 0)%Z with false
    by (symmetry; apply Z.ltb_ge; lia).
  replace (Z.to_nat (indexOf u 40 + 1)) with (S (Z.to_nat (indexOf u 40)))
    by lia.
  reflexivity.
Qed.

Lemma clean_link_canonical (d c : N) (u : jsstring) :
  c <> 40%N ->
  clean_link (d :: c :: u) = EpisodeSpec.canonical_url (d :: c :: u).
Proof.
  intros Hc. unfold clean_link, EpisodeSpec.canonical_url,
    substring_from1, substring_to. cbn [tl indexOf].
  apply N.eqb_neq in Hc. rewrite Hc, before_paren_indexOf.
  destruct (indexOf u 40 <? 0)%Z eqn:Hi; [reflexivity|].
  apply Z.ltb_ge in Hi.
  replace (indexOf u 40 + 1 >? 0)%Z with true
    by (symmetry; apply Z.gtb_lt; lia).
  replace (Z.to_nat (indexOf u 40 + 1)) with (S (Z.to_nat (indexOf u 40)))
    by lia.
  reflexivity.
Qed.

(** C5: on every playback-URL string the extractor of the routes returns
    what the algorithm of the specification returns: the field is split on
    the delimiter, the matches of the pattern are counted in each group,
    the first group with the largest count is kept and the others are left
    out, every URL is kept once in first-seen order, the dollar sign is
    stripped and the URL is cut at an opening parenthesis past its first
    position.  An absent field gives no episode, and the scenario string
    gives its two URLs; so does, for the first group of two equal counts,
    a field whose groups tie, and a parenthesis inside a URL cuts it. *)
Theorem C5_extractor_follows_algorithm (field : jsstring) :
  extract_episodes (Some field) = EpisodeSpec.EpisodeExtractor field
  /\ extract_episodes None = []
  /\ extract_episodes (Some scenario_field)
     = [lit "https://a.com/1.m3u8"; lit "https://a.com/2.m3u8"]
  /\ extract_episodes
       (Some (lit "$http://a/1.m3u8$http://a/2.m3u8$$$$http://b/3.m3u8$http://b/4.m3u8"))
     = [lit "http://a/1.m3u8"; lit "http://a/2.m3u8"]
  /\ extract_episodes (Some (lit "$http://a/x(1).m3u8$http://a/x(1).m3u8"))
     = [lit "http://a/x"].
Proof.
  split; [|split; [reflexivity|repeat split; vm_compute; reflexivity]].
  rewrite extract_selected. unfold EpisodeSpec.EpisodeExtractor.
  assert (Hsel : selected field
                 = EpisodeSpec.first_seen []
                     (EpisodeSpec.canonical (EpisodeSpec.groups field))).
  { unfold selected.
    rewrite array_from_set_first_seen, pick_longer_canonical,
      canonical_group_spec, split3_groups. reflexivity. }
  rewrite <- Hsel. apply map_ext_in. intros m Hm.
  destruct (selected_In _ _ Hm) as [_ Hself].
  rewrite match_at_spec in Hself.
  destruct (url_match_head _ Hself) as [u ->].
  apply clean_link_canonical. discriminate.
Qed.

(** * Further properties of the routes *)

(** ** The category filter *)

Lemma starts_with_spec (p s : jsstring) :
  starts_with p s = true <-> exists post, s = p ++ post.
Proof.
  unfold starts_with. split.
  - destruct (strip_prefix p s) as [r|] eqn:H; [|discriminate].
    intros _. exists r. apply strip_prefix_app. exact H.
  - intros [post ->]. rewrite strip_prefix_self. reflexivity.
Qed.

Lemma includes_spec (s p : jsstring) :
  includes s p = true <-> substring_of p s.
Proof.
  induction s as [|c s IH]; simpl; rewrite orb_true_iff, starts_with_spec.
  - split.
    + intros [[post H]|H]; [|discriminate]. exists [], post. exact H.
    + intros (pre & post & H). left.
      destruct pre; [exists post; exact H | discriminate].
  - rewrite IH. split.
    + intros [[post H]|(pre & post & ->)].
      * exists [], post. exact H.
      * exists (c :: pre), post. reflexivity.
    + intros (pre & post & H). destruct pre as [|x pre].
      * left. exists post. exact H.
      * right. injection H as -> ->. exists pre, post. reflexivity.
Qed.

Lemma or_else_nil (s : jsstring) : or_else s [] = s.
Proof. destruct s; reflexivity. Qed.

Lemma matches_category_spec (E : Env) (category : jsstring)
  (v : VideoResult) :
  Category.matches_category E category v = true <->
  substring_of (toLowerCase E category) (toLowerCase E (class v))
  \/ substring_of (toLowerCase E category) (toLowerCase E (type_name v))
  \/ substring_of (toLowerCase E category) (toLowerCase E (title v)).
Proof.
  unfold Category.matches_category. rewrite !or_else_nil.
  rewrite !orb_true_iff, !includes_spec. tauto.
Qed.

Lemma category_source_filtered (E : Env) (w : World) (n : nat)
  (apiUrl sourceKey sourceName category : jsstring) (v : VideoResult) :
  category <> ALL ->
  In v (value_of (Category.fetchCategoryVideosFromApi E w n apiUrl
                    sourceKey sourceName category)) ->
  Category.matches_category E category v = true.
Proof.
  intros Hne. apply str_eqb_neq in Hne.
  unfold Category.fetchCategoryVideosFromApi, try_catch.
  destruct (fetch_list E w n apiUrl _) as [[|i items]|e];
    cbn [bind value_of In]; try tauto.
  rewrite Hne. cbn [negb value_of]. intros H.
  apply filter_In in H. apply H.
Qed.

(** X1: when the category route is asked for a category other than the
    all-category, every record of its answer carries the category, in
    lower case, inside its lower-cased class, type name or title. *)
Theorem X1_category_filter_sound (E : Env) (w : World)
  (category : option jsstring) (limit start : number) (c : jsstring)
  (v : VideoResult) :
  field_or category ALL = c -> c <> ALL ->
  In v (list_ (Category.GET E w category limit start)) ->
  substring_of (toLowerCase E c) (toLowerCase E (class v))
  \/ substring_of (toLowerCase E c) (toLowerCase E (type_name v))
  \/ substring_of (toLowerCase E c) (toLowerCase E (title v)).
Proof.
  intros Hc Hne Hin. apply matches_category_spec.
  rewrite category_list, Hc in Hin.
  destruct (getAvailableApiSites w) as [sites|e]; [|destruct Hin].
  apply page_incl in Hin. apply unique_by_incl in Hin.
  apply category_allVideos in Hin. apply in_flat_map in Hin.
  destruct Hin as (p & _ & Hin).
  eapply category_source_filtered; eassumption.
Qed.

(** X1 on a site that lists the title Dune twice, asked for dune. *)
Lemma X1_category_filter_witness :
  substring_of (lit "dune") (lit "")
  \/ substring_of (lit "dune") (lit "")
  \/ substring_of (lit "dune") (lit "dune").
Proof.
  apply (@X1_category_filter_sound sampleEnv world_repeat category_dune
           (Int 25) (Int 0) (lit "dune")
           (sample_video (lit "2") (lit "Dune") (lit "b.jpg") (lit "2021")
                         (lit "s1") (lit "S1"))).
  - reflexivity.
  - discriminate.
  - vm_compute. left. reflexivity.
Defined.

(** X2: asked for the all-category, the source query of the category
    route returns what the source query of the hot route returns for the
    same site, and the records the category route merges from the first
    three sites are the records the hot route merges. *)
Theorem X2_all_category_is_hot_query (E : Env) (w : World) (n : nat)
  (apiUrl sourceKey sourceName : jsstring) (sites : list ApiSite) :
  Category.fetchCategoryVideosFromApi E w n apiUrl sourceKey sourceName ALL
  = Hot.fetchHotVideosFromApi E w n apiUrl sourceKey sourceName
  /\ Category.allVideos_of E w (firstn 3 sites) ALL
     = Hot.allVideos_of E w sites.
Proof.
  assert (H : forall n a k nm,
             Category.fetchCategoryVideosFromApi E w n a k nm ALL
             = Hot.fetchHotVideosFromApi E w n a k nm).
  { intros n0 a k nm.
    unfold Category.fetchCategoryVideosFromApi, Hot.fetchHotVideosFromApi,
      Category.searchKeyword.
    change (str_eqb ALL ALL) with true. cbv iota.
    destruct (fetch_list E w n0 a _) as [[|i items]|e]; reflexivity. }
  split; [apply H|].
  unfold Category.allVideos_of, Hot.allVideos_of, Category.merged_of,
    Hot.merged_of, Category.results_of, Hot.results_of, mapi.
  assert (Hm : forall l i,
    mapi_from (fun k site =>
                 Category.fetchCategoryVideosFromApi E w k (api site)
                   (key site) (name site) ALL) i l
    = mapi_from (fun k site =>
                   Hot.fetchHotVideosFromApi E w k (api site) (key site)
                     (name site)) i l).
  { induction l as [|s l IH]; intros i; [reflexivity|].
    cbn [mapi_from]. rewrite H, IH. reflexivity. }
  rewrite Hm. reflexivity.
Qed.

(** ** The request headers *)

Lemma header_get_set (m : Headers) (k v k' : jsstring) :
  header_get (map_set m k v) k'
  = if str_eqb k' k then Some v else header_get m k'.
Proof.
  induction m as [|[k0 v0] m IH]; simpl; [reflexivity|].
  destruct (str_eqb k k0) eqn:Ek; simpl.
  - apply str_eqb_eq in Ek. subst k0.
    destruct (str_eqb k' k); reflexivity.
  - rewrite IH. destruct (str_eqb k' k0) eqn:E0; [|reflexivity].
    apply str_eqb_eq in E0. subst k0.
    rewrite (str_eqb_sym k' k), Ek. reflexivity.
Qed.

Lemma header_get_spread (base extra : Headers) (k : jsstring) :
  header_get (spread base extra) k
  = match entries_get extra k with
    | Some v => Some v
    | None => header_get base k
    end.
Proof.
  unfold spread, entries_get.
  induction extra as [|[k0 v0] extra IH] using rev_ind; [reflexivity|].
  rewrite fold_left_app, rev_app_distr. simpl.
  rewrite header_get_set. destruct (str_eqb k k0); [reflexivity | exact IH].
Qed.

(** X3: in the headers [fetchWithTimeout] sends, a header the caller
    supplies has the caller's value, also when it is one of the two
    defaults; a header the caller does not supply is the default
    [User-Agent] or [Accept], or absent. *)
Theorem X3_caller_headers_take_precedence (options : RequestInit)
  (k : jsstring) :
  header_get (fetchOptions options) k
  = match match headers options with
          | Some h => entries_get h k
          | None => None
          end with
    | Some v => Some v
    | None =>
        if str_eqb k (lit "User-Agent") then Some USER_AGENT
        else if str_eqb k (lit "Accept") then Some (lit "application/json")
        else None
    end.
Proof.
  unfold fetchOptions. rewrite header_get_spread.
  destruct (headers options) as [h|]; reflexivity.
Qed.

(** ** The status of the answer *)

(** X4: either route answers with code 500 in two cases and in no other:
    [getAvailableApiSites] throws, or the sites are known and the list of
    one of them is too long for the call of [push] that merges it.  The
    answer then carries the message of the error after the route's prefix
    and an empty list.  In every other case the code is 200. *)
Theorem X4_code_500_from_configuration_or_merge (E : Env) (w : World)
  (category : option jsstring) (limit start : number) :
  (code (Category.GET E w category limit start) = 500%Z
   <-> (exists e, getAvailableApiSites w = Throw e)
       \/ (exists sites,
             getAvailableApiSites w = Return sites
             /\ spreadable E (Category.results_of E w sites
                                (field_or category ALL)) = false))
  /\ (code (Hot.GET E w limit start) = 500%Z
      <-> (exists e, getAvailableApiSites w = Throw e)
          \/ (exists sites,
                getAvailableApiSites w = Return sites
                /\ spreadable E (Hot.results_of E w sites) = false))
  /\ (forall e, getAvailableApiSites w = Throw e ->
        Category.GET E w category limit start
        = {| code := 500; message := MSG_FAIL_CATEGORY ++ err_message e;
             list_ := [] |}
        /\ Hot.GET E w limit start
           = {| code := 500; message := MSG_FAIL_HOT ++ err_message e;
                list_ := [] |})
  /\ (forall sites, getAvailableApiSites w = Return sites ->
        (spreadable E (Category.results_of E w sites
                         (field_or category ALL)) = false ->
         Category.GET E w category limit start
         = {| code := 500;
              message := MSG_FAIL_CATEGORY ++ err_message (spread_error E);
              list_ := [] |})
        /\ (spreadable E (Hot.results_of E w sites) = false ->
            Hot.GET E w limit start
            = {| code := 500;
                 message := MSG_FAIL_HOT ++ err_message (spread_error E);
                 list_ := [] |}))
  /\ (code (Category.GET E w category limit start) = 200%Z
      \/ code (Category.GET E w category limit start) = 500%Z)
  /\ (code (Hot.GET E w limit start) = 200%Z
      \/ code (Hot.GET E w limit start) = 500%Z).
Proof.
  split; [|split; [|split; [|split; [|split]]]].
  - rewrite category_code.
    destruct (getAvailableApiSites w) as [sites|e0].
    + destruct (spreadable E _) eqn:Hfit.
      * split; [discriminate|].
        intros [[e H]|(l & H & Hl)]; [discriminate H|].
        injection H as <-. congruence.
      * split; [|reflexivity]. intros _. right. exists sites. auto.
    + split; [|reflexivity]. intros _. left. exists e0. reflexivity.
  - rewrite hot_code.
    destruct (getAvailableApiSites w) as [sites|e0].
    + destruct (spreadable E _) eqn:Hfit.
      * split; [discriminate|].
        intros [[e H]|(l & H & Hl)]; [discriminate H|].
        injection H as <-. congruence.
      * split; [|reflexivity]. intros _. right. exists sites. auto.
    + split; [|reflexivity]. intros _. left. exists e0. reflexivity.
  - intros e H. rewrite category_answer, hot_answer, H.
    split; reflexivity.
  - intros sites H. rewrite category_answer, hot_answer, H.
    split; intros Hfit; (destruct sites as [|s l]; [discriminate Hfit|]);
      cbn [length Nat.eqb]; rewrite Hfit; reflexivity.
  - rewrite category_code.
    destruct (getAvailableApiSites w) as [sites|e0]; [|auto].
    destruct (spreadable E _); auto.
  - rewrite hot_code.
    destruct (getAvailableApiSites w) as [sites|e0]; [|auto].
    destruct (spreadable E _); auto.
Qed.

(** ** Where a record comes from *)

Lemma combine_seq_In (A : Type) (l : list A) (i n : nat) (x : A) :
  In (n, x) (combine (seq i (length l)) l) ->
  (i <= n)%nat /\ nth_error l (n - i) = Some x.
Proof.
  revert i. induction l as [|y l IH]; intros i; simpl; [tauto|].
  intros [H|H].
  - injection H as <- <-. rewrite Nat.sub_diag. auto.
  - apply IH in H. destruct H as [Hle H]. split; [lia|].
    replace (n - i)%nat with (S (n - S i)) by lia. exact H.
Qed.

Lemma indexed_In (A : Type) (l : list A) (n : nat) (x : A) :
  In (n, x) (indexed l) -> nth_error l n = Some x.
Proof.
  intros H. apply combine_seq_In in H. destruct H as [_ H].
  rewrite Nat.sub_0_r in H. exact H.
Qed.

Lemma nth_error_firstn_Some (A : Type) (l : list A) (k n : nat) (x : A) :
  nth_error (firstn k l) n = Some x ->
  (n < k)%nat /\ nth_error l n = Some x.
Proof.
  revert k n. induction l as [|y l IH]; intros [|k] [|n]; simpl;
    try discriminate.
  - intros H. split; [lia | exact H].
  - intros H. apply IH in H. destruct H. split; [lia | assumption].
Qed.

Lemma normalized_kept_source (E : Env) (w : World) (n : nat)
  (sourceKey sourceName : jsstring) (items : list ApiSearchItem)
  (v : VideoResult) :
  In v (filter keep
          (mapi (fun j => normalize E w n j sourceKey sourceName) items)) ->
  source v = sourceKey /\ source_name v = sourceName.
Proof.
  intros H. apply filter_In in H. destruct H as [H _].
  apply mapi_from_In in H. destruct H as (j & item & _ & ->).
  split; reflexivity.
Qed.

Lemma category_source_of (E : Env) (w : World) (n : nat)
  (apiUrl sourceKey sourceName category : jsstring) (v : VideoResult) :
  In v (value_of (Category.fetchCategoryVideosFromApi E w n apiUrl
                    sourceKey sourceName category)) ->
  source v = sourceKey /\ source_name v = sourceName.
Proof.
  unfold Category.fetchCategoryVideosFromApi, try_catch.
  destruct (fetch_list E w n apiUrl _) as [[|i items]|e];
    cbn [bind value_of In]; try tauto.
  destruct (negb (str_eqb category ALL)); cbn [value_of]; intros H.
  - apply filter_In in H. destruct H as [H _].
    eapply normalized_kept_source. exact H.
  - eapply normalized_kept_source. exact H.
Qed.

Lemma hot_source_of (E : Env) (w : World) (n : nat)
  (apiUrl sourceKey sourceName : jsstring) (v : VideoResult) :
  In v (value_of (Hot.fetchHotVideosFromApi E w n apiUrl sourceKey
                    sourceName)) ->
  source v = sourceKey /\ source_name v = sourceName.
Proof.
  unfold Hot.fetchHotVideosFromApi, try_catch.
  destruct (fetch_list E w n apiUrl _) as [[|i items]|e];
    cbn [bind value_of In]; try tauto.
  intros H. eapply normalized_kept_source. exact H.
Qed.

(** X5: every record the category route returns names a configured site:
    its [source] and [source_name] are the key and the name of one site of
    the list [getAvailableApiSites] returned. *)
Theorem X5_category_records_name_a_site (E : Env) (w : World)
  (sites : list ApiSite) (category : option jsstring)
  (limit start : number) (v : VideoResult) :
  getAvailableApiSites w = Return sites ->
  In v (list_ (Category.GET E w category limit start)) ->
  exists n site, nth_error sites n = Some site
                 /\ source v = key site /\ source_name v = name site.
Proof.
  intros Hs Hin. rewrite category_list, Hs in Hin.
  apply page_incl in Hin. apply unique_by_incl in Hin.
  apply category_allVideos in Hin. apply in_flat_map in Hin.
  destruct Hin as ([n site] & Hp & Hin). simpl in Hin.
  exists n, site. split; [apply indexed_In; exact Hp|].
  eapply category_source_of. exact Hin.
Qed.

(** X5 on the three sample sites, of which only the third answers. *)
Lemma X5_category_records_witness :
  exists n site, nth_error [site1; site2; site3] n = Some site
                 /\ lit "s3" = key site /\ lit "S3" = name site.
Proof.
  apply (@X5_category_records_name_a_site sampleEnv world_partial
           [site1; site2; site3] None (Int 25) (Int 0)
           (sample_video (lit "5") (lit "Stalker") (lit "k.jpg")
                         (lit "1979") (lit "s3") (lit "S3"))).
  - reflexivity.
  - vm_compute. left. reflexivity.
Defined.

(** X6: the hot route asks the first three configured sites only: every
    record it returns has the key and the name of one of the first three
    sites as [source] and [source_name]. *)
Theorem X6_hot_records_name_one_of_three (E : Env) (w : World)
  (sites : list ApiSite) (limit start : number) (v : VideoResult) :
  getAvailableApiSites w = Return sites ->
  In v (list_ (Hot.GET E w limit start)) ->
  exists n site, (n < 3)%nat /\ nth_error sites n = Some site
                 /\ source v = key site /\ source_name v = name site.
Proof.
  intros Hs Hin. rewrite hot_list, Hs in Hin.
  apply page_incl in Hin. apply unique_by_incl in Hin.
  apply hot_allVideos in Hin. apply in_flat_map in Hin.
  destruct Hin as ([n site] & Hp & Hin). simpl in Hin.
  apply indexed_In, nth_error_firstn_Some in Hp. destruct Hp as [Hn Hp].
  exists n, site. split; [exact Hn|]. split; [exact Hp|].
  eapply hot_source_of. exact Hin.
Qed.

(** X6 on the three sample sites. *)
Lemma X6_hot_records_witness :
  exists n site, (n < 3)%nat /\ nth_error [site1; site2; site3] n = Some site
                 /\ lit "s3" = key site /\ lit "S3" = name site.
Proof.
  apply (@X6_hot_records_name_one_of_three sampleEnv world_partial
           [site1; site2; site3] (Int 20) (Int 0)
           (sample_video (lit "5") (lit "Stalker") (lit "k.jpg")
                         (lit "1979") (lit "s3") (lit "S3"))).
  - reflexivity.
  - vm_compute. left. reflexivity.
Defined.

(** ** The title *)

Lemma trim_start_head (s : jsstring) :
  match trim_start s with
  | c :: _ => is_space c = false
  | [] => True
  end.
Proof.
  induction s as [|c s IH]; simpl; [exact I|].
  destruct (is_space c) eqn:E; [exact IH | exact E].
Qed.

Lemma trim_start_suffix (s : jsstring) :
  exists p, s = p ++ trim_start s.
Proof.
  induction s as [|c s [p IH]]; simpl; [exists []; reflexivity|].
  destruct (is_space c).
  - exists (c :: p). simpl. rewrite <- IH. reflexivity.
  - exists []. reflexivity.
Qed.

Lemma trim_start_fixed (s : jsstring) :
  match s with c :: _ => is_space c = false | [] => True end ->
  trim_start s = s.
Proof. destruct s as [|c s]; simpl; [reflexivity|]. intros ->. reflexivity. Qed.

Lemma no_trailing_snoc (l : jsstring) (c : N) :
  no_trailing (l ++ [c]) = negb (is_space c).
Proof.
  induction l as [|x l IH]; simpl; [reflexivity|].
  destruct (l ++ [c]) eqn:E; [destruct l; discriminate | exact IH].
Qed.

Lemma no_trailing_rev (u : jsstring) :
  match u with c :: _ => is_space c = false | [] => True end ->
  no_trailing (rev u) = true.
Proof.
  destruct u as [|c u]; simpl; [reflexivity|].
  intros H. rewrite no_trailing_snoc, H. reflexivity.
Qed.

Lemma rev_head_no_trailing (t : jsstring) :
  no_trailing t = true ->
  match rev t with c :: _ => is_space c = false | [] => True end.
Proof.
  intros H. destruct (rev t) as [|c r] eqn:E; [exact I|].
  apply (f_equal (@rev _)) in E. rewrite rev_involutive in E. simpl in E.
  rewrite E, no_trailing_snoc in H. apply negb_true_iff. exact H.
Qed.

Lemma trim_head (s : jsstring) :
  match trim s with c :: _ => is_space c = false | [] => True end.
Proof.
  unfold trim. set (u := trim_start s).
  destruct (trim_start_suffix (rev u)) as [p Hp].
  set (v := trim_start (rev u)) in *.
  assert (Hu : u = rev v ++ rev p).
  { rewrite <- rev_app_distr, <- Hp, rev_involutive. reflexivity. }
  destruct (rev v) as [|c r] eqn:E; [exact I|].
  pose proof (trim_start_head s) as Hh. fold u in Hh.
  rewrite Hu in Hh. exact Hh.
Qed.

Lemma trim_no_trailing (s : jsstring) : no_trailing (trim s) = true.
Proof. unfold trim. apply no_trailing_rev, trim_start_head. Qed.

Lemma trim_fixed (t : jsstring) :
  match t with c :: _ => is_space c = false | [] => True end ->
  no_trailing t = true -> trim t = t.
Proof.
  intros Hh Ht. unfold trim. rewrite (trim_start_fixed _ Hh).
  rewrite trim_start_fixed by (apply rev_head_no_trailing; exact Ht).
  apply rev_involutive.
Qed.

Lemma collapse_head (t : jsstring) :
  match t with c :: _ => is_space c = false | [] => True end ->
  match collapse_spaces t with
  | c :: _ => is_space c = false
  | [] => True
  end.
Proof. destruct t as [|c t]; simpl; [auto|]. intros H. rewrite H. exact H. Qed.

Lemma collapse_spaces_inside (t : jsstring) :
  no_trailing t = true -> spaces_inside (collapse_spaces t) = true.
Proof.
  induction t as [|c t IH]; [reflexivity|]. intros Ht.
  assert (Htail : t <> [] -> no_trailing t = true).
  { intros Hne. simpl in Ht. destruct t; [congruence | exact Ht]. }
  cbn [collapse_spaces]. destruct (is_space c) eqn:Ec.
  - destruct t as [|d t'].
    + simpl in Ht. rewrite Ec in Ht. discriminate.
    + specialize (IH (Htail ltac:(discriminate))).
      destruct (is_space d) eqn:Ed; [exact IH|].
      cbn [spaces_inside]. change (is_space 32) with true. cbv iota.
      rewrite IH, andb_true_r. cbn [collapse_spaces]. rewrite Ed.
      simpl. rewrite Ed. reflexivity.
  - cbn [spaces_inside]. rewrite Ec. simpl.
    destruct t as [|d t']; [reflexivity|].
    apply IH, Htail. discriminate.
Qed.

Lemma spaces_inside_fixed (t : jsstring) :
  spaces_inside t = true -> collapse_spaces t = t.
Proof.
  induction t as [|c t IH]; [reflexivity|]. cbn [spaces_inside].
  intros H. apply andb_true_iff in H. destruct H as [Hc Ht].
  cbn [collapse_spaces]. rewrite (IH Ht).
  destruct (is_space c); [|reflexivity].
  apply andb_true_iff in Hc. destruct Hc as [Hc Hd].
  apply N.eqb_eq in Hc. subst c.
  destruct t as [|d t']; [discriminate|].
  apply negb_true_iff in Hd. rewrite Hd. reflexivity.
Qed.

Lemma spaces_inside_no_trailing (t : jsstring) :
  spaces_inside t = true -> no_trailing t = true.
Proof.
  induction t as [|c t IH]; [reflexivity|]. cbn [spaces_inside].
  intros H. apply andb_true_iff in H. destruct H as [Hc Ht].
  simpl. destruct t as [|d t']; [|apply IH; exact Ht].
  destruct (is_space c); [|reflexivity].
  rewrite andb_false_r in Hc. discriminate.
Qed.

Lemma normalized_title_normal (raw : jsstring) :
  title_normal (collapse_spaces (trim raw)) = true.
Proof.
  unfold title_normal. apply andb_true_iff. split.
  - pose proof (collapse_head _ (trim_head raw)) as H.
    destruct (collapse_spaces (trim raw)); [reflexivity|].
    rewrite H. reflexivity.
  - apply collapse_spaces_inside, trim_no_trailing.
Qed.

Lemma title_normal_fixed (t : jsstring) :
  title_normal t = true -> collapse_spaces (trim t) = t.
Proof.
  unfold title_normal. intros H. apply andb_true_iff in H.
  destruct H as [Hh Hs]. rewrite trim_fixed.
  - apply spaces_inside_fixed. exact Hs.
  - destruct t; [exact I|]. apply negb_true_iff. exact Hh.
  - apply spaces_inside_no_trailing. exact Hs.
Qed.

Lemma spaces_inside_spec (s pre post : jsstring) (c : N) :
  spaces_inside s = true -> s = pre ++ c :: post -> is_space c = true ->
  c = 32%N /\ exists d post', post = d :: post' /\ is_space d = false.
Proof.
  revert s. induction pre as [|x pre IH]; intros s Hs -> Hc.
  - cbn [app spaces_inside] in Hs. rewrite Hc in Hs.
    apply andb_true_iff in Hs. destruct Hs as [Hs _].
    apply andb_true_iff in Hs. destruct Hs as [H32 Hd].
    apply N.eqb_eq in H32. split; [exact H32|].
    destruct post as [|d post']; [discriminate|].
    exists d, post'. split; [reflexivity|]. apply negb_true_iff. exact Hd.
  - cbn [app spaces_inside] in Hs. apply andb_true_iff in Hs.
    destruct Hs as [_ Hs]. eapply IH; eauto.
Qed.

Lemma title_of_normalize (E : Env) (w : World) (n j : nat)
  (sourceKey sourceName : jsstring) (item : ApiSearchItem) :
  title_normal (title (normalize E w n j sourceKey sourceName item)) = true.
Proof.
  simpl. unfold field_or, or_else.
  destruct (vod_name item) as [raw|]; simpl; [|reflexivity].
  destruct (truthy (collapse_spaces (trim raw)));
    [apply normalized_title_normal | reflexivity].
Qed.

(** X7: the title of a normalised record is in normal form: it does not
    start with white space, and every white-space code unit in it is a
    plain space that stands between two code units that are no white
    space. *)
Theorem X7_title_is_trimmed_and_single_spaced (E : Env) (w : World)
  (n j : nat) (sourceKey sourceName : jsstring) (item : ApiSearchItem)
  (pre post : jsstring) (c : N) :
  title (normalize E w n j sourceKey sourceName item) = pre ++ c :: post ->
  is_space c = true ->
  c = 32%N
  /\ (exists pre' b, pre = pre' ++ [b] /\ is_space b = false)
  /\ (exists d post', post = d :: post' /\ is_space d = false).
Proof.
  intros Ht Hc.
  pose proof (title_of_normalize E w n j sourceKey sourceName item) as Hn.
  unfold title_normal in Hn. apply andb_true_iff in Hn.
  destruct Hn as [Hh Hs].
  destruct (@spaces_inside_spec _ _ _ _ Hs Ht Hc) as [H32 Hafter].
  split; [exact H32|]. split; [|exact Hafter].
  destruct (rev pre) as [|b r] eqn:Er.
  - apply (f_equal (@rev _)) in Er. rewrite rev_involutive in Er.
    simpl in Er. subst pre. cbn [app] in Ht. rewrite Ht in Hh.
    rewrite Hc in Hh. discriminate.
  - apply (f_equal (@rev _)) in Er. rewrite rev_involutive in Er.
    simpl in Er. exists (rev r), b. split; [exact Er|].
    destruct (is_space b) eqn:Eb; [|reflexivity].
    assert (Ht' : title (normalize E w n j sourceKey sourceName item)
                  = rev r ++ b :: c :: post).
    { rewrite Ht, Er, <- app_assoc. reflexivity. }
    destruct (@spaces_inside_spec _ _ _ _ Hs Ht' Eb)
      as [_ (d & p' & Hd & Hd')].
    injection Hd as <- _. congruence.
Qed.

(** X7 on a raw title with blanks around and a tab inside. *)
Lemma X7_title_witness :
  lit "a b" = lit "a" ++ 32%N :: lit "b" /\
  (32%N = 32%N
   /\ (exists pre' b, lit "a" = pre' ++ [b] /\ is_space b = false)
   /\ (exists d post', lit "b" = d :: post' /\ is_space d = false)).
Proof.
  split; [reflexivity|].
  apply (@X7_title_is_trimmed_and_single_spaced sampleEnv world_partial
           0 0 (lit "s1") (lit "S1")
           {| vod_id := None; vod_name := Some [32; 97; 9; 32; 98; 10]%N;
              vod_pic := None; vod_play_url := None; vod_class := None;
              vod_year := None; vod_content := None;
              item_type_name := None |}
           (lit "a") (lit "b") 32%N).
  - vm_compute. reflexivity.
  - reflexivity.
Defined.

(** X8: normalising a normalised title again changes nothing: trimming
    and collapsing the title of a normalised record gives that title
    back. *)
Theorem X8_title_normalisation_idempotent (E : Env) (w : World)
  (n j : nat) (sourceKey sourceName : jsstring) (item : ApiSearchItem) :
  let t := title (normalize E w n j sourceKey sourceName item) in
  collapse_spaces (trim t) = t
  /\ forall raw, collapse_spaces (trim (collapse_spaces (trim raw)))
                 = collapse_spaces (trim raw).
Proof.
  split.
  - apply title_normal_fixed, title_of_normalize.
  - intros raw. apply title_normal_fixed, normalized_title_normal.
Qed.

(** ** The shape of an episode URL *)

Lemma lazy_body_shape (s b : jsstring) :
  lazy_body s = Some b ->
  exists mid, b = mid ++ lit ".m3u8" /\ forallb url_char mid = true.
Proof.
  revert b. induction s as [|c s IH]; intros b H; [discriminate|].
  cbn [lazy_body] in H.
  destruct (strip_prefix (lit ".m3u8") (c :: s)) as [r|].
  - assert (b = lit ".m3u8") as -> by congruence.
    exists []. split; reflexivity.
  - destruct (url_char c) eqn:Hc; [|discriminate].
    destruct (lazy_body s) as [b'|]; [|discriminate].
    assert (b = c :: b') as -> by (unfold option_map in H; congruence).
    destruct (IH _ eq_refl) as (mid & -> & Hmid).
    exists (c :: mid). split; [reflexivity|]. simpl. rewrite Hc. exact Hmid.
Qed.

Lemma after_scheme_shape (s b : jsstring) :
  after_scheme s = Some b ->
  exists mid, b = lit "://" ++ mid ++ lit ".m3u8" /\ mid <> []
              /\ forallb url_char mid = true.
Proof.
  unfold after_scheme. intros H.
  destruct (strip_prefix (lit "://") s) as [[|c r]|]; try discriminate.
  destruct (url_char c) eqn:Hc; [|discriminate].
  destruct (lazy_body r) as [b0|] eqn:Hb; [|discriminate].
  assert (b = lit "://" ++ c :: b0) as ->
    by (unfold option_map in H; congruence).
  destruct (lazy_body_shape _ Hb) as (mid & -> & Hmid).
  exists (c :: mid). split; [reflexivity|]. split; [discriminate|].
  simpl. rewrite Hc. exact Hmid.
Qed.

Lemma match_at_shape (s m : jsstring) :
  match_at s = Some m ->
  exists scheme mid,
    (scheme = lit "http://" \/ scheme = lit "https://")
    /\ m = 36%N :: scheme ++ mid ++ lit ".m3u8"
    /\ mid <> [] /\ forallb url_char mid = true.
Proof.
  unfold match_at. intros H.
  destruct (strip_prefix (lit "$http") s) as [r|]; [|discriminate].
  destruct (optional_s r) as [b|] eqn:Hb; [|discriminate].
  assert (m = lit "$http" ++ b) as ->
    by (unfold option_map in H; congruence).
  assert (Hplain : forall r0, after_scheme r0 = Some b ->
    exists scheme mid,
      (scheme = lit "http://" \/ scheme = lit "https://")
      /\ lit "$http" ++ b = 36%N :: scheme ++ mid ++ lit ".m3u8"
      /\ mid <> [] /\ forallb url_char mid = true).
  { intros r0 H0. destruct (after_scheme_shape _ H0) as (mid & -> & Hm).
    exists (lit "http://"), mid. split; [auto|]. split; [reflexivity|].
    exact Hm. }
  unfold optional_s in Hb. destruct r as [|c r']; [eapply Hplain; eauto|].
  destruct (N.eqb_spec c 115) as [->|_]; [|eapply Hplain; eauto].
  destruct (after_scheme r') as [b'|] eqn:Hb'; [|eapply Hplain; eauto].
  assert (b = 115%N :: b') as -> by congruence.
  destruct (after_scheme_shape _ Hb') as (mid & -> & Hm).
  exists (lit "https://"), mid. split; [auto|]. split; [reflexivity|].
  exact Hm.
Qed.

Lemma indexOf_app (a b : jsstring) (c : N) :
  ~ In c a ->
  indexOf (a ++ b) c
  = if (indexOf b c <? 0)%Z then (-1)%Z
    else (Z.of_nat (length a) + indexOf b c)%Z.
Proof.
  induction a as [|x a IH]; intros Ha.
  - simpl. destruct (indexOf b c <? 0)%Z eqn:E; [|reflexivity].
    apply Z.ltb_lt in E.
    assert (Hb : forall s, (-1 <= indexOf s c)%Z).
    { induction s as [|y s IHs]; simpl; [lia|].
      destruct (N.eqb y c); [lia|].
      destruct (indexOf s c <? 0)%Z eqn:F; [lia|].
      apply Z.ltb_ge in F. lia. }
    specialize (Hb b). lia.
  - cbn [app indexOf length]. simpl in Ha.
    destruct (N.eqb_spec x c) as [->|_]; [tauto|].
    rewrite IH by tauto.
    destruct (indexOf b c <? 0)%Z eqn:E; [reflexivity|].
    apply Z.ltb_ge in E.
    destruct (Z.of_nat (length a) + indexOf b c <? 0)%Z eqn:F;
      [apply Z.ltb_lt in F; lia | lia].
Qed.

Lemma indexOf_found (s : jsstring) (c : N) :
  (0 <= indexOf s c)%Z ->
  ~ In c (firstn (Z.to_nat (indexOf s c)) s)
  /\ (Z.to_nat (indexOf s c) < length s)%nat.
Proof.
  induction s as [|x s IH]; simpl; [lia|].
  destruct (N.eqb_spec x c) as [->|Hx].
  - intros _. simpl. split; [tauto | lia].
  - destruct (indexOf s c <? 0)%Z eqn:F; [lia|].
    apply Z.ltb_ge in F. intros _. destruct (IH F) as [Hn Hl].
    replace (Z.to_nat (indexOf s c + 1)) with (S (Z.to_nat (indexOf s c)))
      by lia.
    simpl. split; [intuition congruence | lia].
Qed.

Lemma indexOf_absent_iff (s : jsstring) (c : N) :
  (indexOf s c < 0)%Z -> ~ In c s.
Proof.
  induction s as [|x s IH]; simpl; [tauto|].
  destruct (N.eqb_spec x c) as [->|Hx]; [lia|].
  destruct (indexOf s c <? 0)%Z eqn:F; [|apply Z.ltb_ge in F; lia].
  apply Z.ltb_lt in F. intros _ [H|H]; [congruence | exact (IH F H)].
Qed.

(** What [clean_link] makes of a match: the scheme and what follows it up
    to the first parenthesis, or all of it. *)
Lemma clean_link_shape (scheme mid : jsstring) :
  (scheme = lit "http://" \/ scheme = lit "https://") ->
  exists rest,
    clean_link (36%N :: scheme ++ mid ++ lit ".m3u8") = scheme ++ rest
    /\ ~ In 40%N rest
    /\ (exists post, mid ++ lit ".m3u8" = rest ++ post)
    /\ (~ In 40%N mid -> rest = mid ++ lit ".m3u8").
Proof.
  intros Hs.
  assert (Hscheme : ~ In 40%N scheme).
  { destruct Hs as [-> | ->]; simpl; intuition discriminate. }
  unfold clean_link, substring_from1, substring_to. cbn [tl].
  rewrite indexOf_app by exact Hscheme.
  set (body := mid ++ lit ".m3u8").
  destruct (indexOf body 40 <? 0)%Z eqn:E.
  - apply Z.ltb_lt in E. exists body. change (-1 >? 0)%Z with false.
    split; [reflexivity|]. split; [apply indexOf_absent_iff; exact E|].
    split; [exists []; rewrite app_nil_r; reflexivity | reflexivity].
  - apply Z.ltb_ge in E. destruct (indexOf_found _ _ E) as [Hn Hl].
    assert (Hlen : (0 < length scheme)%nat)
      by (destruct Hs as [-> | ->]; simpl; lia).
    replace (Z.of_nat (length scheme) + indexOf body 40 >? 0)%Z with true
      by (symmetry; apply Z.gtb_lt; lia).
    replace (Z.to_nat (Z.of_nat (length scheme) + indexOf body 40))
      with (length scheme + Z.to_nat (indexOf body 40))%nat by lia.
    rewrite firstn_app_2.
    exists (firstn (Z.to_nat (indexOf body 40)) body).
    split; [reflexivity|]. split; [exact Hn|]. split.
    + exists (skipn (Z.to_nat (indexOf body 40)) body).
      symmetry. apply firstn_skipn.
    + intros Hmid. exfalso.
      assert (Hin : In 40%N body).
      { rewrite <- (firstn_skipn (Z.to_nat (indexOf body 40)) body).
        apply in_or_app. right.
        clear - E. induction body as [|x s IH]; simpl in *; [lia|].
        destruct (N.eqb_spec x 40) as [->|Hx]; [simpl; auto|].
        destruct (indexOf s 40 <? 0)%Z eqn:F; [lia|].
        apply Z.ltb_ge in F.
        replace (Z.to_nat (indexOf s 40 + 1))
          with (S (Z.to_nat (indexOf s 40))) by lia.
        simpl. apply IH. exact F. }
      unfold body in Hin. apply in_app_or in Hin.
      destruct Hin as [Hin|Hin]; [exact (Hmid Hin)|].
      simpl in Hin. intuition discriminate.
Qed.

Lemma extract_In (field u : jsstring) :
  In u (extract_episodes (Some field)) ->
  exists m, In m (selected field) /\ u = clean_link m
            /\ match_at m = Some m.
Proof.
  rewrite extract_selected. intros H. apply in_map_iff in H.
  destruct H as (m & <- & Hm). exists m. split; [exact Hm|].
  split; [reflexivity|]. apply (selected_In _ _ Hm).
Qed.

Lemma url_chars_of_prefix (mid rest post : jsstring) :
  forallb url_char mid = true -> mid ++ lit ".m3u8" = rest ++ post ->
  forall c, In c rest -> url_char c = true.
Proof.
  intros Hmid Heq c Hc.
  assert (Hall : forallb url_char (mid ++ lit ".m3u8") = true).
  { rewrite forallb_app, Hmid. reflexivity. }
  rewrite Heq, forallb_app in Hall. apply andb_true_iff in Hall.
  destruct Hall as [Hall _].
  rewrite forallb_forall in Hall. apply Hall. exact Hc.
Qed.

(** X9: every episode URL of a normalised record starts with [http://]
    or [https://], holds no opening parenthesis, and holds no double
    quote, single quote or white space. *)
Theorem X9_episode_urls_are_clean (E : Env) (w : World) (n j : nat)
  (sourceKey sourceName : jsstring) (item : ApiSearchItem) (u : jsstring) :
  In u (episodes (normalize E w n j sourceKey sourceName item)) ->
  (exists rest, u = lit "http://" ++ rest \/ u = lit "https://" ++ rest)
  /\ ~ In 40%N u
  /\ (forall c, In c u ->
        c <> 34%N /\ c <> 39%N /\ is_space c = false).
Proof.
  cbn [episodes normalize]. intros Hu.
  destruct (vod_play_url item) as [field|]; [|destruct Hu].
  apply extract_In in Hu. destruct Hu as (m & _ & -> & Hm).
  destruct (match_at_shape _ Hm) as (scheme & mid & Hs & -> & _ & Hmid).
  destruct (clean_link_shape mid Hs) as (rest & -> & Hno & [post Hp] & _).
  assert (Hchars : forall c, In c (scheme ++ rest) -> url_char c = true).
  { intros c Hc. apply in_app_or in Hc. destruct Hc as [Hc|Hc].
    - destruct Hs as [-> | ->]; simpl in Hc;
        repeat (destruct Hc as [<-|Hc]; [reflexivity|]); destruct Hc.
    - eapply url_chars_of_prefix; eassumption. }
  split; [|split].
  - exists rest. destruct Hs as [-> | ->]; auto.
  - intros Hin. apply in_app_or in Hin. destruct Hin as [Hin|Hin];
      [|exact (Hno Hin)].
    destruct Hs as [-> | ->]; simpl in Hin; intuition discriminate.
  - intros c Hc. specialize (Hchars c Hc). unfold url_char in Hchars.
    apply negb_true_iff in Hchars.
    apply orb_false_iff in Hchars. destruct Hchars as [Hq Hsp].
    apply orb_false_iff in Hq. destruct Hq as [H34 H39].
    apply N.eqb_neq in H34, H39. auto.
Qed.

(** X9 on the scenario of the two annotated URLs. *)
Lemma X9_episode_urls_witness :
  (exists rest, lit "https://a.com/2.m3u8" = lit "http://" ++ rest
                \/ lit "https://a.com/2.m3u8" = lit "https://" ++ rest)
  /\ ~ In 40%N (lit "https://a.com/2.m3u8")
  /\ (forall c, In c (lit "https://a.com/2.m3u8") ->
        c <> 34%N /\ c <> 39%N /\ is_space c = false).
Proof.
  apply (@X9_episode_urls_are_clean sampleEnv world_partial 0 0
           (lit "s1") (lit "S1")
           {| vod_id := None; vod_name := None; vod_pic := None;
              vod_play_url := Some scenario_field; vod_class := None;
              vod_year := None; vod_content := None;
              item_type_name := None |}
           (lit "https://a.com/2.m3u8")).
  vm_compute. right. left. reflexivity.
Defined.

Lemma NoDup_map_in (A B : Type) (f : A -> B) (l : list A) :
  (forall x y, In x l -> In y l -> f x = f y -> x = y) ->
  NoDup l -> NoDup (map f l).
Proof.
  induction l as [|a l IH]; intros Hinj Hnd; simpl; [constructor|].
  inversion_clear Hnd as [|? ? Ha Hl]. constructor.
  - intros Hin. apply in_map_iff in Hin. destruct Hin as (b & Hb & Hin).
    apply Ha. rewrite (Hinj a b); simpl; auto.
  - apply IH; [|exact Hl]. intros x y Hx Hy. apply Hinj; simpl; auto.
Qed.

(** X10: when no matched text of the chosen group holds an opening
    parenthesis, the episodes of a playback field are pairwise distinct,
    and each of them ends in [.m3u8] after the scheme and at least one
    more code unit. *)
Theorem X10_episodes_distinct_without_parenthesis (field : jsstring) :
  (forall m, In m (selected field) -> ~ In 40%N m) ->
  NoDup (extract_episodes (Some field))
  /\ forall u, In u (extract_episodes (Some field)) ->
       exists scheme mid,
         (scheme = lit "http://" \/ scheme = lit "https://")
         /\ mid <> [] /\ u = scheme ++ mid ++ lit ".m3u8".
Proof.
  intros Hparen.
  assert (Hclean : forall m, In m (selected field) ->
            exists scheme mid,
              (scheme = lit "http://" \/ scheme = lit "https://")
              /\ mid <> [] /\ m = 36%N :: clean_link m
              /\ clean_link m = scheme ++ mid ++ lit ".m3u8").
  { intros m Hm. destruct (selected_In _ _ Hm) as [_ Hself].
    destruct (match_at_shape _ Hself) as (scheme & mid & Hs & -> & Hne & _).
    destruct (clean_link_shape mid Hs) as (rest & Hc & _ & _ & Hrest).
    rewrite Hrest in Hc.
    - exists scheme, mid. rewrite Hc. auto.
    - intros Hin. apply (Hparen _ Hm). right.
      apply in_or_app. right. apply in_or_app. left. exact Hin. }
  rewrite extract_selected. split.
  - apply NoDup_map_in.
    + intros x y Hx Hy Heq.
      destruct (Hclean _ Hx) as (_ & _ & _ & _ & Ex & _).
      destruct (Hclean _ Hy) as (_ & _ & _ & _ & Ey & _).
      rewrite Ex, Ey, Heq. reflexivity.
    + rewrite selected_spec. apply dedup_first_NoDup.
  - intros u Hu. apply in_map_iff in Hu. destruct Hu as (m & <- & Hm).
    destruct (Hclean _ Hm) as (scheme & mid & Hs & Hne & _ & Hc).
    exists scheme, mid. auto.
Qed.

(** X10 on the scenario of the two annotated URLs. *)
Lemma X10_episodes_distinct_witness :
  NoDup (extract_episodes (Some scenario_field)).
Proof.
  apply (@X10_episodes_distinct_without_parenthesis scenario_field).
  intros m Hm.
  assert (Hsel : selected scenario_field
                 = [lit "$https://a.com/1.m3u8"; lit "$https://a.com/2.m3u8"])
    by (vm_compute; reflexivity).
  rewrite Hsel in Hm. destruct Hm as [<-|[<-|[]]];
    vm_compute; intuition discriminate.
Defined.

(** ** The page of the answer, whatever the numbers *)

Lemma slice_segment (A : Type) (l : list A) (a b : number) :
  exists pre post, l = pre ++ slice l a b ++ post.
Proof.
  unfold slice.
  set (k := Z.to_nat (relative_index _ a)).
  set (n := Z.to_nat _).
  exists (firstn k l), (skipn n (skipn k l)).
  rewrite firstn_skipn, firstn_skipn. reflexivity.
Qed.

Lemma slice_length_bound (A : Type) (l : list A) (start limit : Z) :
  (0 <= limit)%Z ->
  (length (slice l (Int start) (num_add (Int start) (Int limit)))
   <= Z.to_nat limit)%nat.
Proof.
  intros Hl. unfold slice, relative_index. cbn [num_add].
  rewrite length_firstn.
  set (len := Z.of_nat (length l)).
  assert (Hlen : (0 <= len)%Z) by (unfold len; lia).
  etransitivity; [apply Nat.le_min_l|].
  destruct (start <? 0)%Z eqn:E1; destruct (start + limit <? 0)%Z eqn:E2;
    try apply Z.ltb_lt in E1; try apply Z.ltb_lt in E2;
    try apply Z.ltb_ge in E1; try apply Z.ltb_ge in E2; lia.
Qed.

Lemma slice_nan (A : Type) (l : list A) (a b : number) :
  a = NaN \/ b = NaN -> slice l a (num_add a b) = [].
Proof.
  intros H. unfold slice.
  assert (Hend : num_add a b = NaN).
  { destruct a as [|x|s]; [reflexivity|..];
      (destruct b as [|y|t]; [reflexivity|..]);
      destruct H as [H|H]; discriminate H. }
  rewrite Hend. unfold relative_index at 1.
  assert (Hk : (0 <= relative_index (Z.of_nat (length l)) a)%Z).
  { unfold relative_index. destruct a as [|z|[|]]; try lia.
    destruct (z <? 0)%Z eqn:E; [lia|]. apply Z.ltb_ge in E. lia. }
  replace (Z.to_nat (Z.max (0 - _) 0)) with 0%nat by lia. reflexivity.
Qed.

(** X11: whatever [start] and [limit] are (negative, or no number), the
    list of either route is a run of consecutive records of the shuffled
    sequence: the page invents no record and keeps their order. *)
Theorem X11_page_is_a_segment (E : Env) (w : World) (sites : list ApiSite)
  (category : option jsstring) (limit start : number) :
  getAvailableApiSites w = Return sites ->
  (exists pre post,
     Category.shuffled_of E w sites (field_or category ALL)
     = pre ++ list_ (Category.GET E w category limit start) ++ post)
  /\ (exists pre post,
        Hot.shuffled_of E w sites
        = pre ++ list_ (Hot.GET E w limit start) ++ post).
Proof.
  intros Hs. rewrite category_list, hot_list, Hs.
  split; apply slice_segment.
Qed.

(** X11 on three records and the page from the end that a negative start
    selects. *)
Lemma X11_page_segment_witness :
  exists pre post,
    Category.shuffled_of sampleEnv world_three [site1] (field_or None ALL)
    = pre ++ list_ (Category.GET sampleEnv world_three None (Int 1)
                                 (Int (-2))) ++ post.
Proof.
  apply (@X11_page_is_a_segment sampleEnv world_three [site1] None
           (Int 1) (Int (-2)) eq_refl).
Defined.

(** X12: with a limit that is not negative, neither route returns more
    than [limit] records, whatever the start is; and when the start or the
    limit is no number the list is empty. *)
Theorem X12_page_never_exceeds_limit (E : Env) (w : World)
  (category : option jsstring) (start limit : Z) (a b : number) :
  (0 <= limit)%Z ->
  (length (list_ (Category.GET E w category (Int limit) (Int start)))
   <= Z.to_nat limit)%nat
  /\ (length (list_ (Hot.GET E w (Int limit) (Int start)))
      <= Z.to_nat limit)%nat
  /\ (a = NaN \/ b = NaN ->
      list_ (Category.GET E w category b a) = []
      /\ list_ (Hot.GET E w b a) = []).
Proof.
  intros Hl. rewrite !category_list, !hot_list.
  destruct (getAvailableApiSites w) as [sites|e].
  - split; [apply slice_length_bound; exact Hl|].
    split; [apply slice_length_bound; exact Hl|].
    intros H. split; apply slice_nan; exact H.
  - simpl. repeat split; try lia; reflexivity.
Qed.

(** X12 on three records, a limit of two and a start of minus three. *)
Lemma X12_page_limit_witness :
  (length (list_ (Category.GET sampleEnv world_three None (Int 2)
                               (Int (-3)))) <= 2)%nat.
Proof.
  apply (@X12_page_never_exceeds_limit sampleEnv world_three None
           (-3)%Z 2%Z NaN NaN). lia.
Defined.

(** ** More on the deduplication *)

Lemma map_set_fresh (V : Type) (m : list (jsstring * V)) k v :
  ~ In k (map fst m) -> map_set m k v = m ++ [(k, v)].
Proof.
  induction m as [|[k0 v0] m IH]; simpl; intros H; [reflexivity|].
  destruct (str_eqb k k0) eqn:Ek.
  - apply str_eqb_eq in Ek. subst k0. tauto.
  - rewrite IH by tauto. reflexivity.
Qed.

Lemma new_map_distinct (V : Type) (es : list (jsstring * V)) :
  NoDup (map fst es) -> new_map es = es.
Proof.
  induction es as [|[k v] es IH] using rev_ind; intros H; [reflexivity|].
  rewrite map_app in H. simpl in H.
  rewrite new_map_snoc, IH by (eapply NoDup_app_remove_r; exact H).
  apply map_set_fresh. intros Hin.
  apply NoDup_remove_2 in H. rewrite app_nil_r in H. exact (H Hin).
Qed.

Lemma dedup_first_length (l : list jsstring) :
  (length (dedup_first l) <= length l)%nat.
Proof.
  induction l as [|x l IH]; simpl; [lia|].
  pose proof (filter_length_le (fun y => negb (str_eqb x y))
                               (dedup_first l)). lia.
Qed.

Section DedupMore.
Variable key_of : VideoResult -> jsstring.

Local Abbreviation unique_by l :=
  (map_values (new_map (map (fun video => (key_of video, video)) l))).

Lemma unique_by_distinct (l : list VideoResult) :
  NoDup (map key_of l) -> unique_by l = l.
Proof.
  intros H. rewrite new_map_distinct.
  - unfold map_values. rewrite map_map. simpl. apply map_id.
  - rewrite map_map. simpl. exact H.
Qed.

Lemma unique_by_idempotent (l : list VideoResult) :
  unique_by (unique_by l) = unique_by l.
Proof. apply unique_by_distinct, unique_by_NoDup. Qed.

Lemma unique_by_covers (l : list VideoResult) (v : VideoResult) :
  In v l -> exists v', In v' (unique_by l) /\ key_of v' = key_of v.
Proof.
  intros H. apply (in_map key_of) in H.
  apply dedup_first_In in H. rewrite <- unique_by_keys in H.
  apply in_map_iff in H. destruct H as (v' & Hk & Hin). eauto.
Qed.

Lemma unique_by_length (l : list VideoResult) :
  (length (unique_by l) <= length l)%nat.
Proof.
  rewrite <- (length_map key_of (unique_by l)), unique_by_keys.
  rewrite <- (length_map key_of l). apply dedup_first_length.
Qed.

Lemma unique_by_one_per_key (l : list VideoResult) (v1 v2 : VideoResult) :
  In v1 (unique_by l) -> In v2 (unique_by l) ->
  key_of v1 = key_of v2 -> v1 = v2.
Proof.
  pose proof (unique_by_NoDup key_of l) as Hnd.
  induction (unique_by l) as [|x u IH]; simpl; [tauto|].
  simpl in Hnd. inversion_clear Hnd as [|? ? Hx Hu].
  intros [<-|H1] [<-|H2] Hk; auto.
  - exfalso. apply Hx. rewrite Hk. apply in_map. exact H2.
  - exfalso. apply Hx. rewrite <- Hk. apply in_map. exact H1.
Qed.
End DedupMore.

(** X13: the deduplication of either route loses no key and is
    idempotent: records whose keys are all different pass unchanged and in
    order, deduplicating twice is deduplicating once, every record of the
    input has a record of its key in the output, and the output is no
    longer than the input. *)
Theorem X13_dedup_lossless_and_idempotent (E : Env)
  (allVideos : list VideoResult) :
  (NoDup (map (Category.dedup_key E) allVideos) ->
   Category.uniqueVideos E allVideos = allVideos)
  /\ (NoDup (map (Hot.dedup_key E) allVideos) ->
      Hot.uniqueVideos E allVideos = allVideos)
  /\ Category.uniqueVideos E (Category.uniqueVideos E allVideos)
     = Category.uniqueVideos E allVideos
  /\ Hot.uniqueVideos E (Hot.uniqueVideos E allVideos)
     = Hot.uniqueVideos E allVideos
  /\ (forall v, In v allVideos ->
        (exists v', In v' (Category.uniqueVideos E allVideos)
                    /\ Category.dedup_key E v' = Category.dedup_key E v)
        /\ (exists v', In v' (Hot.uniqueVideos E allVideos)
                       /\ Hot.dedup_key E v' = Hot.dedup_key E v))
  /\ (length (Category.uniqueVideos E allVideos) <= length allVideos)%nat
  /\ (length (Hot.uniqueVideos E allVideos) <= length allVideos)%nat.
Proof.
  split; [apply unique_by_distinct|]. split; [apply unique_by_distinct|].
  split; [apply unique_by_idempotent|].
  split; [apply unique_by_idempotent|].
  split; [|split; apply unique_by_length].
  intros v Hv. split; apply unique_by_covers; exact Hv.
Qed.

(** X14: the hot route keeps one record for each combination of
    lower-cased title, year and class, whatever the sources: two records
    of its deduplicated set that agree on the three are the same record,
    and the record kept for a key is the last of that key in the merged
    list. *)
Theorem X14_hot_dedup_across_sources (E : Env)
  (allVideos : list VideoResult) (v1 v2 : VideoResult) :
  In v1 (Hot.uniqueVideos E allVideos) ->
  In v2 (Hot.uniqueVideos E allVideos) ->
  toLowerCase E (title v1) = toLowerCase E (title v2) ->
  year v1 = year v2 -> class v1 = class v2 ->
  v1 = v2
  /\ exists before after,
       allVideos = before ++ v1 :: after
       /\ forall v', In v' after ->
            Hot.dedup_key E v' <> Hot.dedup_key E v1.
Proof.
  intros H1 H2 Ht Hy Hc. split.
  - apply (unique_by_one_per_key (Hot.dedup_key E) allVideos); auto.
    unfold Hot.dedup_key. rewrite Ht, Hy, Hc. reflexivity.
  - destruct (unique_by_last _ _ _ H1) as (l1 & l2 & Hl & Hk).
    exists l1, l2. split; [exact Hl|].
    intros v' Hv' Heq. apply Hk. rewrite <- Heq. apply in_map. exact Hv'.
Qed.

(** X14 on the same title listed by two sources. *)
Lemma X14_hot_dedup_witness :
  sample_video (lit "2") (lit "Dune") (lit "b.jpg") (lit "2021")
               (lit "s2") (lit "S2")
  = sample_video (lit "2") (lit "Dune") (lit "b.jpg") (lit "2021")
                 (lit "s2") (lit "S2")
  /\ exists before after,
       [sample_video (lit "1") (lit "dune") (lit "a.jpg") (lit "2021")
                     (lit "s1") (lit "S1");
        sample_video (lit "2") (lit "Dune") (lit "b.jpg") (lit "2021")
                     (lit "s2") (lit "S2")]
       = before
         ++ sample_video (lit "2") (lit "Dune") (lit "b.jpg") (lit "2021")
                         (lit "s2") (lit "S2") :: after
       /\ forall v', In v' after ->
            Hot.dedup_key sampleEnv v'
            <> Hot.dedup_key sampleEnv
                 (sample_video (lit "2") (lit "Dune") (lit "b.jpg")
                               (lit "2021") (lit "s2") (lit "S2")).
Proof.
  apply (@X14_hot_dedup_across_sources sampleEnv
           [sample_video (lit "1") (lit "dune") (lit "a.jpg") (lit "2021")
                         (lit "s1") (lit "S1");
            sample_video (lit "2") (lit "Dune") (lit "b.jpg") (lit "2021")
                         (lit "s2") (lit "S2")]);
    try reflexivity; vm_compute; left; reflexivity.
Defined.

(** ** Doubles *)

Lemma exponent_below (x : Q) (j : Z) :
  (0 < Qnum x)%Z -> (0 <= j)%Z -> (Qnum x < 2 ^ j * Zpos (Qden x))%Z ->
  (exponent x < j)%Z.
Proof.
  intros Hn Hj Hlt. unfold exponent.
  set (n := Qnum x) in *. set (d := Zpos (Qden x)) in *.
  assert (Hd : (0 < d)%Z) by (unfold d; lia).
  assert (He : (Z.log2 n - Z.log2 d <= j)%Z).
  { pose proof (Z.log2_nonneg d) as Hld.
    destruct (Z.log2_spec d Hd) as [_ Hhi].
    assert (Hn2 : (n < 2 ^ (j + Z.succ (Z.log2 d)))%Z).
    { rewrite Z.pow_add_r by lia.
      eapply Z.lt_le_trans; [exact Hlt|].
      apply Z.mul_le_mono_nonneg_l; [apply Z.pow_nonneg|]; lia. }
    apply Z.log2_lt_pow2 in Hn2; lia. }
  destruct (pow2_le _ x) eqn:Hp; [|lia].
  destruct (Z.eq_dec (Z.log2 n - Z.log2 d) j) as [Heq|]; [|lia].
  exfalso. unfold pow2_le in Hp. rewrite Heq in Hp.
  fold n d in Hp.
  destruct (0 <=? j)%Z eqn:Hj'; [|apply Z.leb_gt in Hj'; lia].
  apply Z.leb_le in Hp. lia.
Qed.

Lemma scale_up (x : Q) (k : Z) :
  (0 <= k)%Z -> scale x k == x * inject_Z (2 ^ k).
Proof.
  intros Hk. unfold scale.
  destruct (0 <=? k)%Z eqn:E; [reflexivity|]. apply Z.leb_gt in E. lia.
Qed.

Lemma scale_down (x : Q) (k : Z) :
  (k <= 0)%Z -> scale x k == x / inject_Z (2 ^ (- k)).
Proof.
  intros Hk. unfold scale.
  destruct (0 <=? k)%Z eqn:E; [|reflexivity]. apply Z.leb_le in E.
  replace k with 0%Z by lia. simpl. field.
Qed.

Lemma round_half_even_comp (x y : Q) :
  x == y -> round_half_even x = round_half_even y.
Proof.
  intros H. unfold round_half_even. rewrite (Qfloor_comp _ _ H).
  assert (Hc : (x - inject_Z (Qfloor y) ?= 1 # 2)
               = (y - inject_Z (Qfloor y) ?= 1 # 2)).
  { apply Qcompare_comp; [rewrite H; reflexivity | reflexivity]. }
  rewrite Hc. reflexivity.
Qed.

Lemma round_half_even_Z (z : Z) : round_half_even (inject_Z z) = z.
Proof.
  unfold round_half_even. rewrite Qfloor_Z.
  destruct (Qcompare_spec (inject_Z z - inject_Z z) (1 # 2)) as [H|H|H];
    [exfalso; lra | reflexivity | exfalso; lra].
Qed.

Lemma round_half_even_le (x : Q) :
  inject_Z (round_half_even x) <= x + (1 # 2).
Proof.
  unfold round_half_even. pose proof (Qfloor_le x) as Hf.
  destruct (Qcompare_spec (x - inject_Z (Qfloor x)) (1 # 2)) as [H|H|H].
  - destruct (Z.even (Qfloor x)); [lra|].
    rewrite inject_Z_plus. change (inject_Z 1) with 1. lra.
  - lra.
  - rewrite inject_Z_plus. change (inject_Z 1) with 1. lra.
Qed.

Lemma round_half_even_nonneg (x : Q) : 0 <= x -> (0 <= round_half_even x)%Z.
Proof.
  intros Hx. unfold round_half_even.
  assert (Hf : (0 <= Qfloor x)%Z).
  { rewrite <- (Qfloor_Z 0). apply Qfloor_resp_le. exact Hx. }
  destruct (Qcompare _ _); [destruct (Z.even _)|..]; lia.
Qed.

Lemma pow2_pos (k : Z) : (0 <= k)%Z -> 0 < inject_Z (2 ^ k).
Proof.
  intros Hk. change 0 with (inject_Z 0). rewrite <- Zlt_Qlt.
  apply Z.pow_pos_nonneg; lia.
Qed.

Lemma exponent_abs_below (x : Q) (j : Z) :
  ~ x == 0 -> (0 <= j)%Z -> Qabs x < inject_Z (2 ^ j) ->
  (exponent (Qabs x) < j)%Z.
Proof.
  intros Hx Hj Hlt. apply exponent_below; [|exact Hj|].
  - destruct x as [[|p|p] d]; simpl; try lia.
    exfalso. apply Hx. reflexivity.
  - unfold Qlt in Hlt. simpl in Hlt. destruct x as [n d]. simpl in *. lia.
Qed.

(** The index of the keyword: the product of a double below 1 and 3,
    rounded, is below 3. *)
Lemma keyword_index (r : Q) :
  0 <= r -> r <= 9007199254740991 # 9007199254740992 ->
  (0 <= Qfloor (round_double (r * 3)) < 3)%Z.
Proof.
  intros H0 H1. set (x := r * 3).
  assert (Hx0 : 0 <= x) by (unfold x; lra).
  assert (Hx1 : x <= 3 * (9007199254740991 # 9007199254740992))
    by (unfold x; lra).
  unfold round_double.
  destruct (Qnum x) eqn:Hn; [change (Qfloor 0) with 0%Z; lia|..].
  - assert (Hnz : ~ x == 0).
    { intros H. unfold Qeq in H. rewrite Hn in H. simpl in H. lia. }
    set (k := (Z.max (exponent (Qabs x)) (-1022) - 52)%Z).
    assert (Hk : (k <= -51)%Z).
    { assert (He : (exponent (Qabs x) < 2)%Z).
      { apply exponent_abs_below; [exact Hnz | lia |].
        rewrite Qabs_pos by exact Hx0. change (inject_Z (2 ^ 2)) with 4.
        lra. }
      unfold k. lia. }
    set (P := (2 ^ (- k))%Z).
    assert (HP : inject_Z (2 ^ 51) <= inject_Z P).
    { rewrite <- Zle_Qle. apply Z.pow_le_mono_r; lia. }
    assert (HP0 : 0 < inject_Z P) by (apply pow2_pos; lia).
    set (m := round_half_even (scale x (- k))).
    assert (Hm : inject_Z m <= x * inject_Z P + (1 # 2)).
    { unfold m. eapply Qle_trans; [apply round_half_even_le|].
      rewrite scale_up by lia. fold P. lra. }
    assert (Hm0 : (0 <= m)%Z).
    { apply round_half_even_nonneg. rewrite scale_up by lia. fold P.
      apply Qmult_le_0_compat; lra. }
    assert (HxP : x * inject_Z P
                  <= 3 * (9007199254740991 # 9007199254740992) * inject_Z P)
      by (apply Qmult_le_compat_r; lra).
    change (inject_Z (2 ^ 51)) with (2251799813685248 # 1) in HP.
    assert (Hlt : inject_Z m < 3 * inject_Z P) by lra.
    assert (Hd : scale (inject_Z m) k == inject_Z m / inject_Z P)
      by (apply scale_down; lia).
    rewrite (Qfloor_comp _ _ Hd). split.
    + rewrite <- (Qfloor_Z 0). apply Qfloor_resp_le.
      apply Qle_shift_div_l; [exact HP0|].
      change (inject_Z 0) with 0. rewrite Qmult_0_l.
      change 0 with (inject_Z 0). rewrite <- Zle_Qle. exact Hm0.
    + rewrite Zlt_Qlt. eapply Qle_lt_trans; [apply Qfloor_le|].
      apply Qlt_shift_div_r; [exact HP0 | exact Hlt].
  - exfalso. unfold Qle in Hx0. rewrite Hn in Hx0. simpl in Hx0. lia.
Qed.

(** An integer below [2 ^ 53] in size is a double. *)
Lemma round_double_safe (n : Z) :
  (Z.abs n < 2 ^ 53)%Z -> round_double (inject_Z n) == inject_Z n.
Proof.
  intros Hn. unfold round_double.
  destruct (Qnum (inject_Z n)) eqn:Hq; [simpl in Hq; subst n; reflexivity|..].
  - set (x := inject_Z n).
    set (k := (Z.max (exponent (Qabs x)) (-1022) - 52)%Z).
    assert (Hk : (k <= 0)%Z).
    { assert (He : (exponent (Qabs x) < 53)%Z).
      { apply exponent_abs_below; [|lia|].
        - intros H. unfold x, Qeq in H. simpl in *. lia.
        - unfold x. change (Qabs (inject_Z n)) with (inject_Z (Z.abs n)).
          rewrite <- Zlt_Qlt. exact Hn. }
      unfold k. lia. }
    assert (HP0 : 0 < inject_Z (2 ^ (- k))) by (apply pow2_pos; lia).
    assert (Hs : scale x (- k) == inject_Z (n * 2 ^ (- k))).
    { rewrite scale_up by lia. unfold x. rewrite inject_Z_mult.
      reflexivity. }
    rewrite (round_half_even_comp Hs), round_half_even_Z.
    rewrite scale_down by exact Hk. rewrite inject_Z_mult. unfold x.
    field. lra.
  - set (x := inject_Z n).
    set (k := (Z.max (exponent (Qabs x)) (-1022) - 52)%Z).
    assert (Hk : (k <= 0)%Z).
    { assert (He : (exponent (Qabs x) < 53)%Z).
      { apply exponent_abs_below; [|lia|].
        - intros H. unfold x, Qeq in H. simpl in *. lia.
        - unfold x. change (Qabs (inject_Z n)) with (inject_Z (Z.abs n)).
          rewrite <- Zlt_Qlt. exact Hn. }
      unfold k. lia. }
    assert (HP0 : 0 < inject_Z (2 ^ (- k))) by (apply pow2_pos; lia).
    assert (Hs : scale x (- k) == inject_Z (n * 2 ^ (- k))).
    { rewrite scale_up by lia. unfold x. rewrite inject_Z_mult.
      reflexivity. }
    rewrite (round_half_even_comp Hs), round_half_even_Z.
    rewrite scale_down by exact Hk. rewrite inject_Z_mult. unfold x.
    field. lra.
Qed.

Lemma number_of_safe_integer (n : Z) :
  (Z.abs n < 2 ^ 53)%Z -> number_of_integer n = Int n.
Proof.
  intros Hn. unfold number_of_integer.
  pose proof (@round_double_safe n Hn) as Hd.
  rewrite (Qfloor_comp _ _ Hd), Qfloor_Z.
  destruct (Qle_bool _ _) eqn:Hb; [|reflexivity].
  exfalso. apply Qle_bool_iff in Hb. rewrite Hd in Hb.
  change (Qabs (inject_Z n)) with (inject_Z (Z.abs n)) in Hb.
  rewrite <- Zle_Qle in Hb.
  assert (H : (2 ^ 53 < 2 ^ 1024)%Z) by (apply Z.pow_lt_mono_r; lia).
  lia.
Qed.

(** ** The search keyword *)

Lemma random_keyword_in (r : Q) :
  0 <= r -> r <= 9007199254740991 # 9007199254740992 ->
  In (random_keyword r) hotKeywords.
Proof.
  intros H0 H1. unfold random_keyword.
  pose proof (keyword_index H0 H1) as [Hlo Hhi].
  destruct (Qfloor (round_double (r * 3))) as [|p|p]; try lia.
  - simpl. auto.
  - destruct p as [[|p|]|[|p|]|]; try lia; simpl; auto.
Qed.

(** X15: a draw of [Math.random] is a double from 0 up to, and not
    including, 1, that is at most [1 - 2 ^ -53].  With such a draw the
    keyword a source is asked for is one of the three generic keywords when
    the category is the all-category and in the hot route, and the category
    itself otherwise: the product of the draw and 3, rounded as the
    engine rounds it, stays below 3, and the request never carries an
    undefined keyword. *)
Theorem X15_keyword_is_generic_or_category (w : World) (n : nat)
  (category : jsstring) :
  0 <= keyword_draw w n ->
  keyword_draw w n <= 9007199254740991 # 9007199254740992 ->
  In (random_keyword (keyword_draw w n)) hotKeywords
  /\ (category = ALL ->
      In (Category.searchKeyword w n category) hotKeywords)
  /\ (category <> ALL -> Category.searchKeyword w n category = category).
Proof.
  intros H0 H1. pose proof (random_keyword_in H0 H1) as Hin.
  split; [exact Hin|]. unfold Category.searchKeyword. split.
  - intros ->. rewrite str_eqb_refl. exact Hin.
  - intros Hne. apply str_eqb_neq in Hne. rewrite Hne. reflexivity.
Qed.

(** X15 with the draw 0.3333333333333333, the double next below one
    third: its product with 3 rounds to 1, and the keyword is the
    second. *)
Lemma X15_keyword_witness :
  In (random_keyword (6004799503160661 # 18014398509481984)) hotKeywords
  /\ random_keyword (6004799503160661 # 18014398509481984)
     = nth 1 hotKeywords [].
Proof.
  split; [|vm_compute; reflexivity].
  apply (@X15_keyword_is_generic_or_category
           {| getAvailableApiSites := Return [];
              fetch := fun n _ _ => TimedOut abort_error;
              keyword_draw := fun _ => 6004799503160661 # 18014398509481984;
              id_token := fun _ _ => [];
              shuffle_draw := fun _ => 0 |} 0%nat ALL);
    vm_compute; congruence.
Defined.

(** ** The identifier *)

Lemma id_truthy (E : Env) (w : World) (n j : nat)
  (sourceKey sourceName : jsstring) (item : ApiSearchItem) :
  truthy (id (normalize E w n j sourceKey sourceName item)) = true.
Proof.
  cbn [id normalize]. unfold field_or, or_else.
  assert (Hfb : truthy (sourceKey ++ lit "-" ++ id_token w n j) = true)
    by (destruct sourceKey; reflexivity).
  destruct (option_map id_to_string (vod_id item)) as [s|]; [|exact Hfb].
  destruct (truthy s) eqn:Hs; [exact Hs | exact Hfb].
Qed.

(** X16: every record either route returns has an identifier that is not
    empty: the identifier of the backend when it has one that is not
    empty, and otherwise the key of the source, a dash and the random
    token. *)
Theorem X16_identifier_never_empty (E : Env) (w : World) (n j : nat)
  (sourceKey sourceName : jsstring) (item : ApiSearchItem)
  (category : option jsstring) (limit start : number) :
  let video := normalize E w n j sourceKey sourceName item in
  (forall s, vod_id item = Some (IdString s) -> s <> [] -> id video = s)
  /\ (vod_id item = None \/ vod_id item = Some (IdString []) ->
      id video = sourceKey ++ lit "-" ++ id_token w n j)
  /\ (forall v,
        In v (list_ (Category.GET E w category limit start))
        \/ In v (list_ (Hot.GET E w limit start)) ->
        truthy (id v) = true).
Proof.
  split; [|split].
  - intros s Hs Hne. cbn [id normalize]. rewrite Hs. simpl.
    destruct s; [congruence | reflexivity].
  - intros [H|H]; cbn [id normalize]; rewrite H; reflexivity.
  - intros v Hv.
    assert (He : emitted E w v).
    { destruct Hv as [Hv|Hv];
        [eapply category_page_emitted | eapply hot_page_emitted];
        exact Hv. }
    destruct He as (n' & j' & k' & nm' & item' & -> & _).
    apply id_truthy.
Qed.

(** ** The query parameters *)

Lemma lit_String (a : ascii) (s : string) :
  lit (String a s) = N_of_ascii a :: lit s.
Proof. reflexivity. Qed.

Ltac digit_step :=
  cbn [NilEmpty.string_of_uint]; rewrite lit_String; cbn [parse_digits];
  match goal with
  | |- context [radix_digit 10 (N_of_ascii ?a)] =>
      let v := eval vm_compute in (radix_digit 10 (N_of_ascii a)) in
      change (radix_digit 10 (N_of_ascii a)) with v
  end; cbv iota.

Lemma parse_uint_pos (d : Decimal.uint) (p : positive) :
  parse_digits 10 (Some (Zpos p)) (lit (NilEmpty.string_of_uint d))
  = Some (Zpos (Pos.of_uint_acc d p)).
Proof.
  revert p. induction d as [|d IH|d IH|d IH|d IH|d IH|d IH|d IH|d IH|d IH|d IH];
    intros p; [reflexivity|..]; digit_step;
    cbn [Pos.of_uint_acc]; rewrite <- IH; do 2 f_equal; lia.
Qed.

Lemma parse_uint_zero (d : Decimal.uint) :
  parse_digits 10 (Some 0%Z) (lit (NilEmpty.string_of_uint d))
  = Some (Z.of_N (Pos.of_uint d)).
Proof.
  induction d as [|d IH|d IH|d IH|d IH|d IH|d IH|d IH|d IH|d IH|d IH];
    [reflexivity|..]; digit_step;
    [exact IH | apply (parse_uint_pos d)..].
Qed.

Lemma parse_uint (d : Decimal.uint) :
  d <> Decimal.Nil ->
  parse_digits 10 None (lit (NilEmpty.string_of_uint d))
  = Some (Z.of_N (Pos.of_uint d)).
Proof.
  destruct d; [congruence|..]; intros _; digit_step;
    [exact (parse_uint_zero d) | apply (parse_uint_pos d)..].
Qed.

Lemma digits_plain (d : Decimal.uint) :
  d <> Decimal.Nil ->
  trim_start (lit (NilEmpty.string_of_uint d))
  = lit (NilEmpty.string_of_uint d)
  /\ strip_sign (lit (NilEmpty.string_of_uint d))
     = (1%Z, lit (NilEmpty.string_of_uint d))
  /\ strip_hex_prefix (lit (NilEmpty.string_of_uint d))
     = (10%Z, lit (NilEmpty.string_of_uint d)).
Proof.
  destruct d as [|d|d|d|d|d|d|d|d|d|d]; [congruence|..]; intros _;
    (split; [reflexivity|]; split; [reflexivity|]);
    destruct d; reflexivity.
Qed.

Lemma parseInt_digits (d : Decimal.uint) :
  d <> Decimal.Nil ->
  parseInt (lit (NilEmpty.string_of_uint d))
  = number_of_integer (Z.of_N (Pos.of_uint d))
  /\ parseInt (45%N :: lit (NilEmpty.string_of_uint d))
     = number_of_integer (- Z.of_N (Pos.of_uint d)).
Proof.
  intros Hd. destruct (digits_plain Hd) as (Ht & Hs & Hx).
  unfold parseInt. split.
  - rewrite Ht, Hs, Hx, (parse_uint Hd). f_equal; lia.
  - cbn [trim_start]. change (is_space 45) with false. cbv iota.
    cbn [strip_sign]. change (45 =? 45)%N with true. cbv iota.
    rewrite Hx, (parse_uint Hd). f_equal; lia.
Qed.

(** [parseInt] reads the digits of an integer back as the Number nearest
    to it. *)
Lemma parseInt_number_to_string (n : Z) :
  parseInt (number_to_string n) = number_of_integer n.
Proof.
  unfold number_to_string. destruct n as [|p|p]; [reflexivity|..].
  - cbn [Z.to_int NilZero.string_of_int NilZero.string_of_uint].
    pose proof (Unsigned.to_uint_nonnil p) as Hp.
    replace (NilZero.string_of_uint (Pos.to_uint p))
      with (NilEmpty.string_of_uint (Pos.to_uint p))
      by (unfold NilZero.string_of_uint; destruct (Pos.to_uint p);
          [congruence | reflexivity..]).
    destruct (parseInt_digits Hp) as [-> _].
    rewrite Unsigned.of_to. reflexivity.
  - cbn [Z.to_int NilZero.string_of_int].
    pose proof (Unsigned.to_uint_nonnil p) as Hp.
    replace (NilZero.string_of_uint (Pos.to_uint p))
      with (NilEmpty.string_of_uint (Pos.to_uint p))
      by (unfold NilZero.string_of_uint; destruct (Pos.to_uint p);
          [congruence | reflexivity..]).
    rewrite lit_String. change (N_of_ascii "-") with 45%N.
    destruct (parseInt_digits Hp) as [_ ->].
    rewrite Unsigned.of_to. reflexivity.
Qed.

Lemma number_to_string_truthy (n : Z) : truthy (number_to_string n) = true.
Proof.
  pose proof (parseInt_number_to_string n) as H.
  destruct (number_to_string n); [|reflexivity].
  unfold number_of_integer in H. change (parseInt []) with NaN in H.
  destruct (Qle_bool _ _); discriminate H.
Qed.

(** X17: a start and a limit that are safe integers (of size below
    [2 ^ 53], as every offset and page size of the page component is),
    written into the query string as the page writes them, in decimal,
    are the start and the limit the routes page with: [parseInt] reads
    back the integer that was printed, negative ones included. *)
Theorem X17_start_and_limit_survive_the_query (E : Env) (w : World)
  (category : option jsstring) (start limit : Z) :
  (Z.abs start < 2 ^ 53)%Z -> (Z.abs limit < 2 ^ 53)%Z ->
  parseInt (number_to_string start) = Int start
  /\ category_request E w category (Some (number_to_string limit))
                      (Some (number_to_string start))
     = Category.GET E w category (Int limit) (Int start)
  /\ hot_request E w (Some (number_to_string limit))
                 (Some (number_to_string start))
     = Hot.GET E w (Int limit) (Int start).
Proof.
  intros Hs Hl.
  assert (Hstart : parseInt (number_to_string start) = Int start)
    by (rewrite parseInt_number_to_string;
        apply number_of_safe_integer; exact Hs).
  assert (Hlimit : parseInt (number_to_string limit) = Int limit)
    by (rewrite parseInt_number_to_string;
        apply number_of_safe_integer; exact Hl).
  split; [exact Hstart|].
  unfold category_request, hot_request, field_or, or_else.
  rewrite !number_to_string_truthy, Hstart, Hlimit.
  split; reflexivity.
Qed.

(** X17 for the second page of the page component: start 25, limit 25. *)
Lemma X17_query_witness :
  parseInt (number_to_string 25) = Int 25.
Proof.
  apply (@X17_start_and_limit_survive_the_query sampleEnv world_three None
           25%Z 25%Z); reflexivity.
Defined.

(** X18: a request that names no start and no limit, or names them with
    an empty value, gets the first 25 records of the shuffled sequence
    from the category route and the first 20 from the hot route.  (The
    shuffled sequence of a request whose merge raises has no record, and
    neither has the answer.) *)
Theorem X18_default_page (E : Env) (w : World) (sites : list ApiSite)
  (category limit start : option jsstring) :
  getAvailableApiSites w = Return sites ->
  (limit = None \/ limit = Some []) -> (start = None \/ start = Some []) ->
  list_ (category_request E w category limit start)
  = firstn 25 (Category.shuffled_of E w sites (field_or category ALL))
  /\ list_ (hot_request E w limit start)
     = firstn 20 (Hot.shuffled_of E w sites).
Proof.
  intros Hs Hl Hst. unfold category_request, hot_request.
  assert (H25 : parseInt (field_or limit (lit "25")) = Int 25)
    by (destruct Hl as [-> | ->]; reflexivity).
  assert (H20 : parseInt (field_or limit (lit "20")) = Int 20)
    by (destruct Hl as [-> | ->]; reflexivity).
  assert (H0 : parseInt (field_or start (lit "0")) = Int 0)
    by (destruct Hst as [-> | ->]; reflexivity).
  rewrite H25, H20, H0, category_list, hot_list, Hs.
  rewrite !slice_nonneg by lia. split; reflexivity.
Qed.

(** X18 on three records: the answer is the whole shuffled sequence. *)
Lemma X18_default_page_witness :
  list_ (category_request sampleEnv world_three None None None)
  = Category.shuffled_of sampleEnv world_three [site1] ALL
  /\ length (list_ (category_request sampleEnv world_three None None None))
     = 3%nat.
Proof.
  destruct (@X18_default_page sampleEnv world_three [site1] None None None
              eq_refl (or_introl eq_refl) (or_introl eq_refl)) as [H _].
  rewrite H. vm_compute. split; reflexivity.
Defined.

(** X19: a start or a limit that [parseInt] cannot read (no digit after
    the white space and the sign) makes the list of either route empty,
    whatever the other parameter is. *)
Theorem X19_unreadable_number_empties_the_page (E : Env) (w : World)
  (category other : option jsstring) (s : jsstring) :
  s <> [] -> parseInt s = NaN ->
  list_ (category_request E w category (Some s) other) = []
  /\ list_ (category_request E w category other (Some s)) = []
  /\ list_ (hot_request E w (Some s) other) = []
  /\ list_ (hot_request E w other (Some s)) = [].
Proof.
  intros Hne Hnan. unfold category_request, hot_request.
  assert (Hf : forall d, field_or (Some s) d = s)
    by (intros d; destruct s; [congruence | reflexivity]).
  rewrite !Hf, Hnan, !category_list, !hot_list.
  destruct (getAvailableApiSites w) as [sites|e]; [|auto].
  repeat split; apply slice_nan; auto.
Qed.

(** X19 with the parameter abc. *)
Lemma X19_unreadable_number_witness :
  list_ (category_request sampleEnv world_three None (Some (lit "abc"))
                          None) = [].
Proof.
  apply (@X19_unreadable_number_empties_the_page sampleEnv world_three
           None None (lit "abc")); [discriminate | reflexivity].
Defined.

(** ** The page component *)

(** X20: [fetchSourceVideos] never raises.  It returns the envelope of
    the body when the response has a 2xx status and the body parses, and
    the fallback envelope of code 500 with an empty list when the request
    fails, when the status is another one and when the body does not
    parse; called without arguments it asks for the all-category from 0
    with a limit of 25. *)
Theorem X20_fetchSourceVideos_absorbs_failures (E : Env)
  (net : jsstring -> ClientEvent) (category : jsstring)
  (pageStart pageLimit : Z) :
  let result :=
    fetchSourceVideos E net (Some category) (Some pageStart)
                      (Some pageLimit) in
  let event := net (source_url E category pageStart pageLimit) in
  (exists data, result = Return data)
  /\ (forall e, event = ClientFailure e -> result = Return FALLBACK)
  /\ (forall r, event = ClientAnswer r -> client_ok r = false ->
        result = Return FALLBACK)
  /\ (forall r e, event = ClientAnswer r -> client_json r = Throw e ->
        result = Return FALLBACK)
  /\ (forall r data, event = ClientAnswer r -> client_ok r = true ->
        client_json r = Return data -> result = Return data)
  /\ fetchSourceVideos E net None None None
     = fetchSourceVideos E net (Some ALL) (Some 0%Z) (Some 25%Z).
Proof.
  cbv zeta. unfold fetchSourceVideos, try_catch.
  destruct (net (source_url E category pageStart pageLimit)) as [e0|r0];
    simpl.
  - split; [eexists; reflexivity|].
    repeat split; intros; try reflexivity; discriminate.
  - destruct (client_ok r0) eqn:Hok; simpl.
    + destruct (client_json r0) as [d|e1] eqn:Hj; simpl.
      * split; [eexists; reflexivity|].
        split; [intros; discriminate|].
        split; [intros r H; injection H as <-; congruence|].
        split; [intros r e H; injection H as <-; congruence|].
        split; [|reflexivity].
        intros r data H; injection H as <-. congruence.
      * split; [eexists; reflexivity|].
        split; [intros; discriminate|].
        split; [intros r H; injection H as <-; congruence|].
        split; [reflexivity|].
        split; [|reflexivity].
        intros r data H; injection H as <-. congruence.
    + split; [eexists; reflexivity|].
      split; [intros; discriminate|].
      split; [reflexivity|].
      split; [reflexivity|].
      split; [|reflexivity].
      intros r data H; injection H as <-. congruence.
Qed.

Section PageFacts.
Variable E : Env.
Variable net : jsstring -> ClientEvent.

Lemma scroll_step_full (st : PageState) (d : Envelope) :
  observing st = true -> (0 <= currentPage st)%Z ->
  fetchSourceVideos E net (Some (categorySelection st))
                    (Some ((currentPage st + 1) * 25)%Z) None = Return d ->
  code d = 200%Z ->
  scroll_to_end E net st
  = {| videos := videos st ++ list_ d; loading := loading st;
       currentPage := (currentPage st + 1)%Z;
       hasMore := (length (list_ d) =? 25)%nat;
       isLoadingMore := false;
       categorySelection := categorySelection st |}.
Proof.
  intros Hobs Hp Hd Hc. unfold scroll_to_end. rewrite Hobs.
  unfold observing in Hobs. apply andb_true_iff in Hobs.
  destruct Hobs as [Hobs _]. apply andb_true_iff in Hobs.
  destruct Hobs as [Hmore Hidle].
  unfold on_intersect. rewrite Hmore, Hidle. cbn [andb].
  unfold page_effect. cbn [currentPage].
  replace (currentPage st + 1 >? 0)%Z with true
    by (symmetry; apply Z.gtb_lt; lia).
  unfold fetchMoreData. cbn [currentPage categorySelection videos loading].
  rewrite Hd, Hc. reflexivity.
Qed.

Lemma scroll_step_failed (st : PageState) (d : Envelope) :
  observing st = true -> (0 <= currentPage st)%Z ->
  fetchSourceVideos E net (Some (categorySelection st))
                    (Some ((currentPage st + 1) * 25)%Z) None = Return d ->
  code d <> 200%Z ->
  scroll_to_end E net st
  = {| videos := videos st; loading := loading st;
       currentPage := (currentPage st + 1)%Z;
       hasMore := hasMore st; isLoadingMore := false;
       categorySelection := categorySelection st |}.
Proof.
  intros Hobs Hp Hd Hc. unfold scroll_to_end. rewrite Hobs.
  unfold observing in Hobs. apply andb_true_iff in Hobs.
  destruct Hobs as [Hobs _]. apply andb_true_iff in Hobs.
  destruct Hobs as [Hmore Hidle].
  unfold on_intersect. rewrite Hmore, Hidle. cbn [andb].
  unfold page_effect. cbn [currentPage].
  replace (currentPage st + 1 >? 0)%Z with true
    by (symmetry; apply Z.gtb_lt; lia).
  unfold fetchMoreData.
  cbn [currentPage categorySelection videos loading hasMore].
  rewrite Hd. apply Z.eqb_neq in Hc. rewrite Hc. reflexivity.
Qed.

Lemma scroll_idle (st : PageState) (k : nat) :
  observing st = false -> scroll_times E net k st = st.
Proof.
  intros H. induction k as [|k IH]; [reflexivity|].
  simpl. unfold scroll_to_end. rewrite H. exact IH.
Qed.
End PageFacts.

(** X21: as long as every answer has code 200 and 25 records, [k] times
    reaching the end of the list loads the next [k] pages in order: the
    page counter advances by [k], the videos are the ones shown before
    followed by the lists of the answers for the starts 25 (p+1), 25 (p+2)
    and so on, and the observer is set up again.  So when the first page
    was full, each request starts at the number of videos already
    shown. *)
Theorem X21_load_more_appends_in_order (E : Env)
  (net : jsstring -> ClientEvent) (answers : Z -> Envelope) (k : nat)
  (st : PageState) :
  observing st = true -> (0 <= currentPage st)%Z ->
  (forall p, (currentPage st < p <= currentPage st + Z.of_nat k)%Z ->
     fetchSourceVideos E net (Some (categorySelection st))
                       (Some (p * 25)%Z) None = Return (answers p)
     /\ code (answers p) = 200%Z
     /\ length (list_ (answers p)) = 25%nat) ->
  let st' := scroll_times E net k st in
  currentPage st' = (currentPage st + Z.of_nat k)%Z
  /\ videos st'
     = videos st
       ++ flat_map (fun i => list_ (answers (currentPage st + 1
                                             + Z.of_nat i)%Z))
                   (seq 0 k)
  /\ length (videos st') = (length (videos st) + 25 * k)%nat
  /\ observing st' = true
  /\ categorySelection st' = categorySelection st.
Proof.
  revert st. induction k as [|k IH]; intros st Hobs Hp Hans.
  - simpl. rewrite Z.add_0_r, app_nil_r, Nat.add_0_r. auto.
  - destruct (Hans (currentPage st + 1)%Z ltac:(lia)) as (Hd & Hc & Hl).
    cbn [scroll_times].
    rewrite (scroll_step_full E net st Hobs Hp Hd Hc), Hl.
    set (st1 := {| videos := _ |}).
    assert (Hobs1 : observing st1 = true).
    { unfold observing in *. cbn [hasMore isLoadingMore loading st1].
      apply andb_true_iff in Hobs. destruct Hobs as [_ ->]. reflexivity. }
    specialize (IH st1 Hobs1).
    cbn [currentPage categorySelection videos st1] in IH.
    destruct IH as (H1 & H2 & H3 & H4 & H5); [lia| |].
    { intros p Hr. apply Hans. lia. }
    cbv zeta. split; [rewrite H1; lia|]. split.
    + rewrite H2, <- app_assoc. f_equal. cbn [seq flat_map].
      rewrite Z.add_0_r. f_equal.
      rewrite <- seq_shift.
      rewrite (flat_map_concat_map _ (map S (seq 0 k))), map_map,
        <- flat_map_concat_map.
      apply flat_map_ext. intros i. do 2 f_equal. lia.
    + split; [|auto]. rewrite H3, length_app, Hl. lia.
Qed.

(** X21 on a network that always answers with a full page: two more
    pages after the first. *)
Lemma X21_load_more_witness :
  currentPage (scroll_times sampleEnv net_full 2 page_after_first) = 2%Z
  /\ length (videos (scroll_times sampleEnv net_full 2 page_after_first))
     = 75%nat.
Proof.
  destruct (@X21_load_more_appends_in_order sampleEnv net_full
              (fun _ => {| code := 200; message := MSG_OK;
                           list_ := full_page |})
              2 page_after_first eq_refl)
    as (H1 & _ & H3 & _).
  - cbn. lia.
  - intros p _. repeat split.
  - split; [exact H1 | exact H3].
Defined.

(** X22: an answer to a load-more whose code is not 200 (the fallback of
    a failed request among them) leaves the videos and [hasMore] as they
    were and ends the loading, but the page counter has advanced: the
    failed page is not asked for again, the next request starts 25
    further. *)
Theorem X22_failed_page_is_skipped (E : Env)
  (net : jsstring -> ClientEvent) (st : PageState) (d : Envelope) :
  observing st = true -> (0 <= currentPage st)%Z ->
  fetchSourceVideos E net (Some (categorySelection st))
                    (Some ((currentPage st + 1) * 25)%Z) None = Return d ->
  code d <> 200%Z ->
  let st' := scroll_to_end E net st in
  videos st' = videos st
  /\ hasMore st' = hasMore st
  /\ isLoadingMore st' = false
  /\ currentPage st' = (currentPage st + 1)%Z
  /\ observing st' = true.
Proof.
  intros Hobs Hp Hd Hc. cbv zeta.
  rewrite (scroll_step_failed E net st Hobs Hp Hd Hc).
  cbn [videos hasMore isLoadingMore currentPage]. repeat split.
  unfold observing in *. cbn [hasMore isLoadingMore loading].
  apply andb_true_iff in Hobs. destruct Hobs as [Hobs ->].
  apply andb_true_iff in Hobs. destruct Hobs as [-> _]. reflexivity.
Qed.

(** X22 on a network whose server answers 502. *)
Lemma X22_failed_page_witness :
  videos (scroll_to_end sampleEnv net_down page_after_first) = full_page
  /\ currentPage (scroll_to_end sampleEnv net_down page_after_first) = 1%Z.
Proof.
  destruct (@X22_failed_page_is_skipped sampleEnv net_down page_after_first
              FALLBACK eq_refl)
    as (H1 & _ & _ & H4 & _).
  - cbn. lia.
  - reflexivity.
  - discriminate.
  - split; [exact H1 | exact H4].
Defined.

(** X23: an answer of code 200 with a number of records other than 25
    ends the paging: its records are appended, [hasMore] is false, and
    reaching the end of the list any number of times afterwards changes
    nothing and sends no request. *)
Theorem X23_short_page_ends_paging (E : Env)
  (net : jsstring -> ClientEvent) (st : PageState) (d : Envelope)
  (k : nat) :
  observing st = true -> (0 <= currentPage st)%Z ->
  fetchSourceVideos E net (Some (categorySelection st))
                    (Some ((currentPage st + 1) * 25)%Z) None = Return d ->
  code d = 200%Z -> length (list_ d) <> 25%nat ->
  let st' := scroll_to_end E net st in
  videos st' = videos st ++ list_ d
  /\ hasMore st' = false
  /\ scroll_times E net k st' = st'.
Proof.
  intros Hobs Hp Hd Hc Hl. cbv zeta.
  rewrite (scroll_step_full E net st Hobs Hp Hd Hc).
  apply Nat.eqb_neq in Hl. rewrite Hl.
  cbn [videos hasMore]. repeat split.
  apply scroll_idle. reflexivity.
Qed.

(** X23 on a server that answers with three records. *)
Lemma X23_short_page_witness :
  hasMore (scroll_to_end sampleEnv
             (fun _ => ClientAnswer
                {| client_status := 200;
                   client_json :=
                     Return (Category.GET sampleEnv world_three None
                                          (Int 25) (Int 0)) |})
             page_after_first) = false.
Proof.
  destruct (@X23_short_page_ends_paging sampleEnv
              (fun _ => ClientAnswer
                 {| client_status := 200;
                    client_json :=
                      Return (Category.GET sampleEnv world_three None
                                           (Int 25) (Int 0)) |})
              page_after_first
              (Category.GET sampleEnv world_three None (Int 25) (Int 0))
              0%nat eq_refl)
    as (_ & H & _).
  - cbn. lia.
  - reflexivity.
  - reflexivity.
  - vm_compute. discriminate.
  - exact H.
Defined.

(** ** Failing sources in the hot route *)

(** X24: in the hot route a source among the first three that fails (a
    time-out, a network error, a status outside 2xx, a body that is not
    JSON or has no list) contributes the empty list, and with no site
    configured the answer has code 200, no record and the message that no
    source is available.  When the list of each of the first three sources
    is short enough to be the arguments of one call of [push], the answer
    has code 200, the merged records are those of the first three sources
    that did not fail, in the order of the sites, and the list is the page
    of their deduplicated shuffle.  When one of the three returns more
    records than the engine takes as arguments, the answer is the code 500
    with the message of the engine's error and no record. *)
Theorem X24_hot_partial_failure_tolerated (E : Env) (w : World)
  (sites : list ApiSite) (limit start : number) :
  getAvailableApiSites w = Return sites ->
  let fails := fun p : nat * ApiSite =>
    failed (search_event E w (fst p) (api (snd p))
              (random_keyword (keyword_draw w (fst p)))) in
  let produce := fun p : nat * ApiSite =>
    value_of (Hot.fetchHotVideosFromApi E w (fst p) (api (snd p))
                (key (snd p)) (name (snd p))) in
  let surviving :=
    flat_map produce
      (filter (fun p => negb (fails p)) (indexed (firstn 3 sites))) in
  (forall p, fails p = true -> produce p = [])
  /\ (sites = [] ->
      Hot.GET E w limit start
      = {| code := 200; message := MSG_NO_SOURCE; list_ := [] |})
  /\ ((forall p, In p (indexed (firstn 3 sites)) ->
         (length (produce p) <=? spread_limit E)%nat = true) ->
      code (Hot.GET E w limit start) = 200%Z
      /\ Hot.allVideos_of E w sites = surviving
      /\ list_ (Hot.GET E w limit start)
         = slice (Hot.shuffle E w surviving) start (num_add start limit))
  /\ (forall p, In p (indexed (firstn 3 sites)) ->
        (length (produce p) <=? spread_limit E)%nat = false ->
        Hot.GET E w limit start
        = {| code := 500;
             message := MSG_FAIL_HOT ++ err_message (spread_error E);
             list_ := [] |}).
Proof.
  intros Hsites fails produce surviving.
  assert (Hfail : forall p, fails p = true -> produce p = []).
  { intros p Hp. unfold produce, fails in *.
    rewrite hot_source_failed by exact Hp. reflexivity. }
  split; [exact Hfail|]. split; [|split].
  - intros ->. unfold Hot.GET. rewrite Hsites. reflexivity.
  - intros Hfit.
    assert (Hall : forallb (fun p => (length (produce p)
                                      <=? spread_limit E)%nat)
                           (indexed (firstn 3 sites)) = true)
      by (apply forallb_forall; exact Hfit).
    assert (Hmerged : Hot.merged_of E w sites = Return surviving).
    { pose proof (hot_merged E w sites) as Hm.
      change (Hot.merged_of E w sites
              = if forallb (fun p => (length (produce p)
                                      <=? spread_limit E)%nat)
                           (indexed (firstn 3 sites))
                then Return (flat_map produce (indexed (firstn 3 sites)))
                else Throw (spread_error E)) in Hm.
      rewrite Hall in Hm. rewrite Hm.
      unfold surviving. f_equal. apply flat_map_survivors.
      intros p _. apply Hfail. }
    assert (Hvideos : Hot.allVideos_of E w sites = surviving)
      by (unfold Hot.allVideos_of; rewrite Hmerged; reflexivity).
    split; [|split; [exact Hvideos|]].
    + unfold Hot.GET. rewrite Hsites. cbn [bind].
      destruct (length sites =? 0)%nat; [reflexivity|].
      rewrite Hmerged. reflexivity.
    + rewrite hot_list, Hsites. unfold Hot.shuffled_of.
      rewrite Hvideos. reflexivity.
  - intros p Hin Hlong.
    exact (@hot_overflow E w sites limit start p Hsites Hin Hlong).
Qed.

(** X24 on three sites of which the first times out and the second
    answers 503. *)
Lemma X24_hot_partial_failure_witness :
  code (Hot.GET sampleEnv world_partial (Int 20) (Int 0)) = 200%Z
  /\ map id (Hot.allVideos_of sampleEnv world_partial [site1; site2; site3])
     = [lit "5"].
Proof.
  destruct (@X24_hot_partial_failure_tolerated sampleEnv world_partial
              [site1; site2; site3] (Int 20) (Int 0) eq_refl)
    as (_ & _ & H & _).
  destruct H as (Hcode & Hall & _).
  { intros p Hin. cbn in Hin.
    destruct Hin as [<-|[<-|[<-|[]]]]; vm_compute; reflexivity. }
  split; [exact Hcode|].
  etransitivity; [exact (f_equal (map id) Hall)|].
  vm_compute. reflexivity.
Defined.
